(** * Café list service: the store, the endpoints of [app/main.py] and
      the properties of its filtering, validation and recommendation logic.

    The relational store is modelled as three tables held as lists in row
    order ([app/models.py]); an endpoint is a computation over a database
    session (the committed store and the rows of the open transaction)
    that may raise.  The calls into scikit-learn and numpy made by the
    recommender are taken as parameters. *)

From Stdlib Require Import ZArith QArith Ascii String DecimalString.
From stdpp Require Import base option list strings gmap sets.

Open Scope Z_scope.
Open Scope string_scope.

(** ** Data model ([app/models.py], [app/schemas.py]) *)

Record Category := mkCategory {
  category_id : Z;
  category_name : string
}.

Record Cafe := mkCafe {
  cafe_id : Z;
  title : string;
  city : string;
  description : string;
  image_url : option string
}.

Record CafeCategory := mkCafeCategory {
  assoc_id : Z;
  assoc_cafe_id : Z;
  assoc_category_id : Z;
  is_best : bool
}.

Record Store := mkStore {
  categories : list Category;
  cafes : list Cafe;
  cafe_categories : list CafeCategory
}.

Definition empty_store : Store := mkStore [] [] [].

(** [schemas.CafeCreate] *)
Record CafeCreate := mkCafeCreate {
  new_title : string;
  new_city : string;
  new_description : string;
  new_image_url : option string;
  new_best_for : string;
  new_also_good_for : list string
}.

(** [schemas.CafeResponse] *)
Record CafeResponse := mkCafeResponse {
  resp_id : Z;
  resp_title : string;
  resp_city : string;
  resp_description : string;
  resp_image_url : option string;
  resp_best_for : option string;
  resp_also_good_for : list string
}.

#[global] Instance Category_eq_dec : EqDecision Category.
Proof. solve_decision. Defined.
#[global] Instance Cafe_eq_dec : EqDecision Cafe.
Proof. solve_decision. Defined.
#[global] Instance CafeCategory_eq_dec : EqDecision CafeCategory.
Proof. solve_decision. Defined.

(** ** Exceptions and the database session *)

Inductive exn :=
| HTTPException (status_code : Z) (detail : string)
| IntegrityError
| MissingGreenlet
| TypeError
| KeyError
| ValueError
| IndexError.

#[global] Instance exn_eq_dec : EqDecision exn.
Proof. solve_decision. Defined.

(** An [AsyncSession]: [committed] is what the database holds, [pending]
    is what the open transaction sees. *)
Record Db := mkDb {
  committed : Store;
  pending : Store
}.

Definition Session (A : Type) : Type := Db → (exn + A) * Db.

Definition ret {A} (a : A) : Session A := λ db, (inr a, db).

Definition raise {A} (e : exn) : Session A := λ db, (inl e, db).

Definition bind {A B} (m : Session A) (k : A → Session B) : Session B :=
  λ db, match m db with
        | (inl e, db') => (inl e, db')
        | (inr a, db') => k a db'
        end.

Notation "'do' x <- m ; k" := (bind m (λ x, k))
  (at level 10, x name, m at level 100, k at level 200).
Notation "m ;; k" := (bind m (λ _, k))
  (at level 100, k at level 200, right associativity).

(** [try: body  except IntegrityError: handler] *)
Definition try_except_IntegrityError {A} (body handler : Session A) : Session A :=
  λ db, match body db with
        | (inl IntegrityError, db') => handler db'
        | r => r
        end.

(** [for x in xs: body x] *)
Fixpoint for_each {A} (xs : list A) (body : A → Session unit) : Session unit :=
  match xs with
  | [] => ret tt
  | x :: xs' => body x ;; for_each xs' body
  end.

Definition query {A} (f : Store → A) : Session A := λ db, (inr (f (pending db)), db).

Definition commit : Session unit :=
  λ db, (inr tt, mkDb (pending db) (pending db)).

Definition rollback : Session unit :=
  λ db, (inr tt, mkDb (committed db) (committed db)).

(** A request handler runs in a session of its own ([get_db]); when the
    session is closed, whatever was not committed is dropped. *)
Definition run {A} (m : Session A) (s : Store) : (exn + A) * Store :=
  let '(r, db) := m (mkDb s s) in (r, committed db).

(** ** Tables, keys and constraints *)

(** Row id of an [INTEGER PRIMARY KEY] column: one more than the largest
    id in the table. *)
Definition next_id (ids : list Z) : Z := Z.succ (foldr Z.max 0 ids).

Definition cafe_key (c : Cafe) : string * string := (title c, city c).
Definition assoc_key (a : CafeCategory) : Z * Z := (assoc_cafe_id a, assoc_category_id a).

(** [db.add(Cafe(...)); db.flush()]: constraint [uq_cafe_title_city]. *)
Definition insert_cafe (t c d : string) (img : option string) : Session Cafe :=
  λ db,
    let s := pending db in
    if bool_decide ((t, c) ∈ cafe_key <$> cafes s) then (inl IntegrityError, db)
    else
      let row := mkCafe (next_id (cafe_id <$> cafes s)) t c d img in
      (inr row, mkDb (committed db)
                     (mkStore (categories s) (cafes s ++ [row]) (cafe_categories s))).

(** [db.add(CafeCategory(...))]: constraint [uq_cafe_category].  The INSERT
    is sent at the next flush, which every caller has inside the same
    [try] block as the [add]. *)
Definition insert_cafe_category (cid kid : Z) (best : bool) : Session unit :=
  λ db,
    let s := pending db in
    if bool_decide ((cid, kid) ∈ assoc_key <$> cafe_categories s)
    then (inl IntegrityError, db)
    else
      let row := mkCafeCategory (next_id (assoc_id <$> cafe_categories s)) cid kid best in
      (inr tt, mkDb (committed db)
                    (mkStore (categories s) (cafes s) (cafe_categories s ++ [row]))).

(** [delete(CafeCategory).filter_by(cafe_id=cid)] *)
Definition delete_cafe_categories (cid : Z) : Session unit :=
  λ db,
    let s := pending db in
    (inr tt, mkDb (committed db)
                  (mkStore (categories s) (cafes s)
                           (filter (λ a, assoc_cafe_id a ≠ cid) (cafe_categories s)))).

(** [db.delete(db_cafe)] *)
Definition delete_cafe_row (cid : Z) : Session unit :=
  λ db,
    let s := pending db in
    (inr tt, mkDb (committed db)
                  (mkStore (categories s)
                           (filter (λ c, cafe_id c ≠ cid) (cafes s))
                           (cafe_categories s))).

(** The UPDATE of a café whose attributes were assigned; constraint
    [uq_cafe_title_city] against the other rows. *)
Definition update_cafe_row (cid : Z) (t c d : string) (img : option string)
  : Session unit :=
  λ db,
    let s := pending db in
    if bool_decide ((t, c) ∈ cafe_key <$> filter (λ r, cafe_id r ≠ cid) (cafes s))
    then (inl IntegrityError, db)
    else
      (inr tt, mkDb (committed db)
                    (mkStore (categories s)
                             ((λ r, if bool_decide (cafe_id r = cid)
                                    then mkCafe cid t c d img else r) <$> cafes s)
                             (cafe_categories s))).

(** [select(Cafe).filter_by(id=cid)] followed by [.scalars().first()] *)
Definition select_cafe_by_id (cid : Z) : Session (option Cafe) :=
  query (λ s, head (filter (λ c, cafe_id c = cid) (cafes s))).

(** [select(Category).filter(Category.name.in_(names))] *)
Definition select_categories_in (names : gset string) : Session (list Category) :=
  query (λ s, filter (λ k, category_name k ∈ names) (categories s)).

(** ** Relationship attributes and derived views *)

(** [Cafe.category_associations] *)
Definition category_associations (s : Store) (c : Cafe) : list CafeCategory :=
  filter (λ a, assoc_cafe_id a = cafe_id c) (cafe_categories s).

(** [CafeCategory.category] *)
Definition category (s : Store) (a : CafeCategory) : option Category :=
  head (filter (λ k, category_id k = assoc_category_id a) (categories s)).

(** [Cafe.best_for]: the category of the first association flagged best. *)
Definition best_for (s : Store) (c : Cafe) : option Category :=
  match filter (λ a, is_best a = true) (category_associations s c) with
  | a :: _ => category s a
  | [] => None
  end.

(** [Cafe.also_good_for]: one entry per association not flagged best. *)
Definition also_good_for (s : Store) (c : Cafe) : list (option Category) :=
  category s <$> filter (λ a, is_best a = false) (category_associations s c).

(** [CafeResponse.from_orm], through [transform_category_objects_to_names]:
    names of the associated categories, skipping associations whose
    category is missing. *)
Definition from_orm (s : Store) (c : Cafe) : CafeResponse :=
  let assocs := category_associations s c in
  mkCafeResponse (cafe_id c) (title c) (city c) (description c) (image_url c)
    (head (omap (λ a, category_name <$> category s a)
                (filter (λ a, is_best a = true) assocs)))
    (omap (λ a, category_name <$> category s a)
          (filter (λ a, is_best a = false) assocs)).

(** ** Relationships that were not loaded *)

(** The session is an [AsyncSession] ([database.py]) and the relationships
    of [models.py] are lazy.  A query loads [Cafe.category_associations]
    only when it is told to: [get_cafes] does so with [selectinload].  On
    an object that comes from [Cafe(...)] or from a plain [select(Cafe)],
    reading the attribute has to load it, which an [AsyncSession] cannot
    do outside an [await]: the read raises [MissingGreenlet].  [refresh]
    reloads the columns and leaves the relationship unloaded. *)
Definition lazy_load {A} : Session A := raise MissingGreenlet.

(** [CafeResponse.from_orm(db_cafe)] on such an object.  The validator
    reads [getattr(data, 'category_associations', None)] ([schemas.py],
    line 65) before it builds the names; the default of [getattr] stands
    in for [AttributeError] only, so the exception leaves the validator
    and, in [create_cafe] and [update_cafe], the [try] block, whose
    handler is for [IntegrityError]. *)
Definition from_orm_unloaded (c : Cafe) : Session CafeResponse :=
  do _category_associations <- lazy_load (A := list CafeCategory);
  query (λ s, from_orm s c).

(** [[f(x) for x in xs]] *)
Fixpoint comprehension {A B} (f : A → Session B) (xs : list A) : Session (list B) :=
  match xs with
  | [] => ret []
  | x :: xs' =>
      do y <- f x;
      do ys <- comprehension f xs';
      ret (y :: ys)
  end.

(** ** Listing cafés ([get_cafes]) *)

(** Truth value of an optional string or list in an [if]. *)
Definition truthy (o : option string) : bool :=
  match o with
  | Some s => negb (bool_decide (s = ""))
  | None => false
  end.

Definition truthy_list (o : option (list string)) : bool :=
  match o with
  | Some l => negb (bool_decide (l = []))
  | None => false
  end.

Definition lower (c : ascii) : ascii :=
  let n := N_of_ascii c in
  if ((65 <=? n) && (n <=? 90))%N then ascii_of_N (n + 32) else c.

(** [x LIKE p], letters compared without regard to case: [%] in the
    pattern stands for any run of characters and [_] for any one
    character; there is no escape character. *)
Fixpoint like (p : string) : string → bool :=
  match p with
  | EmptyString => λ x, bool_decide (x = "")
  | String c p' =>
      if Ascii.eqb c "%" then
        fix star (x : string) : bool :=
          like p' x || match x with
                       | EmptyString => false
                       | String _ x' => star x'
                       end
      else if Ascii.eqb c "_" then
        λ x, match x with
             | EmptyString => false
             | String _ x' => like p' x'
             end
      else
        λ x, match x with
             | EmptyString => false
             | String d x' => Ascii.eqb (lower c) (lower d) && like p' x'
             end
  end.

(** [column.ilike(pattern)] *)
Definition ilike (x pattern : string) : bool := like pattern x.

(** [attribute is constant]: Python's identity test, evaluated once while
    the query is built.  The mapped attribute [CafeCategory.is_best] is a
    column object, not the object [True] or [False], so the test yields
    [False] whatever the rows hold; [filter] renders that criterion as the
    SQL constant false. *)
Definition is_ (attribute : CafeCategory → bool) (constant : bool) : bool := false.

(** [query.join(CafeCategory).join(Category)] *)
Definition join_categories (s : Store) (cs : list Cafe)
  : list (Cafe * CafeCategory * Category) :=
  c ← cs;
  a ← filter (λ a, assoc_cafe_id a = cafe_id c) (cafe_categories s);
  k ← filter (λ k, category_id k = assoc_category_id a) (categories s);
  [(c, a, k)].

Definition cafes_query (city_arg best_arg : option string)
    (also_arg : option (list string)) (s : Store) : list Cafe :=
  let q :=
    if truthy city_arg
    then filter (λ c, ilike (city c) ("%" ++ default "" city_arg ++ "%") = true) (cafes s)
    else cafes s in
  let selected :=
    if truthy best_arg || truthy_list also_arg then
      let j := join_categories s q in
      let j :=
        if truthy best_arg
        then filter (λ r, (bool_decide (category_name r.2 = default "" best_arg)
                           && is_ is_best true) = true) j
        else j in
      let j :=
        if truthy_list also_arg
        then filter (λ r, (bool_decide (category_name r.2 ∈ default [] also_arg)
                           && is_ is_best false) = true) j
        else j in
      (λ r, r.1.1) <$> j
    else q in
  remove_dups selected.

Definition filter_category_names (best_arg : option string)
    (also_arg : option (list string)) : gset string :=
  (if truthy best_arg then {[ default "" best_arg ]} else ∅)
  ∪ (if truthy_list also_arg then list_to_set (default [] also_arg) else ∅).

(** [', '.join(names)] *)
Fixpoint join (sep : string) (names : list string) : string :=
  match names with
  | [] => ""
  | [x] => x
  | x :: rest => x ++ sep ++ join sep rest
  end.

Definition get_cafes (city_arg best_arg : option string)
    (also_arg : option (list string)) : Session (list CafeResponse) :=
  let category_names := filter_category_names best_arg also_arg in
  (if bool_decide (category_names ≠ ∅) then
     do found <- query (λ s, category_name <$>
                         filter (λ k, category_name k ∈ category_names) (categories s));
     let missing := category_names ∖ list_to_set found in
     if bool_decide (missing ≠ ∅)
     then raise (HTTPException 400
                   ("Categories do not exist: " ++ join ", " (elements missing)))
     else ret tt
   else ret tt) ;;
  query (λ s, from_orm s <$> cafes_query city_arg best_arg also_arg s).

(** ** Writing cafés ([create_cafe], [update_cafe], [delete_cafe]) *)

(** [{cat.name: cat for cat in rows}]: a later row replaces an earlier
    one of the same name. *)
Definition by_name (rows : list Category) : gmap string Category :=
  foldl (λ m k, <[category_name k := k]> m) ∅ rows.

(** [valid_categories[name]] *)
Definition getitem (valid_categories : gmap string Category) (name : string)
  : Session Category :=
  match valid_categories !! name with
  | Some k => ret k
  | None => raise KeyError
  end.

Definition does_not_exist (name : string) : exn :=
  HTTPException 400 ("Category " ++ name ++ " does not exist").

Definition already_exists : exn :=
  HTTPException 400 "Cafe with this title and city already exists".

Definition not_found : exn := HTTPException 404 "Cafe not found".

(** The name checks shared by [create_cafe] and [update_cafe]. *)
Definition check_names (valid_categories : gmap string Category)
    (cafe : CafeCreate) : Session unit :=
  (if bool_decide (valid_categories !! new_best_for cafe = None)
   then raise (does_not_exist (new_best_for cafe)) else ret tt) ;;
  for_each (new_also_good_for cafe) (λ cat_name,
    if bool_decide (valid_categories !! cat_name = None)
    then raise (does_not_exist cat_name) else ret tt).

(** The association rows written by [create_cafe] and [update_cafe]. *)
Definition add_associations (valid_categories : gmap string Category)
    (cid : Z) (cafe : CafeCreate) : Session unit :=
  do best <- getitem valid_categories (new_best_for cafe);
  insert_cafe_category cid (category_id best) true ;;
  for_each (new_also_good_for cafe) (λ cat_name,
    do k <- getitem valid_categories cat_name;
    insert_cafe_category cid (category_id k) false).

Definition request_names (cafe : CafeCreate) : gset string :=
  {[ new_best_for cafe ]} ∪ list_to_set (new_also_good_for cafe).

Definition create_cafe (cafe : CafeCreate) : Session CafeResponse :=
  let category_names := request_names cafe in
  do result <- select_categories_in category_names;
  let valid_categories := by_name result in
  check_names valid_categories cafe ;;
  try_except_IntegrityError
    (do db_cafe <- insert_cafe (new_title cafe) (new_city cafe)
                               (new_description cafe) (new_image_url cafe);
     add_associations valid_categories (cafe_id db_cafe) cafe ;;
     commit ;;
     from_orm_unloaded db_cafe)
    (rollback ;; raise already_exists).

(** The assignments to [db_cafe] are sent as an UPDATE by the autoflush
    that precedes the DELETE, inside the [try] block.  [db_cafe] comes
    from a plain [select(Cafe)]. *)
Definition update_cafe (cid : Z) (cafe : CafeCreate) : Session CafeResponse :=
  do found <- select_cafe_by_id cid;
  match found with
  | None => raise not_found
  | Some db_cafe =>
      let category_names := request_names cafe in
      do result <- select_categories_in category_names;
      let valid_categories := by_name result in
      check_names valid_categories cafe ;;
      try_except_IntegrityError
        (update_cafe_row (cafe_id db_cafe) (new_title cafe) (new_city cafe)
                         (new_description cafe) (new_image_url cafe) ;;
         delete_cafe_categories (cafe_id db_cafe) ;;
         add_associations valid_categories (cafe_id db_cafe) cafe ;;
         commit ;;
         from_orm_unloaded
           (mkCafe (cafe_id db_cafe) (new_title cafe) (new_city cafe)
                   (new_description cafe) (new_image_url cafe)))
        (rollback ;; raise already_exists)
  end.

Definition delete_cafe (cid : Z) : Session string :=
  do found <- select_cafe_by_id cid;
  match found with
  | None => raise not_found
  | Some db_cafe =>
      delete_cafe_categories (cafe_id db_cafe) ;;
      delete_cafe_row (cafe_id db_cafe) ;;
      commit ;;
      ret "Cafe deleted"
  end.

(** [get_categories] *)
Definition get_categories : Session (list (Z * string)) :=
  query (λ s, (λ k, (category_id k, category_name k)) <$> categories s).

(** ** Recommendations ([recommend_similar_cafes]) *)

Definition str_of_int (z : Z) : string := NilZero.string_of_int (Z.to_int z).

(** [Category.__repr__] *)
Definition Category_repr (k : Category) : string :=
  "<Category(id=" ++ str_of_int (category_id k) ++ ", name='" ++ category_name k ++ "')>".

(** [f"{obj}"] of what [Cafe.best_for] returns, a [Category] or [None]:
    the object has no [__str__] or [__format__] of its own, so its repr is
    what is printed. *)
Definition format_object (o : option Category) : string :=
  match o with
  | Some k => Category_repr k
  | None => "None"
  end.

(** [' '.join(items)] where the items are what [Cafe.also_good_for]
    returns, [Category] objects: [str.join] accepts strings only and
    raises [TypeError] at the first item. *)
Definition join_objects (sep : string) (items : list (option Category))
  : exn + string :=
  match items with
  | [] => inr ""
  | _ :: _ => inl TypeError
  end.

(** [f"{cafe.description} {cafe.best_for} {' '.join(cafe.also_good_for)}"],
    given the association rows of the café. *)
Definition document (s : Store) (cafe : Cafe) : exn + string :=
  match join_objects " " (also_good_for s cafe) with
  | inl e => inl e
  | inr joined =>
      inr (description cafe ++ " " ++ format_object (best_for s cafe) ++ " " ++ joined)
  end.

Definition lift {A} (r : exn + A) : Session A :=
  match r with
  | inl e => raise e
  | inr a => ret a
  end.

(** The same f-string on a café that comes from the plain [select(Cafe)]
    of [recommend_similar_cafes]: [cafe.best_for] starts by reading
    [self.category_associations] ([models.py], line 29). *)
Definition document_unloaded (cafe : Cafe) : Session string :=
  do _category_associations <- lazy_load (A := list CafeCategory);
  bind (query (λ s, document s cafe)) lift.

(** [xs.index(x)] *)
Definition index (xs : list Z) (x : Z) : Session nat :=
  match list_find (λ y, y = x) xs with
  | Some (i, _) => ret i
  | None => raise ValueError
  end.

(** [xs[i]] *)
Definition item {A} (xs : list A) (i : nat) : Session A :=
  match xs !! i with
  | Some x => ret x
  | None => raise IndexError
  end.

Fixpoint items {A} (xs : list A) (idxs : list nat) : Session (list A) :=
  match idxs with
  | [] => ret []
  | i :: idxs' =>
      do x <- item xs i;
      do rest <- items xs idxs';
      ret (x :: rest)
  end.

(** [order[::-1][1:4]] *)
Definition top_after_first (order : list nat) : list nat :=
  take 3 (drop 1 (reverse order)).

Section Recommender.

(** [cosine_tfidf texts i j] is the entry [i, j] of
    [cosine_similarity(TfidfVectorizer().fit_transform(texts))]. *)
Variable cosine_tfidf : list string → nat → nat → Q.

(** [np.argsort] *)
Variable argsort : list Q → list nat.

Definition similarity_row (texts : list string) (i : nat) : list Q :=
  cosine_tfidf texts i <$> seq 0 (length texts).

Definition recommend_similar_cafes (cid : Z) : Session (list CafeResponse) :=
  do target_cafe <- select_cafe_by_id cid;
  match target_cafe with
  | None => raise not_found
  | Some _ =>
      do all <- query cafes;
      if bool_decide (length all ≤ 1)%nat then ret []
      else
        do texts <- comprehension document_unloaded all;
        do cafe_idx <- index (cafe_id <$> all) cid;
        let similar_indices :=
          top_after_first (argsort (similarity_row texts cafe_idx)) in
        do picked <- items all similar_indices;
        comprehension from_orm_unloaded picked
  end.

End Recommender.

(** Insertion into a list of indices ordered by score: [i] goes before
    the first index whose score is not smaller. *)
Fixpoint insert_index (score : nat → Q) (i : nat) (sorted : list nat) : list nat :=
  match sorted with
  | [] => [i]
  | j :: rest =>
      if Qle_bool (score i) (score j) then i :: j :: rest
      else j :: insert_index score i rest
  end.

(** An [argsort] for the examples: insertion sort, which keeps indices of
    equal scores in increasing order. *)
Definition stable_argsort (row : list Q) : list nat :=
  foldr (insert_index (λ i, nth i row 0%Q)) [] (seq 0 (length row)).

(** ** The operations of the service *)

Inductive operation :=
| GetCafes (city_arg best_arg : option string) (also_arg : option (list string))
| CreateCafe (cafe : CafeCreate)
| UpdateCafe (cid : Z) (cafe : CafeCreate)
| DeleteCafe (cid : Z)
| GetRecommendations (cid : Z)
| GetCategories.

Inductive response :=
| RCafes (l : list CafeResponse)
| RCafe (c : CafeResponse)
| RMessage (m : string)
| RCategories (l : list (Z * string)).

Definition fmap_session {A B} (f : A → B) (m : Session A) : Session B :=
  do a <- m; ret (f a).

Definition handler (cosine_tfidf : list string → nat → nat → Q)
    (argsort : list Q → list nat) (op : operation) : Session response :=
  match op with
  | GetCafes c b a => fmap_session RCafes (get_cafes c b a)
  | CreateCafe cafe => fmap_session RCafe (create_cafe cafe)
  | UpdateCafe cid cafe => fmap_session RCafe (update_cafe cid cafe)
  | DeleteCafe cid => fmap_session RMessage (delete_cafe cid)
  | GetRecommendations cid =>
      fmap_session RCafes (recommend_similar_cafes cosine_tfidf argsort cid)
  | GetCategories => fmap_session RCategories get_categories
  end.

(** The id of the café a create or an update request writes. *)
Definition written_id (op : operation) (s : Store) : option Z :=
  match op with
  | CreateCafe _ => Some (next_id (cafe_id <$> cafes s))
  | UpdateCafe cid _ => Some cid
  | _ => None
  end.

(** ** Sample data *)

Definition wifi := mkCategory 1 "wifi".
Definition quiet := mkCategory 2 "quiet".

Definition paris_store : Store :=
  mkStore [wifi; quiet]
          [mkCafe 1 "A" "Paris" "calm place" None]
          [mkCafeCategory 1 1 1 true; mkCafeCategory 2 1 2 false].

(** A similarity for the examples: 1 between equal documents, 0 otherwise. *)
Definition sample_cosine (texts : list string) (i j : nat) : Q :=
  if bool_decide (texts !! i = texts !! j) then 1%Q else 0%Q.

(** ** Vocabulary of the properties *)

(** A computation that leaves the session as it found it. *)
Definition read_only {A} (m : Session A) : Prop := ∀ db, (m db).2 = db.

(** The names among [names], in order, that no row of the Category Store
    carries. *)
Definition missing_names (s : Store) (names : list string) : list string :=
  filter (λ n, n ∉ category_name <$> categories s) names.

(** The names a create or update request refers to, best first. *)
Definition names_of (cafe : CafeCreate) : list string :=
  new_best_for cafe :: new_also_good_for cafe.

(** [needle in hay] *)
Fixpoint contains (needle hay : string) : bool :=
  String.prefix needle hay
  || match hay with
     | EmptyString => false
     | String _ hay' => contains needle hay'
     end.

(** What an association row says, apart from its own id. *)
Definition assoc_data (a : CafeCategory) : Z * Z * bool :=
  (assoc_cafe_id a, assoc_category_id a, is_best a).

(** The store with [rows] appended to the association table. *)
Definition with_associations (s : Store) (rows : list CafeCategory) : Store :=
  mkStore (categories s) (cafes s) (cafe_categories s ++ rows).

(** The café row [create_cafe] inserts. *)
Definition new_cafe_row (s : Store) (cafe : CafeCreate) : Cafe :=
  mkCafe (next_id (cafe_id <$> cafes s)) (new_title cafe) (new_city cafe)
         (new_description cafe) (new_image_url cafe).

(** The café row [update_cafe] leaves under the id [cid]. *)
Definition updated_cafe_row (cid : Z) (cafe : CafeCreate) : Cafe :=
  mkCafe cid (new_title cafe) (new_city cafe)
         (new_description cafe) (new_image_url cafe).

(** [kb] and [ks] are what the names of a request resolve to in the
    dictionary [create_cafe] and [update_cafe] build from the Category
    Store: [kb] for [best_for], [ks] for [also_good_for] in order. *)
Definition resolved (s : Store) (cafe : CafeCreate) (kb : Category)
    (ks : list Category) : Prop :=
  let valid_categories :=
    by_name (filter (λ k, category_name k ∈ request_names cafe) (categories s)) in
  valid_categories !! new_best_for cafe = Some kb
  ∧ Forall2 (λ n k, valid_categories !! n = Some k) (new_also_good_for cafe) ks.

(** The association rows a write leaves for café [cid]: the best category
    first, then the additional ones in request order. *)
Definition written_rows (cid : Z) (kb : Category) (ks : list Category)
    (rows : list CafeCategory) : Prop :=
  assoc_data <$> rows
  = (cid, category_id kb, true) :: ((λ k, (cid, category_id k, false)) <$> ks).

(** The café table after the UPDATE of row [cid]. *)
Definition set_cafe (cid : Z) (cafe : CafeCreate) (cs : list Cafe) : list Cafe :=
  (λ r, if bool_decide (cafe_id r = cid) then updated_cafe_row cid cafe else r) <$> cs.

(** The store [update_cafe] works on once the old association rows of
    café [cid] are deleted. *)
Definition cleared (cid : Z) (cafe : CafeCreate) (s : Store) : Store :=
  mkStore (categories s) (set_cafe cid cafe (cafes s))
          (filter (λ a, assoc_cafe_id a ≠ cid) (cafe_categories s)).

(** Café [cid] has exactly one association row flagged best. *)
Definition one_best (s : Store) (cid : Z) : Prop :=
  length (filter (λ a, is_best a = true)
            (filter (λ a, assoc_cafe_id a = cid) (cafe_categories s))) = 1%nat.

(** No row of café [cid] that is not flagged best carries the category
    of a row that is. *)
Definition best_not_repeated (s : Store) (cid : Z) : Prop :=
  ∀ a b, a ∈ cafe_categories s → b ∈ cafe_categories s →
    assoc_cafe_id a = cid → assoc_cafe_id b = cid →
    is_best a = true → is_best b = false →
    assoc_category_id a ≠ assoc_category_id b.

(** The association invariant of the store: no two association rows for
    the same café and category, every association row belongs to a café
    of the store, and every café has exactly one row flagged best. *)
Record store_invariant (s : Store) : Prop := mkInvariant {
  inv_unique : NoDup (assoc_key <$> cafe_categories s);
  inv_foreign : ∀ a, a ∈ cafe_categories s → assoc_cafe_id a ∈ cafe_id <$> cafes s;
  inv_one_best : ∀ cid, cid ∈ cafe_id <$> cafes s → one_best s cid
}.

(** Requests used in the examples. *)
Definition wifi_twice : CafeCreate :=
  mkCafeCreate "B" "Paris" "d" None "wifi" ["wifi"].

Definition clash_unknown : CafeCreate :=
  mkCafeCreate "A" "Paris" "d" None "nope" [].

Definition two_unknown : CafeCreate :=
  mkCafeCreate "B" "Paris" "d" None "zz" ["qq"].

Definition quiet_then_wifi : CafeCreate :=
  mkCafeCreate "B" "Paris" "d" None "quiet" ["wifi"].

(** Café [c] has an association row with the category named [name] whose
    flag is [best]. *)
Definition has_association (s : Store) (c : Cafe) (name : string) (best : bool)
  : Prop :=
  ∃ a k, a ∈ cafe_categories s ∧ assoc_cafe_id a = cafe_id c
         ∧ k ∈ categories s ∧ category_id k = assoc_category_id a
         ∧ category_name k = name ∧ is_best a = best.

Fixpoint lower_string (x : string) : string :=
  match x with
  | EmptyString => EmptyString
  | String c x' => String (lower c) (lower_string x')
  end.

(** [hay] contains [needle] when letter case is ignored. *)
Definition contains_ignoring_case (needle hay : string) : bool :=
  contains (lower_string needle) (lower_string hay).

(** The text has one of the two characters [LIKE] reads as a wildcard. *)
Fixpoint has_wildcard (p : string) : bool :=
  match p with
  | EmptyString => false
  | String c p' => Ascii.eqb c "%" || Ascii.eqb c "_" || has_wildcard p'
  end.

(** The document of a café as the specification words it: the
    description, the name of the best category and the names of the
    additional categories. *)
Definition document_by_names (s : Store) (cafe : Cafe) : string :=
  description cafe ++ " "
  ++ default "" (resp_best_for (from_orm s cafe)) ++ " "
  ++ join " " (resp_also_good_for (from_orm s cafe)).

Definition cafe_A : Cafe := mkCafe 1 "A" "Paris" "calm place" None.
Definition cafe_B : Cafe := mkCafe 2 "B" "Lyon" "calm place" None.

(** Café A with its best category only. *)
Definition wifi_only_store : Store :=
  mkStore [wifi; quiet] [cafe_A] [mkCafeCategory 1 1 1 true].

(** Two cafés with the same description and the same best category. *)
Definition twins_store : Store :=
  mkStore [wifi; quiet] [cafe_A; cafe_B]
          [mkCafeCategory 1 1 1 true; mkCafeCategory 2 2 1 true].


(** The key constraints of the café table: the primary key and
    [uq_cafe_title_city]. *)
Definition cafe_keys_unique (s : Store) : Prop :=
  NoDup (cafe_id <$> cafes s) ∧ NoDup (cafe_key <$> cafes s).

(** ** The response validator ([schemas.py]) *)

(** What [transform_category_objects_to_names] reads from one association
    object: the attribute [is_best] when the object has it, and
    [category.name] when [category] is there, is not [None] and has a
    name. *)
Record AssocView := mkAssocView {
  view_is_best : option bool;
  view_category_name : option string
}.

(** What the validator reads from its input besides the plain fields:
    whether the input is a dict, the string under [best_for] if there is
    one, the name of [best_for_category] if there is one, and the
    associations if they are there. *)
Record RawCafe := mkRawCafe {
  raw_is_dict : bool;
  raw_best_for : option string;
  raw_best_for_category : option string;
  raw_category_associations : option (list AssocView)
}.

(** The loop that looks for the best category, with its [break]. *)
Fixpoint found_best_for_name (assocs : list AssocView) : option string :=
  match assocs with
  | [] => None
  | assoc :: rest =>
      match view_category_name assoc with
      | Some name =>
          if default false (view_is_best assoc) then Some name
          else found_best_for_name rest
      | None => found_best_for_name rest
      end
  end.

(** The loop that collects the additional names. *)
Fixpoint also_good_for_names (assocs : list AssocView) : list string :=
  match assocs with
  | [] => []
  | assoc :: rest =>
      match view_category_name assoc with
      | Some name =>
          if negb (default true (view_is_best assoc))
          then name :: also_good_for_names rest
          else also_good_for_names rest
      | None => also_good_for_names rest
      end
  end.

(** [transform_category_objects_to_names]: the values it stores under
    [best_for] and [also_good_for].  For an input that is not a dict the
    processed data has no [best_for] key, whatever attributes the object
    has. *)
Definition transform_category_objects_to_names (data : RawCafe)
  : option string * list string :=
  let best :=
    match (if raw_is_dict data then raw_best_for data else None) with
    | Some name => Some name
    | None =>
        match raw_best_for_category data with
        | Some name => Some name
        | None =>
            match raw_category_associations data with
            | Some assocs => found_best_for_name assocs
            | None => None
            end
        end
    end in
  let also :=
    match raw_category_associations data with
    | Some assocs => also_good_for_names assocs
    | None => []
    end in
  (best, also).

(** What the validator reads from a [Cafe] loaded from the store: no
    [best_for_category] attribute, and its association rows. *)
Definition orm_view (s : Store) (c : Cafe) : RawCafe :=
  mkRawCafe false None None
    (Some ((λ a, mkAssocView (Some (is_best a)) (category_name <$> category s a))
             <$> category_associations s c)).

(** ** Seeding the database ([scripts/seed_db.py]) *)

(** [session.add(Category(name=...))]: the column [name] is unique. *)
Definition insert_category (name : string) : Session unit :=
  λ db,
    let s := pending db in
    if bool_decide (name ∈ category_name <$> categories s)
    then (inl IntegrityError, db)
    else
      let row := mkCategory (next_id (category_id <$> categories s)) name in
      (inr tt, mkDb (committed db)
                    (mkStore (categories s ++ [row]) (cafes s) (cafe_categories s))).

(** [select(Cafe).filter_by(title=t, city=c)] followed by [.scalars().first()] *)
Definition select_cafe_by_title_city (t c : string) : Session (option Cafe) :=
  query (λ s, head (filter (λ r, cafe_key r = (t, c)) (cafes s))).

(** The UPDATE that follows the assignments to [existing_cafe]: the
    description and the image are assigned when they differ. *)
Definition set_cafe_details (cid : Z) (d : string) (img : option string)
  : Session unit :=
  λ db,
    let s := pending db in
    (inr tt,
     mkDb (committed db)
          (mkStore (categories s)
                   ((λ r, if bool_decide (cafe_id r = cid)
                          then mkCafe (cafe_id r) (title r) (city r)
                                 (if bool_decide (description r ≠ d)
                                  then d else description r)
                                 (if bool_decide (image_url r ≠ img)
                                  then img else image_url r)
                          else r) <$> cafes s)
                   (cafe_categories s))).

(** [select(CafeCategory).filter_by(cafe_id=cid)] *)
Definition select_cafe_categories (cid : Z) : Session (list CafeCategory) :=
  query (λ s, filter (λ a, assoc_cafe_id a = cid) (cafe_categories s)).

(** The UPDATE that follows [assoc.is_best = b], by primary key. *)
Definition set_is_best (aid : Z) (b : bool) : Session unit :=
  λ db,
    let s := pending db in
    (inr tt,
     mkDb (committed db)
          (mkStore (categories s) (cafes s)
                   ((λ a, if bool_decide (assoc_id a = aid)
                          then mkCafeCategory (assoc_id a) (assoc_cafe_id a)
                                 (assoc_category_id a) b
                          else a) <$> cafe_categories s))).

(** [await session.delete(assoc)], by primary key. *)
Definition delete_cafe_category (aid : Z) : Session unit :=
  λ db,
    let s := pending db in
    (inr tt,
     mkDb (committed db)
          (mkStore (categories s) (cafes s)
                   (filter (λ a, assoc_id a ≠ aid) (cafe_categories s)))).

(** A coroutine function that is called and not awaited: the call
    builds a coroutine object and the body never runs. *)
Definition unawaited {A} (coroutine : Session A) : Session unit := ret tt.

(** [{c.name: c.id for c in rows}] *)
Definition name_ids (rows : list Category) : gmap string Z :=
  foldl (λ m k, <[category_name k := category_id k]> m) ∅ rows.

(** [{assoc.category_id: assoc for assoc in rows}] *)
Definition by_category_id (rows : list CafeCategory) : gmap Z CafeCategory :=
  foldl (λ m a, <[assoc_category_id a := a]> m) ∅ rows.

(** [d[key]] *)
Definition subscript {K V} `{Countable K} (d : gmap K V) (key : K) : Session V :=
  match d !! key with
  | Some v => ret v
  | None => raise KeyError
  end.

(** [[d[key] for key in keys]] *)
Fixpoint subscripts {K V} `{Countable K} (d : gmap K V) (keys : list K)
  : Session (list V) :=
  match keys with
  | [] => ret []
  | key :: keys' =>
      do v <- subscript d key;
      do vs <- subscripts d keys';
      ret (v :: vs)
  end.

Section Seeding.

(** The order in which a [for] loop or a comprehension runs through a set
    of names or of ids. *)
Variable iter_names : gset string → list string.
Variable iter_ids : gset Z → list Z.

(** [app.data.data]: the names of [categories_data], and [cafes_data],
    whose entries have the keys of a [CafeCreate]. *)
Variable categories_data : list string.
Variable cafes_data : list CafeCreate.

(** The body of the loop over [cafes_data]; [ret tt] where the source has
    [continue].  In the last loop [session.delete(...)] is called without
    [await] ([AsyncSession.delete] is a coroutine function; [main.py]
    awaits it). *)
Definition seed_cafe (categories : gmap string Z) (cafe_data : CafeCreate)
  : Session unit :=
  if bool_decide (255 < String.length (new_title cafe_data))%nat then ret tt
  else if bool_decide (100 < String.length (new_city cafe_data))%nat then ret tt
  else if truthy (new_image_url cafe_data)
          && bool_decide (500 < String.length (default "" (new_image_url cafe_data)))%nat
  then ret tt
  else if bool_decide (categories !! new_best_for cafe_data = None) then ret tt
  else if bool_decide (filter (λ cat, categories !! cat = None)
                              (new_also_good_for cafe_data) ≠ [])
  then ret tt
  else if bool_decide (new_best_for cafe_data ∈ new_also_good_for cafe_data)
  then ret tt
  else
    let unique_categories : gset string :=
      {[ new_best_for cafe_data ]} ∪ list_to_set (new_also_good_for cafe_data) in
    do ids <- subscripts categories (iter_names unique_categories);
    let desired_category_ids : gset Z := list_to_set ids in
    do best_for_id <- subscript categories (new_best_for cafe_data);
    do existing_cafe <- select_cafe_by_title_city (new_title cafe_data)
                                                  (new_city cafe_data);
    match existing_cafe with
    | Some row =>
        set_cafe_details (cafe_id row) (new_description cafe_data)
                         (new_image_url cafe_data) ;;
        do result <- select_cafe_categories (cafe_id row);
        let existing_assocs := by_category_id result in
        let current_assoc_ids : gset Z := dom existing_assocs in
        for_each (iter_ids desired_category_ids) (λ cat_id,
          let best := bool_decide (cat_id = best_for_id) in
          match existing_assocs !! cat_id with
          | Some assoc =>
              if bool_decide (is_best assoc ≠ best)
              then set_is_best (assoc_id assoc) best
              else ret tt
          | None => insert_cafe_category (cafe_id row) cat_id best
          end) ;;
        for_each (iter_ids (current_assoc_ids ∖ desired_category_ids)) (λ cat_id,
          do assoc <- subscript existing_assocs cat_id;
          unawaited (delete_cafe_category (assoc_id assoc)))
    | None =>
        do cafe <- insert_cafe (new_title cafe_data) (new_city cafe_data)
                               (new_description cafe_data) (new_image_url cafe_data);
        for_each (iter_names unique_categories) (λ cat_name,
          do kid <- subscript categories cat_name;
          insert_cafe_category (cafe_id cafe) kid
            (bool_decide (cat_name = new_best_for cafe_data)))
    end.

(** [seed_database]; what it prints is left out. *)
Definition seed_database : Session unit :=
  try_except_IntegrityError
    (do existing_categories <- query (λ s, category_name <$> categories s);
     for_each categories_data (λ name,
       if bool_decide (name ∈ existing_categories) then ret tt
       else insert_category name) ;;
     commit ;;
     do categories <- query (λ s, name_ids (categories s));
     for_each cafes_data (seed_cafe categories) ;;
     commit)
    rollback.

End Seeding.

Definition sample_cafes_data : list CafeCreate :=
  [ mkCafeCreate "A" "Paris" "calmer place" None "quiet" ["books"];
    wifi_twice;
    mkCafeCreate "C" "Nice" "loud bar" (Some "c.png") "wifi" ["quiet"; "books"] ].

(** A computation whose only exception is [IntegrityError]. *)
Definition raises_only_IntegrityError {A} (m : Session A) : Prop :=
  ∀ db e db', m db = (inl e, db') → e = IntegrityError.

(** A computation that leaves what is committed and the category table of
    the transaction alone. *)
Definition keeps_categories {A} (m : Session A) : Prop :=
  ∀ db r db', m db = (r, db') →
    committed db' = committed db
    ∧ categories (pending db') = categories (pending db).

(** An entry of [cafes_data] that [seed_database] skips whatever the
    store holds: a title, city or image too long for its column, or the
    best category repeated among the additional ones. *)
Definition rejected (e : CafeCreate) : Prop :=
  (255 < String.length (new_title e))%nat
  ∨ (100 < String.length (new_city e))%nat
  ∨ (truthy (new_image_url e) = true
     ∧ (500 < String.length (default "" (new_image_url e)))%nat)
  ∨ new_best_for e ∈ new_also_good_for e.

#[global] Instance rejected_dec e : Decision (rejected e).
Proof. unfold rejected. apply _. Defined.

(** The names of [categories_data] that the Category Store lacks. *)
Definition new_names (s : Store) (categories_data : list string) : list string :=
  filter (λ n, n ∉ category_name <$> categories s) categories_data.

(** An association row with its flag replaced. *)
Definition with_flag (a : CafeCategory) (b : bool) : CafeCategory :=
  mkCafeCategory (assoc_id a) (assoc_cafe_id a) (assoc_category_id a) b.

(** A row of café [cid] whose category is in [X] gets the flag the
    seeding wants: best exactly for the category [best_id]. *)
Definition reflag (cid best_id : Z) (X : gset Z) (a : CafeCategory) : CafeCategory :=
  if bool_decide (assoc_cafe_id a = cid ∧ assoc_category_id a ∈ X)
  then with_flag a (bool_decide (assoc_category_id a = best_id))
  else a.

(** A row other than the rows of café [cid] for a category of [Y]. *)
Definition kept (cid : Z) (Y : gset Z) (a : CafeCategory) : Prop :=
  ¬ (assoc_cafe_id a = cid ∧ assoc_category_id a ∈ Y).

(** The rows the seeding adds for an existing café [cid] while it runs
    through the categories [X]: one for every category of [X] that the
    café had no row for, flagged like the others, under ids the table
    [old] did not use. *)
Definition added_rows (cid best_id : Z) (old : list CafeCategory)
    (X : gset Z) (N : list CafeCategory) : Prop :=
  (∀ r, r ∈ N →
     assoc_cafe_id r = cid ∧ assoc_category_id r ∈ X
     ∧ (∀ x, x ∈ old → assoc_cafe_id x = cid →
             assoc_category_id x ≠ assoc_category_id r)
     ∧ is_best r = bool_decide (assoc_category_id r = best_id)
     ∧ assoc_id r ∉ assoc_id <$> old)
  ∧ NoDup (assoc_category_id <$> N)
  ∧ NoDup (assoc_id <$> N)
  ∧ (∀ cat, cat ∈ X →
       (∀ x, x ∈ old → assoc_cafe_id x = cid → assoc_category_id x ≠ cat) →
       cat ∈ assoc_category_id <$> N).

(** The store with its association table replaced. *)
Definition with_table (s : Store) (T : list CafeCategory) : Store :=
  mkStore (categories s) (cafes s) T.

#[global] Instance kept_dec cid Y a : Decision (kept cid Y a).
Proof. unfold kept. apply _. Defined.

(** The association table [new] holds, for café [cid], one row per
    category of [D], flagged best exactly for [best_id]; every other row,
    of another café or of this café for a category outside [D], is as in
    [old]; and the keys of the table are unique. *)
Definition reconciled (cid best_id : Z) (D : gset Z)
    (old new : list CafeCategory) : Prop :=
  filter (kept cid D) new = filter (kept cid D) old
  ∧ (∀ a, a ∈ new → assoc_cafe_id a = cid → assoc_category_id a ∈ D →
       is_best a = bool_decide (assoc_category_id a = best_id))
  ∧ (∀ cat, cat ∈ D →
       cat ∈ assoc_category_id <$> filter (λ a, assoc_cafe_id a = cid) new)
  ∧ NoDup (assoc_key <$> new)
  ∧ NoDup (assoc_id <$> new).

(** Café [cid] has a row flagged best. *)
Definition has_best (s : Store) (cid : Z) : Prop :=
  ∃ a, a ∈ cafe_categories s ∧ assoc_cafe_id a = cid ∧ is_best a = true.

(** What the seeding keeps: the constraint [uq_cafe_category], the
    foreign key to the café table, a row flagged best for every café,
    and the primary keys of the association and category tables. *)
Definition seed_invariant (s : Store) : Prop :=
  NoDup (assoc_key <$> cafe_categories s)
  ∧ (∀ a, a ∈ cafe_categories s → assoc_cafe_id a ∈ cafe_id <$> cafes s)
  ∧ (∀ cid, cid ∈ cafe_id <$> cafes s → has_best s cid)
  ∧ NoDup (assoc_id <$> cafe_categories s)
  ∧ NoDup (category_id <$> categories s).

(** The id under which the seeding writes an entry: that of the first
    café with the entry's title and city, or a fresh one. *)
Definition seeded_id (s : Store) (e : CafeCreate) : Z :=
  match head (filter (λ r, cafe_key r = (new_title e, new_city e)) (cafes s)) with
  | Some row => cafe_id row
  | None => next_id (cafe_id <$> cafes s)
  end.

(** The category ids the names of an entry stand for in the dictionary
    [categories]. *)
Definition wanted_ids (categories : gmap string Z) (e : CafeCreate) : gset Z :=
  list_to_set (omap (λ n, categories !! n)
                    (new_best_for e :: new_also_good_for e)).

(** The café table [new] has the row of entry [e] under the id [cid], and
    the rows [old] had under other ids. *)
Definition cafe_written (e : CafeCreate) (cid : Z) (old new : list Cafe) : Prop :=
  filter (λ r, cafe_id r ≠ cid) new = filter (λ r, cafe_id r ≠ cid) old
  ∧ mkCafe cid (new_title e) (new_city e) (new_description e) (new_image_url e)
    ∈ new.

(** No two names of the dictionary stand for the same category id. *)
Definition one_name_per_id (categories : gmap string Z) : Prop :=
  ∀ n m i, categories !! n = Some i → categories !! m = Some i → n = m.

(** * Properties *)

(** ** The session monad *)

Lemma bind_inr {A B} (m : Session A) (k : A → Session B) db a db' :
  m db = (inr a, db') → bind m k db = k a db'.
Proof. intros H. unfold bind. by rewrite H. Qed.

Lemma bind_inl {A B} (m : Session A) (k : A → Session B) db e db' :
  m db = (inl e, db') → bind m k db = (inl e, db').
Proof. intros H. unfold bind. by rewrite H. Qed.

Lemma read_only_ret {A} (a : A) : read_only (ret a).
Proof. by intros db. Qed.

Lemma read_only_raise {A} (e : exn) : read_only (@raise A e).
Proof. by intros db. Qed.

Lemma read_only_query {A} (f : Store → A) : read_only (query f).
Proof. by intros db. Qed.

Lemma read_only_bind {A B} (m : Session A) (k : A → Session B) :
  read_only m → (∀ a, read_only (k a)) → read_only (bind m k).
Proof.
  intros Hm Hk db. unfold bind.
  specialize (Hm db). destruct (m db) as [[e|a] db']; simpl in *; subst.
  - done.
  - apply Hk.
Qed.

Lemma read_only_lift {A} (r : exn + A) : read_only (lift r).
Proof. destruct r; [apply read_only_raise | apply read_only_ret]. Qed.

Lemma read_only_item {A} (xs : list A) i : read_only (item xs i).
Proof. unfold item. destruct (xs !! i); [apply read_only_ret | apply read_only_raise]. Qed.

Lemma read_only_items {A} (xs : list A) idxs : read_only (items xs idxs).
Proof.
  induction idxs as [|i idxs IH]; simpl.
  - apply read_only_ret.
  - apply read_only_bind; [apply read_only_item|]. intros x.
    apply read_only_bind; [apply IH|]. intros rest. apply read_only_ret.
Qed.

Lemma read_only_index xs x : read_only (index xs x).
Proof.
  unfold index. destruct (list_find _ xs) as [[i y]|];
    [apply read_only_ret | apply read_only_raise].
Qed.

Lemma read_only_comprehension {A B} (f : A → Session B) (xs : list A) :
  (∀ x, read_only (f x)) → read_only (comprehension f xs).
Proof.
  intros Hf. induction xs as [|x xs IH]; simpl.
  - apply read_only_ret.
  - apply read_only_bind; [apply Hf|]. intros y.
    apply read_only_bind; [apply IH|]. intros ys. apply read_only_ret.
Qed.

Lemma read_only_document_unloaded c : read_only (document_unloaded c).
Proof.
  unfold document_unloaded, lazy_load.
  apply read_only_bind; [apply read_only_raise|]. intros _.
  apply read_only_bind; [apply read_only_query | apply read_only_lift].
Qed.

Lemma read_only_from_orm_unloaded c : read_only (from_orm_unloaded c).
Proof.
  unfold from_orm_unloaded, lazy_load.
  apply read_only_bind; [apply read_only_raise|]. intros _.
  apply read_only_query.
Qed.

Lemma read_only_run {A} (m : Session A) s : read_only m → (run m s).2 = s.
Proof.
  intros H. unfold run. specialize (H (mkDb s s)).
  destruct (m (mkDb s s)) as [r db]. simpl in *. by subst.
Qed.

Lemma read_only_get_cafes c b a : read_only (get_cafes c b a).
Proof.
  unfold get_cafes. apply read_only_bind; [|intros; apply read_only_query].
  case_bool_decide; [|apply read_only_ret].
  apply read_only_bind; [apply read_only_query|]. intros found.
  case_bool_decide; [apply read_only_raise | apply read_only_ret].
Qed.

Lemma read_only_recommend cosine argsort cid :
  read_only (recommend_similar_cafes cosine argsort cid).
Proof.
  unfold recommend_similar_cafes, select_cafe_by_id.
  apply read_only_bind; [apply read_only_query|]. intros [target|];
    [|apply read_only_raise].
  apply read_only_bind; [apply read_only_query|]. intros all.
  case_bool_decide; [apply read_only_ret|].
  apply read_only_bind.
  { apply read_only_comprehension, read_only_document_unloaded. }
  intros texts. apply read_only_bind; [apply read_only_index|]. intros idx.
  apply read_only_bind; [apply read_only_items|]. intros picked.
  apply read_only_comprehension, read_only_from_orm_unloaded.
Qed.

(** C10: listing or filtering cafés, asking for recommendations and listing
    categories leave the store exactly as it was, whatever the starting
    store and the arguments, and whether the request succeeds or raises. *)
Theorem C10_reads_leave_store_unchanged
    (cosine : list string → nat → nat → Q) (argsort : list Q → list nat)
    (s : Store) :
  (∀ c b a, (run (get_cafes c b a) s).2 = s)
  ∧ (∀ cid, (run (recommend_similar_cafes cosine argsort cid) s).2 = s)
  ∧ (run get_categories s).2 = s.
Proof.
  split; [|split].
  - intros. apply read_only_run, read_only_get_cafes.
  - intros. apply read_only_run, read_only_recommend.
  - apply read_only_run, read_only_query.
Qed.

(** ** Lists *)

Lemma filter_iff_in {A} (P Q : A → Prop)
    `{!∀ x, Decision (P x)} `{!∀ x, Decision (Q x)} (l : list A) :
  (∀ x, x ∈ l → P x ↔ Q x) → filter P l = filter Q l.
Proof.
  induction l as [|x l IH]; intros Hl; [done|].
  rewrite !filter_cons.
  assert (P x ↔ Q x) as Hx by (apply Hl; left).
  rewrite IH by (intros y Hy; apply Hl; by right).
  destruct (decide (P x)), (decide (Q x)); tauto || done.
Qed.

Lemma head_filter_Some {A} (P : A → Prop) `{!∀ x, Decision (P x)} (l : list A) x :
  head (filter P l) = Some x → P x ∧ x ∈ l.
Proof.
  intros Hx. apply head_Some_elem_of, list_elem_of_filter in Hx. done.
Qed.

Lemma filter_all {A} (P : A → Prop) `{!∀ x, Decision (P x)} (l : list A) :
  Forall P l → filter P l = l.
Proof.
  induction 1 as [|x l Hx Hl IH]; [done|].
  by rewrite filter_cons_True, IH.
Qed.

Lemma filter_none {A} (P : A → Prop) `{!∀ x, Decision (P x)} (l : list A) :
  Forall (λ x, ¬ P x) l → filter P l = [].
Proof.
  induction 1 as [|x l Hx Hl IH]; [done|].
  by rewrite filter_cons_False.
Qed.

Lemma NoDup_fmap_filter {A B} (f : A → B) (P : A → Prop)
    `{!∀ x, Decision (P x)} (l : list A) :
  NoDup (f <$> l) → NoDup (f <$> filter P l).
Proof.
  intros Hnd. eapply sublist_NoDup; [apply Hnd|].
  apply fmap_sublist, sublist_filter.
Qed.

Lemma NoDup_fmap_eq {A B} (f : A → B) (l : list A) a b :
  NoDup (f <$> l) → a ∈ l → b ∈ l → f a = f b → a = b.
Proof.
  induction l as [|x l IH]; intros Hnd Ha Hb Hab.
  - by apply elem_of_nil in Ha.
  - rewrite fmap_cons in Hnd. apply NoDup_cons in Hnd as [Hx Hnd].
    apply elem_of_cons in Ha as [->|Ha]; apply elem_of_cons in Hb as [->|Hb].
    + done.
    + exfalso. apply Hx. rewrite Hab. by apply list_elem_of_fmap_2.
    + exfalso. apply Hx. rewrite <- Hab. by apply list_elem_of_fmap_2.
    + by apply IH.
Qed.

Lemma foldr_max_ge (ids : list Z) (x : Z) : x ∈ ids → (x ≤ foldr Z.max 0 ids)%Z.
Proof.
  induction ids as [|y ids IH]; intros Hx.
  - by apply elem_of_nil in Hx.
  - simpl. apply elem_of_cons in Hx as [->|Hx]; [lia|].
    apply IH in Hx. lia.
Qed.

Lemma next_id_fresh (ids : list Z) : next_id ids ∉ ids.
Proof. intros Hin. apply foldr_max_ge in Hin. unfold next_id in Hin. lia. Qed.

(** ** Name validation *)

Lemma foldl_by_name_None rows (m : gmap string Category) n :
  foldl (λ m k, <[category_name k := k]> m) m rows !! n = None
  ↔ m !! n = None ∧ n ∉ category_name <$> rows.
Proof.
  revert m. induction rows as [|k rows IH]; intros m; simpl.
  - split; [intros H; split; [done|apply not_elem_of_nil] | by intros [H _]].
  - rewrite IH, lookup_insert_None, not_elem_of_cons.
    split; [intros [[? ?] ?] | intros [? [? ?]]]; repeat split; auto.
Qed.

Lemma by_name_None rows n :
  by_name rows !! n = None ↔ n ∉ category_name <$> rows.
Proof.
  unfold by_name. rewrite foldl_by_name_None, lookup_empty. tauto.
Qed.

Lemma foldl_by_name_Some rows (m : gmap string Category) n k :
  foldl (λ m k, <[category_name k := k]> m) m rows !! n = Some k →
  m !! n = Some k ∨ (k ∈ rows ∧ category_name k = n).
Proof.
  revert m. induction rows as [|k' rows IH]; intros m; simpl; [by left|].
  intros H. apply IH in H as [H|[H1 H2]].
  - apply lookup_insert_Some in H as [[<- <-]|[_ H]]; [|by left].
    right. split; [apply list_elem_of_here|done].
  - right. split; [by apply list_elem_of_further|done].
Qed.

Lemma by_name_Some rows n k :
  by_name rows !! n = Some k → k ∈ rows ∧ category_name k = n.
Proof.
  intros H. apply foldl_by_name_Some in H as [H|H]; [|done].
  by rewrite lookup_empty in H.
Qed.

(** What the dictionary built from the selected rows knows about a
    requested name is what the Category Store knows. *)
Lemma valid_categories_None (s : Store) (names : gset string) n :
  n ∈ names →
  by_name (filter (λ k, category_name k ∈ names) (categories s)) !! n = None
  ↔ n ∉ category_name <$> categories s.
Proof.
  intros Hn. rewrite by_name_None. apply not_iff_compat.
  rewrite !list_elem_of_fmap. split.
  - intros (k & -> & Hk). apply list_elem_of_filter in Hk as [_ Hk]. eauto.
  - intros (k & -> & Hk). exists k. split; [done|].
    apply list_elem_of_filter. done.
Qed.

Lemma for_each_check (valid : gmap string Category) names db :
  for_each names (λ cat_name,
    if bool_decide (valid !! cat_name = None)
    then raise (does_not_exist cat_name) else ret tt) db
  = match head (filter (λ n, valid !! n = None) names) with
    | Some n => (inl (does_not_exist n), db)
    | None => (inr tt, db)
    end.
Proof.
  induction names as [|n names IH]; simpl; [done|].
  unfold bind at 1. rewrite filter_cons.
  case_bool_decide as Hn.
  - rewrite decide_True by done. done.
  - rewrite decide_False by done. simpl. apply IH.
Qed.

Lemma check_names_eq (valid : gmap string Category) cafe db :
  check_names valid cafe db
  = match head (filter (λ n, valid !! n = None) (names_of cafe)) with
    | Some n => (inl (does_not_exist n), db)
    | None => (inr tt, db)
    end.
Proof.
  unfold check_names, names_of. rewrite filter_cons. unfold bind at 1.
  case_bool_decide as Hn.
  - rewrite decide_True by done. done.
  - rewrite decide_False by done. simpl. apply for_each_check.
Qed.

Lemma filter_missing_names (s : Store) (names : gset string) (l : list string) :
  (∀ n, n ∈ l → n ∈ names) →
  filter (λ n, by_name (filter (λ k, category_name k ∈ names) (categories s)) !! n = None) l
  = missing_names s l.
Proof.
  intros Hl. unfold missing_names. apply filter_iff_in.
  intros n Hn. apply valid_categories_None. auto.
Qed.

Lemma names_of_request cafe n : n ∈ names_of cafe → n ∈ request_names cafe.
Proof.
  unfold names_of, request_names. rewrite elem_of_cons, elem_of_union,
    elem_of_singleton, elem_of_list_to_set. tauto.
Qed.

Lemma check_names_store (s : Store) cafe db :
  check_names
    (by_name (filter (λ k, category_name k ∈ request_names cafe) (categories s)))
    cafe db
  = match head (missing_names s (names_of cafe)) with
    | Some n => (inl (does_not_exist n), db)
    | None => (inr tt, db)
    end.
Proof.
  rewrite check_names_eq, filter_missing_names; [done|].
  apply names_of_request.
Qed.

(** ** Writing association rows *)

Lemma with_associations_nil s : with_associations s [] = s.
Proof. destruct s. unfold with_associations. simpl. by rewrite app_nil_r. Qed.

Lemma with_associations_app s rows rows' :
  with_associations (with_associations s rows) rows'
  = with_associations s (rows ++ rows').
Proof. unfold with_associations. simpl. by rewrite app_assoc. Qed.

Lemma insert_cafe_category_inr cid kid b db db' :
  insert_cafe_category cid kid b db = (inr tt, db') →
  ∃ row, db' = mkDb (committed db) (with_associations (pending db) [row])
         ∧ assoc_data row = (cid, kid, b)
         ∧ (cid, kid) ∉ assoc_key <$> cafe_categories (pending db).
Proof.
  unfold insert_cafe_category. case_bool_decide as Hk; [done|].
  intros [= <-]. eexists. split; [reflexivity|]. done.
Qed.

Lemma insert_cafe_category_inl cid kid b db e db' :
  insert_cafe_category cid kid b db = (inl e, db') →
  e = IntegrityError ∧ db' = db
  ∧ (cid, kid) ∈ assoc_key <$> cafe_categories (pending db).
Proof.
  unfold insert_cafe_category. case_bool_decide as Hk; [|done].
  by intros [= <- <-].
Qed.

Lemma getitem_eq (valid : gmap string Category) n db :
  getitem valid n db
  = match valid !! n with
    | Some k => (inr k, db)
    | None => (inl KeyError, db)
    end.
Proof. unfold getitem. by destruct (valid !! n). Qed.

(** The rows a successful run of the loop over [also_good_for] appends. *)
Lemma add_also_inr (valid : gmap string Category) cid names db db' :
  for_each names (λ cat_name,
    do k <- getitem valid cat_name;
    insert_cafe_category cid (category_id k) false) db = (inr tt, db') →
  ∃ ks rows,
    Forall2 (λ n k, valid !! n = Some k) names ks
    ∧ db' = mkDb (committed db) (with_associations (pending db) rows)
    ∧ assoc_data <$> rows = (λ k, (cid, category_id k, false)) <$> ks
    ∧ NoDup (assoc_key <$> rows)
    ∧ (∀ r, r ∈ rows → assoc_key r ∉ assoc_key <$> cafe_categories (pending db)).
Proof.
  revert db. induction names as [|n names IH]; intros db; simpl.
  - intros [= <-]. exists [], []. rewrite with_associations_nil.
    split; [constructor|]. split; [by destruct db|]. split; [done|].
    split; [constructor|]. intros r Hr. by apply elem_of_nil in Hr.
  - unfold bind at 1. unfold bind at 1. rewrite getitem_eq.
    destruct (valid !! n) as [k|] eqn:Hk; [|done].
    destruct (insert_cafe_category cid (category_id k) false db)
      as [[e|[]] db1] eqn:Hins; [done|].
    apply insert_cafe_category_inr in Hins as (row & -> & Hrow & Hfresh).
    intros H. apply IH in H as (ks & rows & Hks & -> & Hdata & Hnd & Hnew).
    simpl in *. exists (k :: ks), (row :: rows).
    split; [by constructor|].
    split; [by rewrite with_associations_app|].
    split; [by rewrite fmap_cons, Hrow, Hdata|].
    assert (assoc_key row = (cid, category_id k)) as Hkey.
    { unfold assoc_data in Hrow. unfold assoc_key. by injection Hrow as -> -> _. }
    split.
    + rewrite fmap_cons. constructor; [|done]. intros Hin.
      apply list_elem_of_fmap in Hin as (r & Hr & Hin).
      apply (Hnew r Hin). rewrite <- Hr, fmap_app.
      apply elem_of_app. right. apply list_elem_of_fmap_2, list_elem_of_here.
    + intros r [->|Hr]%elem_of_cons.
      * by rewrite Hkey.
      * intros Hin. apply (Hnew r Hr). rewrite fmap_app. apply elem_of_app. by left.
Qed.

Lemma add_also_inl (valid : gmap string Category) cid names db e db' :
  for_each names (λ cat_name,
    do k <- getitem valid cat_name;
    insert_cafe_category cid (category_id k) false) db = (inl e, db') →
  committed db' = committed db ∧ (e = IntegrityError ∨ e = KeyError).
Proof.
  revert db. induction names as [|n names IH]; intros db; simpl; [done|].
  unfold bind at 1. unfold bind at 1. rewrite getitem_eq.
  destruct (valid !! n) as [k|] eqn:Hk; [|intros [= <- <-]; auto].
  destruct (insert_cafe_category cid (category_id k) false db)
    as [[e1|[]] db1] eqn:Hins.
  - apply insert_cafe_category_inl in Hins as (-> & -> & _).
    intros [= <- <-]. auto.
  - apply insert_cafe_category_inr in Hins as (row & -> & _).
    intros H. by apply IH in H.
Qed.

Lemma add_associations_inr (valid : gmap string Category) cid cafe db db' :
  add_associations valid cid cafe db = (inr tt, db') →
  ∃ kb ks rows,
    valid !! new_best_for cafe = Some kb
    ∧ Forall2 (λ n k, valid !! n = Some k) (new_also_good_for cafe) ks
    ∧ db' = mkDb (committed db) (with_associations (pending db) rows)
    ∧ assoc_data <$> rows
      = (cid, category_id kb, true) :: ((λ k, (cid, category_id k, false)) <$> ks)
    ∧ NoDup (assoc_key <$> rows)
    ∧ (∀ r, r ∈ rows → assoc_key r ∉ assoc_key <$> cafe_categories (pending db)).
Proof.
  unfold add_associations. unfold bind at 1. rewrite getitem_eq.
  destruct (valid !! new_best_for cafe) as [kb|] eqn:Hkb; [|done].
  unfold bind at 1.
  destruct (insert_cafe_category cid (category_id kb) true db)
    as [[e|[]] db1] eqn:Hins; [done|].
  apply insert_cafe_category_inr in Hins as (row & -> & Hrow & Hfresh).
  intros H. apply add_also_inr in H as (ks & rows & Hks & -> & Hdata & Hnd & Hnew).
  simpl in *. exists kb, ks, (row :: rows).
  split; [done|]. split; [done|].
  split; [by rewrite with_associations_app|].
  split; [by rewrite fmap_cons, Hrow, Hdata|].
  assert (assoc_key row = (cid, category_id kb)) as Hkey.
  { unfold assoc_data in Hrow. unfold assoc_key. by injection Hrow as -> -> _. }
  split.
  - rewrite fmap_cons. constructor; [|done]. intros Hin.
    apply list_elem_of_fmap in Hin as (r & Hr & Hin).
    apply (Hnew r Hin). rewrite <- Hr, fmap_app.
    apply elem_of_app. right. apply list_elem_of_fmap_2, list_elem_of_here.
  - intros r [->|Hr]%elem_of_cons.
    + by rewrite Hkey.
    + intros Hin. apply (Hnew r Hr). rewrite fmap_app. apply elem_of_app. by left.
Qed.

Lemma add_associations_inl (valid : gmap string Category) cid cafe db e db' :
  add_associations valid cid cafe db = (inl e, db') →
  committed db' = committed db ∧ (e = IntegrityError ∨ e = KeyError).
Proof.
  unfold add_associations. unfold bind at 1. rewrite getitem_eq.
  destruct (valid !! new_best_for cafe) as [kb|] eqn:Hkb;
    [|intros [= <- <-]; auto].
  unfold bind at 1.
  destruct (insert_cafe_category cid (category_id kb) true db)
    as [[e1|[]] db1] eqn:Hins.
  - apply insert_cafe_category_inl in Hins as (-> & -> & _).
    intros [= <- <-]. auto.
  - apply insert_cafe_category_inr in Hins as (row & -> & _).
    intros H. by apply add_also_inl in H.
Qed.

(** ** [create_cafe] *)

(** What a request's names resolve to are rows of the Category Store that
    carry those names. *)
Lemma resolved_in_store (s : Store) cafe kb ks :
  resolved s cafe kb ks →
  kb ∈ categories s ∧ category_name kb = new_best_for cafe
  ∧ Forall2 (λ n k, k ∈ categories s ∧ category_name k = n)
            (new_also_good_for cafe) ks.
Proof.
  intros [Hkb Hks].
  apply by_name_Some in Hkb as [Hkb ?]. apply list_elem_of_filter in Hkb as [_ ?].
  split; [done|]. split; [done|].
  eapply Forall2_impl; [apply Hks|]. intros n k Hk. simpl in Hk.
  apply by_name_Some in Hk as [Hk ?]. apply list_elem_of_filter in Hk as [_ ?]. done.
Qed.

Lemma resolved_best_in_also (s : Store) cafe kb ks :
  resolved s cafe kb ks →
  new_best_for cafe ∈ new_also_good_for cafe →
  kb ∈ ks.
Proof.
  intros [Hkb Hks] Hin.
  apply list_elem_of_lookup_1 in Hin as [i Hi].
  destruct (Forall2_lookup_l _ _ _ _ _ Hks Hi) as (k & Hk & Hvalid).
  simpl in Hvalid. rewrite Hkb in Hvalid. injection Hvalid as ->.
  by eapply list_elem_of_lookup_2.
Qed.

(** A [create_cafe] that gets as far as its commit: every name is known,
    the (title, city) pair is new, and the store gains the café row and
    its association rows, nothing else.  The handler then raises
    [MissingGreenlet] while it builds the response. *)
Lemma create_cafe_committed s cafe s' :
  run (create_cafe cafe) s = (inl MissingGreenlet, s') →
  let row := new_cafe_row s cafe in
  let s1 := mkStore (categories s) (cafes s ++ [row]) (cafe_categories s) in
  ∃ kb ks rows,
    missing_names s (names_of cafe) = []
    ∧ (cafe_key row ∉ cafe_key <$> cafes s)
    ∧ resolved s cafe kb ks
    ∧ s' = with_associations s1 rows
    ∧ written_rows (cafe_id row) kb ks rows
    ∧ NoDup (assoc_key <$> rows)
    ∧ (∀ r, r ∈ rows → assoc_key r ∉ assoc_key <$> cafe_categories s).
Proof.
  unfold run, create_cafe, select_categories_in, query.
  unfold bind at 1. simpl. unfold bind at 1. rewrite check_names_store.
  destruct (head (missing_names s (names_of cafe))) as [n|] eqn:Hmiss; [done|].
  apply head_None in Hmiss.
  unfold try_except_IntegrityError, bind at 1, insert_cafe. simpl.
  case_bool_decide as Hkey.
  { unfold bind, rollback, raise. simpl. done. }
  unfold bind at 1.
  match goal with |- context [add_associations ?v ?c ?cf ?d] =>
    destruct (add_associations v c cf d) as [[e|[]] db1] eqn:Hadd end.
  { apply add_associations_inl in Hadd as [_ [->| ->]]; simpl; done. }
  apply add_associations_inr in Hadd
    as (kb & ks & rows & Hkb & Hks & -> & Hdata & Hnd & Hnew).
  unfold bind, commit, from_orm_unloaded, lazy_load, raise. simpl. intros [= <-].
  exists kb, ks, rows.
  split; [done|]. split; [done|].
  split; [by split|].
  split; [done|]. split; [done|]. split; [done|]. done.
Qed.

(** No [create_cafe] returns a response. *)
Lemma create_cafe_raises s cafe r s' :
  run (create_cafe cafe) s = (r, s') → ∃ e, r = inl e.
Proof.
  unfold run, create_cafe, select_categories_in, query.
  unfold bind at 1. simpl. unfold bind at 1. rewrite check_names_store.
  destruct (head (missing_names s (names_of cafe))) as [n|] eqn:Hmiss;
    [intros [= <- _]; by eexists|].
  unfold try_except_IntegrityError, bind at 1, insert_cafe. simpl.
  case_bool_decide as Hkey.
  { unfold bind, rollback, raise. simpl. intros [= <- _]. by eexists. }
  unfold bind at 1.
  match goal with |- context [add_associations ?v ?c ?cf ?d] =>
    destruct (add_associations v c cf d) as [[e1|[]] db1] eqn:Hadd end.
  - apply add_associations_inl in Hadd as [_ [->| ->]]; simpl;
      unfold bind, rollback, raise; simpl; intros [= <- _]; by eexists.
  - unfold bind, commit, from_orm_unloaded, lazy_load, raise. simpl.
    intros [= <- _]. by eexists.
Qed.

(** A [create_cafe] that ends in another exception leaves the store as it
    was. *)
Lemma create_cafe_refused s cafe e s' :
  run (create_cafe cafe) s = (inl e, s') → e ≠ MissingGreenlet → s' = s.
Proof.
  unfold run, create_cafe, select_categories_in, query.
  unfold bind at 1. simpl. unfold bind at 1. rewrite check_names_store.
  destruct (head (missing_names s (names_of cafe))) as [n|] eqn:Hmiss;
    [by intros [= <- <-]|].
  unfold try_except_IntegrityError, bind at 1, insert_cafe. simpl.
  case_bool_decide as Hkey.
  { unfold bind, rollback, raise. simpl. by intros [= <- <-]. }
  unfold bind at 1.
  match goal with |- context [add_associations ?v ?c ?cf ?d] =>
    destruct (add_associations v c cf d) as [[e1|[]] db1] eqn:Hadd end.
  - apply add_associations_inl in Hadd as [Hc [->| ->]]; simpl in Hc; simpl;
      unfold bind, rollback, raise; simpl; intros [= <- <-]; done.
  - unfold bind, commit, from_orm_unloaded, lazy_load, raise. simpl.
    by intros [= <- _].
Qed.

(** A request naming an unknown category is refused with the first
    unknown name, best first. *)
Lemma create_cafe_missing s cafe n :
  head (missing_names s (names_of cafe)) = Some n →
  run (create_cafe cafe) s = (inl (does_not_exist n), s).
Proof.
  intros Hmiss.
  unfold run, create_cafe, select_categories_in, query.
  unfold bind at 1. simpl. unfold bind at 1. rewrite check_names_store, Hmiss.
  done.
Qed.

(** A request whose names are all known and whose (title, city) pair is
    taken is refused with the conflict error. *)
Lemma create_cafe_conflict s cafe :
  missing_names s (names_of cafe) = [] →
  (new_title cafe, new_city cafe) ∈ cafe_key <$> cafes s →
  run (create_cafe cafe) s = (inl already_exists, s).
Proof.
  intros Hmiss Hkey.
  unfold run, create_cafe, select_categories_in, query.
  unfold bind at 1. simpl. unfold bind at 1. rewrite check_names_store, Hmiss.
  simpl. unfold try_except_IntegrityError, bind at 1, insert_cafe. simpl.
  rewrite bool_decide_eq_true_2 by done. done.
Qed.

(** ** [update_cafe] *)

Lemma update_cafe_absent s cid cafe :
  head (filter (λ c, cafe_id c = cid) (cafes s)) = None →
  run (update_cafe cid cafe) s = (inl not_found, s).
Proof.
  intros Hnone. unfold run, update_cafe, select_cafe_by_id, query.
  unfold bind at 1. simpl. by rewrite Hnone.
Qed.

Lemma update_cafe_missing s cid cafe db_cafe n :
  head (filter (λ c, cafe_id c = cid) (cafes s)) = Some db_cafe →
  head (missing_names s (names_of cafe)) = Some n →
  run (update_cafe cid cafe) s = (inl (does_not_exist n), s).
Proof.
  intros Hsome Hmiss. unfold run, update_cafe, select_cafe_by_id, query.
  unfold bind at 1. simpl. rewrite Hsome.
  unfold select_categories_in, query. unfold bind at 1. simpl.
  unfold bind at 1. rewrite check_names_store, Hmiss. done.
Qed.

(** An [update_cafe] that gets as far as its commit: the café exists,
    every name is known, and the store keeps its categories, has the café
    row rewritten, and has the café's association rows replaced by the
    written ones.  The handler then raises [MissingGreenlet] while it
    builds the response. *)
Lemma update_cafe_committed s cid cafe s' :
  run (update_cafe cid cafe) s = (inl MissingGreenlet, s') →
  ∃ db_cafe kb ks rows,
    head (filter (λ c, cafe_id c = cid) (cafes s)) = Some db_cafe
    ∧ missing_names s (names_of cafe) = []
    ∧ resolved s cafe kb ks
    ∧ s' = with_associations (cleared cid cafe s) rows
    ∧ written_rows cid kb ks rows
    ∧ NoDup (assoc_key <$> rows).
Proof.
  unfold run, update_cafe, select_cafe_by_id, query.
  unfold bind at 1. simpl.
  destruct (head (filter (λ c, cafe_id c = cid) (cafes s))) as [db_cafe|] eqn:Hsome;
    [|done].
  pose proof (head_filter_Some _ _ _ Hsome) as [Hid _].
  unfold select_categories_in, query. unfold bind at 1. simpl.
  unfold bind at 1. rewrite check_names_store.
  destruct (head (missing_names s (names_of cafe))) as [n|] eqn:Hmiss; [done|].
  apply head_None in Hmiss.
  unfold try_except_IntegrityError, bind at 1, update_cafe_row. simpl.
  case_bool_decide as Hkey.
  { unfold bind, rollback, raise. simpl. done. }
  unfold bind at 1, delete_cafe_categories. simpl. unfold bind at 1.
  match goal with |- context [add_associations ?v ?c ?cf ?d] =>
    destruct (add_associations v c cf d) as [[e|[]] db1] eqn:Hadd end.
  { apply add_associations_inl in Hadd as [_ [->| ->]]; simpl; done. }
  apply add_associations_inr in Hadd
    as (kb & ks & rows & Hkb & Hks & -> & Hdata & Hnd & Hnew).
  unfold bind, commit, from_orm_unloaded, lazy_load, raise. simpl.
  rewrite Hid in *. intros [= <-].
  exists db_cafe, kb, ks, rows.
  split; [done|]. split; [done|].
  split; [by split|].
  split; [done|]. split; [done|]. done.
Qed.

(** No [update_cafe] returns a response. *)
Lemma update_cafe_raises s cid cafe r s' :
  run (update_cafe cid cafe) s = (r, s') → ∃ e, r = inl e.
Proof.
  unfold run, update_cafe, select_cafe_by_id, query.
  unfold bind at 1. simpl.
  destruct (head (filter (λ c, cafe_id c = cid) (cafes s))) as [db_cafe|] eqn:Hsome;
    [|intros [= <- _]; by eexists].
  unfold select_categories_in, query. unfold bind at 1. simpl.
  unfold bind at 1. rewrite check_names_store.
  destruct (head (missing_names s (names_of cafe))) as [n|] eqn:Hmiss;
    [intros [= <- _]; by eexists|].
  unfold try_except_IntegrityError, bind at 1, update_cafe_row. simpl.
  case_bool_decide as Hkey.
  { unfold bind, rollback, raise. simpl. intros [= <- _]. by eexists. }
  unfold bind at 1, delete_cafe_categories. simpl. unfold bind at 1.
  match goal with |- context [add_associations ?v ?c ?cf ?d] =>
    destruct (add_associations v c cf d) as [[e1|[]] db1] eqn:Hadd end.
  - apply add_associations_inl in Hadd as [_ [->| ->]]; simpl;
      unfold bind, rollback, raise; simpl; intros [= <- _]; by eexists.
  - unfold bind, commit, from_orm_unloaded, lazy_load, raise. simpl.
    intros [= <- _]. by eexists.
Qed.

(** An [update_cafe] that ends in another exception leaves the store as
    it was. *)
Lemma update_cafe_refused s cid cafe e s' :
  run (update_cafe cid cafe) s = (inl e, s') → e ≠ MissingGreenlet → s' = s.
Proof.
  unfold run, update_cafe, select_cafe_by_id, query.
  unfold bind at 1. simpl.
  destruct (head (filter (λ c, cafe_id c = cid) (cafes s))) as [db_cafe|] eqn:Hsome;
    [|by intros [= <- <-]].
  unfold select_categories_in, query. unfold bind at 1. simpl.
  unfold bind at 1. rewrite check_names_store.
  destruct (head (missing_names s (names_of cafe))) as [n|] eqn:Hmiss;
    [by intros [= <- <-]|].
  unfold try_except_IntegrityError, bind at 1, update_cafe_row. simpl.
  case_bool_decide as Hkey.
  { unfold bind, rollback, raise. simpl. by intros [= <- <-]. }
  unfold bind at 1, delete_cafe_categories. simpl. unfold bind at 1.
  match goal with |- context [add_associations ?v ?c ?cf ?d] =>
    destruct (add_associations v c cf d) as [[e1|[]] db1] eqn:Hadd end.
  - apply add_associations_inl in Hadd as [Hc [->| ->]]; simpl in Hc; simpl;
      unfold bind, rollback, raise; simpl; intros [= <- <-]; done.
  - unfold bind, commit, from_orm_unloaded, lazy_load, raise. simpl.
    by intros [= <- _].
Qed.

(** ** The rows a write leaves *)

Lemma also_rows_data cid ks rows :
  assoc_data <$> rows = (λ k, (cid, category_id k, false)) <$> ks →
  Forall (λ r, assoc_cafe_id r = cid ∧ is_best r = false) rows.
Proof.
  revert ks. induction rows as [|r rows IH]; intros ks H; [constructor|].
  destruct ks as [|k ks]; [done|]. rewrite !fmap_cons in H.
  unfold assoc_data at 1 in H. injection H as H1 H2 H3 Hrest.
  constructor; [done|by eapply IH].
Qed.

Lemma written_rows_inv cid kb ks rows :
  written_rows cid kb ks rows →
  ∃ r rest, rows = r :: rest
    ∧ assoc_data r = (cid, category_id kb, true)
    ∧ assoc_data <$> rest = (λ k, (cid, category_id k, false)) <$> ks.
Proof.
  unfold written_rows. destruct rows as [|r rest]; [done|].
  rewrite fmap_cons. unfold assoc_data at 1. intros [= H1 H2 H3 Hrest].
  exists r, rest.
  split; [done|]. split; [|done]. unfold assoc_data. by rewrite H1, H2, H3.
Qed.

Lemma written_rows_cafe_id cid kb ks rows :
  written_rows cid kb ks rows → Forall (λ r, assoc_cafe_id r = cid) rows.
Proof.
  intros (r & rest & -> & Hr & Hrest)%written_rows_inv.
  constructor.
  - unfold assoc_data in Hr. by injection Hr as -> _ _.
  - apply also_rows_data in Hrest. eapply Forall_impl; [apply Hrest|].
    by intros x [? _].
Qed.

Lemma written_rows_one_best cid kb ks rows :
  written_rows cid kb ks rows →
  length (filter (λ a, is_best a = true) rows) = 1%nat.
Proof.
  intros (r & rest & -> & Hr & Hrest)%written_rows_inv.
  rewrite filter_cons_True.
  - rewrite filter_none; [done|]. apply also_rows_data in Hrest.
    eapply Forall_impl; [apply Hrest|]. intros x [_ Hx]. by rewrite Hx.
  - unfold assoc_data in Hr. by injection Hr as _ _ ->.
Qed.

Lemma associations_cleared cid cafe s rows :
  Forall (λ r, assoc_cafe_id r = cid) rows →
  filter (λ a, assoc_cafe_id a = cid)
         (cafe_categories (with_associations (cleared cid cafe s) rows)) = rows.
Proof.
  intros Hrows. simpl. rewrite filter_app, (filter_all _ rows) by done.
  rewrite filter_none; [done|].
  apply Forall_forall. intros a Ha. apply list_elem_of_filter in Ha as [Ha _].
  done.
Qed.

Lemma associations_others cid cafe s rows :
  Forall (λ r, assoc_cafe_id r = cid) rows →
  filter (λ a, assoc_cafe_id a ≠ cid)
         (cafe_categories (with_associations (cleared cid cafe s) rows))
  = filter (λ a, assoc_cafe_id a ≠ cid) (cafe_categories s).
Proof.
  intros Hrows. simpl. rewrite filter_app, (filter_none _ rows).
  - rewrite app_nil_r. apply filter_all, Forall_forall.
    intros a Ha. by apply list_elem_of_filter in Ha as [Ha _].
  - eapply Forall_impl; [apply Hrows|]. intros a Ha Hne. done.
Qed.

(** C7: an update of café [cid] that goes through, that is, whose
    transaction is committed (the handler raises [MissingGreenlet] only
    after the commit, while it builds the response, and that is the only
    way it raises it), leaves the café with exactly one [is_best = true]
    row for the new best category followed by one [is_best = false] row
    per new additional category, so any earlier row of the café outside
    that set is gone, and the association rows of every other café are
    what they were. *)
Theorem C7_update_replaces_association_set s cid cafe s' :
  run (update_cafe cid cafe) s = (inl MissingGreenlet, s') →
  ∃ kb ks,
    resolved s cafe kb ks
    ∧ assoc_data <$> category_associations s' (updated_cafe_row cid cafe)
      = (cid, category_id kb, true) :: ((λ k, (cid, category_id k, false)) <$> ks)
    ∧ (∀ a, a ∈ cafe_categories s' → assoc_cafe_id a = cid →
         assoc_data a ∈
           (cid, category_id kb, true) :: ((λ k, (cid, category_id k, false)) <$> ks))
    ∧ filter (λ a, assoc_cafe_id a ≠ cid) (cafe_categories s')
      = filter (λ a, assoc_cafe_id a ≠ cid) (cafe_categories s).
Proof.
  intros (db_cafe & kb & ks & rows & _ & _ & Hres & -> & Hrows & _)%update_cafe_committed.
  pose proof (written_rows_cafe_id _ _ _ _ Hrows) as Hcid.
  exists kb, ks. split; [done|].
  assert (category_associations (with_associations (cleared cid cafe s) rows)
            (updated_cafe_row cid cafe) = rows) as Hassoc.
  { unfold category_associations. simpl cafe_id. by apply associations_cleared. }
  split; [by rewrite Hassoc|]. split.
  - intros a Ha Hid. rewrite <- Hrows, <- Hassoc.
    apply list_elem_of_fmap_2. unfold category_associations.
    apply list_elem_of_filter. done.
  - by apply associations_others.
Qed.

(** ** [delete_cafe] *)

Lemma delete_cafe_run s cid :
  run (delete_cafe cid) s
  = match head (filter (λ c, cafe_id c = cid) (cafes s)) with
    | None => (inl not_found, s)
    | Some _ =>
        (inr "Cafe deleted",
         mkStore (categories s)
                 (filter (λ c, cafe_id c ≠ cid) (cafes s))
                 (filter (λ a, assoc_cafe_id a ≠ cid) (cafe_categories s)))
    end.
Proof.
  unfold run, delete_cafe, select_cafe_by_id, query.
  unfold bind at 1. simpl.
  destruct (head (filter (λ c, cafe_id c = cid) (cafes s))) as [db_cafe|] eqn:Hsome;
    [|done].
  pose proof (head_filter_Some _ _ _ Hsome) as [-> _]. done.
Qed.

(** ** The association invariant *)

Lemma store_invariant_empty : store_invariant empty_store.
Proof.
  split; simpl.
  - constructor.
  - intros a Ha. by apply elem_of_nil in Ha.
  - intros cid Hc. by apply elem_of_nil in Hc.
Qed.

Lemma unique_best_not_repeated s cid :
  NoDup (assoc_key <$> cafe_categories s) → best_not_repeated s cid.
Proof.
  intros Hnd a b Ha Hb Hca Hcb Hba Hbb Heq.
  assert (a = b) as ->.
  { eapply NoDup_fmap_eq; [apply Hnd|done|done|].
    unfold assoc_key. by rewrite Hca, Hcb, Heq. }
  congruence.
Qed.

Lemma filter_other_cafe (cid cid' : Z) (l : list CafeCategory) :
  cid' ≠ cid →
  filter (λ a, assoc_cafe_id a = cid') (filter (λ a, assoc_cafe_id a ≠ cid) l)
  = filter (λ a, assoc_cafe_id a = cid') l.
Proof.
  intros Hne. rewrite list_filter_filter. apply list_filter_iff.
  intros a. split; [by intros [? _]|]. intros ->. done.
Qed.

Lemma set_cafe_ids cid cafe cs : cafe_id <$> set_cafe cid cafe cs = cafe_id <$> cs.
Proof.
  unfold set_cafe. rewrite <- list_fmap_compose. apply list_fmap_ext.
  intros i c _. simpl. by case_bool_decide.
Qed.

Lemma invariant_create s cafe kb ks rows :
  store_invariant s →
  written_rows (next_id (cafe_id <$> cafes s)) kb ks rows →
  NoDup (assoc_key <$> rows) →
  (∀ r, r ∈ rows → assoc_key r ∉ assoc_key <$> cafe_categories s) →
  let s' := with_associations
              (mkStore (categories s) (cafes s ++ [new_cafe_row s cafe])
                       (cafe_categories s)) rows in
  store_invariant s' ∧ one_best s' (next_id (cafe_id <$> cafes s)).
Proof.
  intros [Huniq Hfk Hone] Hrows Hnd Hnew s'.
  pose proof (written_rows_cafe_id _ _ _ _ Hrows) as Hcid.
  pose proof (next_id_fresh (cafe_id <$> cafes s)) as Hfresh.
  assert (filter (λ a, assoc_cafe_id a = next_id (cafe_id <$> cafes s))
            (cafe_categories s) = []) as Hnone.
  { apply filter_none, Forall_forall. intros a Ha Heq.
    apply Hfresh. rewrite <- Heq. by apply Hfk. }
  assert (one_best s' (next_id (cafe_id <$> cafes s))) as Hnewbest.
  { unfold one_best, s', with_associations. cbn [cafe_categories].
    rewrite filter_app, Hnone, (filter_all _ rows Hcid), app_nil_l.
    by eapply written_rows_one_best. }
  split; [|done]. split.
  - unfold s'. simpl. rewrite fmap_app. apply NoDup_app.
    split; [done|]. split; [|done].
    intros key Hold Hin. apply list_elem_of_fmap in Hin as (r & -> & Hr).
    by apply (Hnew r Hr).
  - unfold s'. simpl. intros a [Ha|Ha]%elem_of_app; rewrite fmap_app, elem_of_app.
    + left. by apply Hfk.
    + right. rewrite Forall_forall in Hcid. rewrite (Hcid a Ha).
      apply list_elem_of_singleton. done.
  - intros cid. unfold s' at 1. simpl. rewrite fmap_app, elem_of_app.
    intros [Hin|Hin].
    + assert (cid ≠ next_id (cafe_id <$> cafes s)) as Hne by (by intros ->).
      unfold one_best, s'. simpl. rewrite filter_app, (filter_none _ rows).
      * rewrite app_nil_r. by apply Hone.
      * eapply Forall_impl; [apply Hcid|]. intros a -> Heq. done.
    + apply list_elem_of_singleton in Hin as ->. done.
Qed.

Lemma invariant_update s cid cafe kb ks rows :
  store_invariant s →
  cid ∈ cafe_id <$> cafes s →
  written_rows cid kb ks rows →
  NoDup (assoc_key <$> rows) →
  let s' := with_associations (cleared cid cafe s) rows in
  store_invariant s' ∧ one_best s' cid.
Proof.
  intros [Huniq Hfk Hone] Hin Hrows Hnd s'.
  pose proof (written_rows_cafe_id _ _ _ _ Hrows) as Hcid.
  assert (one_best s' cid) as Hbest.
  { unfold one_best, s'. rewrite associations_cleared by done.
    by eapply written_rows_one_best. }
  split; [|done]. split.
  - unfold s'. simpl. rewrite fmap_app. apply NoDup_app.
    split; [by apply NoDup_fmap_filter|]. split; [|done].
    intros key Hold Hnew.
    apply list_elem_of_fmap in Hold as (a & -> & Ha).
    apply list_elem_of_filter in Ha as [Ha _].
    apply list_elem_of_fmap in Hnew as (r & Hkey & Hr).
    rewrite Forall_forall in Hcid. apply Ha. rewrite <- (Hcid r Hr).
    unfold assoc_key in Hkey. by injection Hkey.
  - unfold s'. simpl. rewrite set_cafe_ids.
    intros a [Ha|Ha]%elem_of_app.
    + apply list_elem_of_filter in Ha as [_ Ha]. by apply Hfk.
    + rewrite Forall_forall in Hcid. by rewrite (Hcid a Ha).
  - intros cid'. unfold s' at 1. simpl. rewrite set_cafe_ids. intros Hin'.
    destruct (decide (cid' = cid)) as [->|Hne]; [done|].
    unfold one_best, s'. simpl. rewrite filter_app, (filter_none _ rows).
    + rewrite app_nil_r, filter_other_cafe by done. by apply Hone.
    + eapply Forall_impl; [apply Hcid|]. intros a -> Heq. done.
Qed.

(** Whatever the store held before, a committed update leaves the café
    with exactly one row flagged best. *)
Lemma update_cafe_one_best s cid cafe s' :
  run (update_cafe cid cafe) s = (inl MissingGreenlet, s') → one_best s' cid.
Proof.
  intros (db_cafe & kb & ks & rows & _ & _ & _ & -> & Hrows & _)%update_cafe_committed.
  unfold one_best.
  rewrite associations_cleared by (by eapply written_rows_cafe_id).
  by eapply written_rows_one_best.
Qed.

Lemma invariant_delete s cid :
  store_invariant s →
  store_invariant
    (mkStore (categories s)
             (filter (λ c, cafe_id c ≠ cid) (cafes s))
             (filter (λ a, assoc_cafe_id a ≠ cid) (cafe_categories s))).
Proof.
  intros [Huniq Hfk Hone]. split; simpl.
  - by apply NoDup_fmap_filter.
  - intros a [Hne Ha]%list_elem_of_filter.
    apply Hfk, list_elem_of_fmap in Ha as (c & Hc & Hin).
    apply list_elem_of_fmap. exists c. split; [done|].
    apply list_elem_of_filter. split; [congruence|done].
  - intros cid' (c & -> & [Hne Hin]%list_elem_of_filter)%list_elem_of_fmap.
    unfold one_best. simpl. rewrite filter_other_cafe by done.
    apply Hone. by apply list_elem_of_fmap_2.
Qed.

Lemma run_fmap_session {A B} (f : A → B) (m : Session A) s :
  run (fmap_session f m) s
  = (match (run m s).1 with inl e => inl e | inr a => inr (f a) end, (run m s).2).
Proof.
  unfold run, fmap_session, bind, ret.
  by destruct (m (mkDb s s)) as [[e|a] db].
Qed.

Lemma run_read_only {A B} (f : A → B) (m : Session A) s r s' :
  read_only m → run (fmap_session f m) s = (r, s') → s' = s.
Proof.
  intros Hm. rewrite run_fmap_session. intros [= _ <-].
  by apply read_only_run.
Qed.

(** C5: starting from a store that satisfies the association invariant,
    every operation of the service leaves a store that satisfies it (no
    café has two association rows for one category, and every café has
    exactly one row with [is_best = true]); and after a create or update
    that went through (its transaction is committed; the handler raises
    [MissingGreenlet] after the commit and in no other case) the written
    café is in the store and has exactly one row with [is_best = true],
    whose category is not carried by any of its [is_best = false] rows. *)
Theorem C5_association_invariant
    (cosine : list string → nat → nat → Q) (argsort : list Q → list nat)
    (s : Store) (op : operation) r s' :
  store_invariant s →
  run (handler cosine argsort op) s = (r, s') →
  store_invariant s'
  ∧ NoDup (assoc_key <$> cafe_categories s')
  ∧ ∀ cid, written_id op s = Some cid → r = inl MissingGreenlet →
      cid ∈ cafe_id <$> cafes s'
      ∧ one_best s' cid ∧ best_not_repeated s' cid.
Proof.
  intros Hinv Hrun.
  cut (store_invariant s' ∧
       ∀ cid, written_id op s = Some cid → r = inl MissingGreenlet →
              cid ∈ cafe_id <$> cafes s' ∧ one_best s' cid).
  { intros [Hinv' Hone]. split; [done|]. split; [apply Hinv'|].
    intros cid Hcid Hr. destruct (Hone cid Hcid Hr) as [Hin Hbest].
    split; [done|]. split; [done|].
    apply unique_best_not_repeated, Hinv'. }
  destruct op as [c b a|cafe|cid cafe|cid|cid|]; simpl in Hrun.
  - assert (s' = s) as -> by (eapply run_read_only, Hrun; apply read_only_get_cafes).
    split; [done|]. by intros cid.
  - rewrite run_fmap_session in Hrun.
    destruct (run (create_cafe cafe) s) as [[e|resp0] s1] eqn:Hcreate;
      simpl in Hrun; injection Hrun as <- <-.
    + destruct (decide (e = MissingGreenlet)) as [->|Hne].
      * apply create_cafe_committed in Hcreate
          as (kb & ks & rows & _ & _ & _ & -> & Hrows & Hnd & Hnew).
        simpl in Hrows.
        destruct (invariant_create s cafe kb ks rows Hinv Hrows Hnd Hnew)
          as [Hinv' Hone].
        split; [done|]. intros cid [= <-] _. split; [|done].
        simpl. rewrite fmap_app. apply elem_of_app. right. by left.
      * apply create_cafe_refused in Hcreate as ->; [|done].
        split; [done|]. intros cid _ [= ->]. done.
    + by apply create_cafe_raises in Hcreate as [e [=]].
  - rewrite run_fmap_session in Hrun.
    destruct (run (update_cafe cid cafe) s) as [[e|resp0] s1] eqn:Hupdate;
      simpl in Hrun; injection Hrun as <- <-.
    + destruct (decide (e = MissingGreenlet)) as [->|Hne].
      * apply update_cafe_committed in Hupdate
          as (db_cafe & kb & ks & rows & Hsome & _ & _ & -> & Hrows & Hnd).
        apply head_filter_Some in Hsome as [Hid Hin].
        assert (cid ∈ cafe_id <$> cafes s) as Hcid
          by (rewrite <- Hid; by apply list_elem_of_fmap_2).
        destruct (invariant_update s cid cafe kb ks rows Hinv Hcid Hrows Hnd)
          as [Hinv' Hone].
        split; [done|]. intros cid' [= <-] _. split; [|done].
        simpl. by rewrite set_cafe_ids.
      * apply update_cafe_refused in Hupdate as ->; [|done].
        split; [done|]. intros cid' _ [= ->]. done.
    + by apply update_cafe_raises in Hupdate as [e [=]].
  - rewrite run_fmap_session, delete_cafe_run in Hrun.
    destruct (head (filter (λ c, cafe_id c = cid) (cafes s)));
      simpl in Hrun; injection Hrun as <- <-.
    + split; [by apply invariant_delete|]. by intros cid'.
    + split; [done|]. by intros cid'.
  - assert (s' = s) as -> by (eapply run_read_only, Hrun; apply read_only_recommend).
    split; [done|]. by intros cid'.
  - assert (s' = s) as -> by (eapply run_read_only, Hrun; apply read_only_query).
    split; [done|]. by intros cid'.
Qed.

(** ** Duplicate (title, city) pairs *)

(** C6, as the claim states it, fails: a create request whose (title, city)
    pair is taken and which names an unknown category is refused with the
    unknown-category error, not with the conflict error. *)
Lemma C6_counterexample :
  (new_title clash_unknown, new_city clash_unknown) ∈ cafe_key <$> cafes paris_store
  ∧ run (create_cafe clash_unknown) paris_store
    = (inl (HTTPException 400 "Category nope does not exist"), paris_store)
  ∧ run (create_cafe clash_unknown) paris_store ≠ (inl already_exists, paris_store).
Proof.
  split; [apply list_elem_of_here|]. split; [by vm_compute|].
  vm_compute. discriminate.
Qed.

(** C6, amended: a create request whose (title, city) pair already exists
    always fails and leaves the store unchanged; the error is the conflict
    error when every category name of the request exists, and otherwise
    the unknown-category error for the first unknown name. *)
Theorem C6_duplicate_title_city_rejected s cafe :
  (new_title cafe, new_city cafe) ∈ cafe_key <$> cafes s →
  run (create_cafe cafe) s
  = (inl (match head (missing_names s (names_of cafe)) with
          | Some n => does_not_exist n
          | None => already_exists
          end), s).
Proof.
  intros Hkey.
  destruct (head (missing_names s (names_of cafe))) as [n|] eqn:Hmiss.
  - by apply create_cafe_missing.
  - apply head_None in Hmiss. by apply create_cafe_conflict.
Qed.

Lemma C6_witness :
  (new_title (mkCafeCreate "A" "Paris" "other" None "wifi" ["quiet"]),
   new_city (mkCafeCreate "A" "Paris" "other" None "wifi" ["quiet"]))
    ∈ cafe_key <$> cafes paris_store
  ∧ run (create_cafe (mkCafeCreate "A" "Paris" "other" None "wifi" ["quiet"])) paris_store
    = (inl already_exists, paris_store).
Proof.
  split; [apply list_elem_of_here|].
  apply (C6_duplicate_title_city_rejected paris_store
           (mkCafeCreate "A" "Paris" "other" None "wifi" ["quiet"])).
  apply list_elem_of_here.
Defined.

(** ** The same category as best and as additional *)

Lemma written_rows_keys cid kb ks rows :
  written_rows cid kb ks rows →
  assoc_key <$> rows
  = (cid, category_id kb) :: ((λ k, (cid, category_id k)) <$> ks).
Proof.
  unfold written_rows. intros Hdata.
  change assoc_key with (fst ∘ assoc_data).
  rewrite list_fmap_compose, Hdata, fmap_cons, <- list_fmap_compose. done.
Qed.

Lemma written_rows_best_apart cid kb ks rows :
  written_rows cid kb ks rows → NoDup (assoc_key <$> rows) → kb ∉ ks.
Proof.
  intros Hrows Hnd Hin. rewrite (written_rows_keys _ _ _ _ Hrows) in Hnd.
  apply NoDup_cons in Hnd as [Hnot _]. apply Hnot.
  by apply (list_elem_of_fmap_2 (λ k, (cid, category_id k))).
Qed.

(** A create request whose best_for name is also among its also_good_for
    names never succeeds, and leaves the store unchanged. *)
Lemma create_cafe_duplicate_category s cafe :
  new_best_for cafe ∈ new_also_good_for cafe →
  ∃ e, run (create_cafe cafe) s = (inl e, s).
Proof.
  intros Hdup.
  destruct (run (create_cafe cafe) s) as [[e|resp] s'] eqn:Hrun.
  - exists e. destruct (decide (e = MissingGreenlet)) as [->|Hne].
    + exfalso. apply create_cafe_committed in Hrun
        as (kb & ks & rows & _ & _ & Hres & _ & Hrows & Hnd & _).
      eapply written_rows_best_apart; [apply Hrows|apply Hnd|].
      by eapply resolved_best_in_also.
    + by apply create_cafe_refused in Hrun as ->.
  - by apply create_cafe_raises in Hrun as [e [=]].
Qed.

(** The same for an update request. *)
Lemma update_cafe_duplicate_category s cid cafe :
  new_best_for cafe ∈ new_also_good_for cafe →
  ∃ e, run (update_cafe cid cafe) s = (inl e, s).
Proof.
  intros Hdup.
  destruct (run (update_cafe cid cafe) s) as [[e|resp] s'] eqn:Hrun.
  - exists e. destruct (decide (e = MissingGreenlet)) as [->|Hne].
    + exfalso. apply update_cafe_committed in Hrun
        as (db_cafe & kb & ks & rows & _ & _ & Hres & _ & Hrows & Hnd).
      eapply written_rows_best_apart; [apply Hrows|apply Hnd|].
      by eapply resolved_best_in_also.
    + by apply update_cafe_refused in Hrun as ->.
  - by apply update_cafe_raises in Hrun as [e [=]].
Qed.

(** C2: with the store of the spec's example (café A in Paris, best
    "wifi", also "quiet"), creating café B with best_for "wifi" and
    also_good_for ["wifi"] is refused, but the error reported is the
    (title, city) conflict although ("B", "Paris") is not in the store;
    the same happens when café 1 is updated with that request. *)
Theorem C2_duplicate_category_reported_as_conflict :
  ((new_title wifi_twice, new_city wifi_twice) ∉ cafe_key <$> cafes paris_store)
  ∧ run (create_cafe wifi_twice) paris_store
    = (inl (HTTPException 400 "Cafe with this title and city already exists"),
       paris_store)
  ∧ run (update_cafe 1 wifi_twice) paris_store
    = (inl (HTTPException 400 "Cafe with this title and city already exists"),
       paris_store).
Proof.
  split; [|split; by vm_compute].
  intros [= ]%list_elem_of_singleton.
Qed.

(** ** Unknown category names *)

Lemma found_names (s : Store) (names : gset string) n :
  n ∈ category_name <$> filter (λ k, category_name k ∈ names) (categories s)
  ↔ n ∈ names ∧ n ∈ category_name <$> categories s.
Proof.
  rewrite !list_elem_of_fmap. split.
  - intros (k & -> & [Hk Hin]%list_elem_of_filter). eauto.
  - intros [Hn (k & -> & Hin)]. exists k. split; [done|].
    by apply list_elem_of_filter.
Qed.

Lemma get_cafes_missing s c b a n :
  n ∈ filter_category_names b a →
  n ∉ category_name <$> categories s →
  ∃ l,
    run (get_cafes c b a) s
    = (inl (HTTPException 400 ("Categories do not exist: " ++ join ", " l)), s)
    ∧ NoDup l
    ∧ ∀ m, m ∈ l ↔ (m ∈ filter_category_names b a
                    ∧ m ∉ category_name <$> categories s).
Proof.
  intros Hn Hmiss.
  set (names := filter_category_names b a) in *.
  set (found := category_name <$> filter (λ k, category_name k ∈ names) (categories s)).
  assert (∀ m, m ∈ names ∖ list_to_set found
               ↔ m ∈ names ∧ m ∉ category_name <$> categories s) as Hchar.
  { intros m. rewrite elem_of_difference, elem_of_list_to_set.
    unfold found. rewrite found_names. tauto. }
  exists (elements (names ∖ list_to_set found)).
  split; [|split; [apply NoDup_elements|]].
  - assert (names ≠ ∅) as Hne.
    { intros Hempty. rewrite Hempty in Hn. by apply not_elem_of_empty in Hn. }
    assert (names ∖ list_to_set found ≠ ∅) as Hne'.
    { intros Hempty. assert (n ∈ names ∖ list_to_set found) as Hin by (by apply Hchar).
      rewrite Hempty in Hin. by apply not_elem_of_empty in Hin. }
    unfold run, get_cafes, query. fold names. unfold bind at 1.
    rewrite (bool_decide_eq_true_2 _ Hne).
    unfold bind at 1. cbn [pending]. fold found.
    by rewrite (bool_decide_eq_true_2 _ Hne').
  - intros m. by rewrite elem_of_elements.
Qed.

(** C8, as the claim states it, fails: a create request naming two unknown
    categories is refused with a message that names the first one only. *)
Lemma C8_counterexample :
  missing_names paris_store (names_of two_unknown) = ["zz"; "qq"]
  ∧ run (create_cafe two_unknown) paris_store
    = (inl (HTTPException 400 "Category zz does not exist"), paris_store)
  ∧ contains "qq" "Category zz does not exist" = false.
Proof. split; [|split]; by vm_compute. Qed.

(** C8, amended: a list/filter query that names an unknown category fails
    with a client error listing exactly the unknown names among those
    supplied; a create request, and an update request for an existing
    café, fail with a client error naming the first unknown name only
    (best_for first, then also_good_for in order), and an update request
    for a café that does not exist fails with not-found; in each case the
    store is unchanged. *)
Theorem C8_unknown_category_names (s : Store) :
  (∀ c b a n,
     n ∈ filter_category_names b a →
     n ∉ category_name <$> categories s →
     ∃ l,
       run (get_cafes c b a) s
       = (inl (HTTPException 400 ("Categories do not exist: " ++ join ", " l)), s)
       ∧ NoDup l
       ∧ ∀ m, m ∈ l ↔ (m ∈ filter_category_names b a
                       ∧ m ∉ category_name <$> categories s))
  ∧ (∀ cafe n,
       head (missing_names s (names_of cafe)) = Some n →
       run (create_cafe cafe) s
       = (inl (HTTPException 400 ("Category " ++ n ++ " does not exist")), s))
  ∧ (∀ cid cafe n,
       head (missing_names s (names_of cafe)) = Some n →
       run (update_cafe cid cafe) s
       = (inl (match head (filter (λ c, cafe_id c = cid) (cafes s)) with
               | Some _ => HTTPException 400 ("Category " ++ n ++ " does not exist")
               | None => HTTPException 404 "Cafe not found"
               end), s)).
Proof.
  split; [|split].
  - intros c b a n. apply get_cafes_missing.
  - intros cafe n. apply create_cafe_missing.
  - intros cid cafe n Hmiss.
    destruct (head (filter (λ c, cafe_id c = cid) (cafes s))) as [db_cafe|] eqn:Hsome.
    + by eapply update_cafe_missing.
    + by apply update_cafe_absent.
Qed.

(** ** Filtering cafés *)

Lemma like_percent q x :
  like (String "%" q) x
  = like q x || match x with
                | EmptyString => false
                | String _ x' => like (String "%" q) x'
                end.
Proof. by destruct x. Qed.

Lemma lower_percent c : Ascii.eqb c "%" = false → Ascii.eqb c "_" = false →
  Ascii.eqb (lower c) "%" = false ∧ Ascii.eqb (lower c) "_" = false.
Proof.
  destruct c as [[] [] [] [] [] [] [] []]; vm_compute; auto.
Qed.

(** A pattern without wildcards followed by [%] matches only texts that
    start with the pattern, letter case ignored. *)
Lemma like_prefix p y :
  has_wildcard p = false →
  like (p ++ "%") y = true →
  String.prefix (lower_string p) (lower_string y) = true.
Proof.
  revert y. induction p as [|c p IH]; intros y Hw Hlike; [by destruct y|].
  simpl in Hw. apply orb_false_iff in Hw as [Hc Hw].
  apply orb_false_iff in Hc as [Hc1 Hc2].
  change (String c p ++ "%") with (String c (p ++ "%")) in Hlike.
  simpl in Hlike. rewrite Hc1, Hc2 in Hlike.
  destruct y as [|d y]; [done|].
  apply andb_true_iff in Hlike as [Hcd Hlike].
  apply Ascii.eqb_eq in Hcd. simpl. rewrite Hcd.
  destruct (ascii_dec (lower d) (lower d)); [|done]. by apply IH.
Qed.

Lemma contains_nil n : contains n "" = String.prefix n "".
Proof. simpl. apply orb_false_r. Qed.

Lemma contains_cons n d h :
  contains n (String d h) = String.prefix n (String d h) || contains n h.
Proof. reflexivity. Qed.

Lemma like_contains p x :
  has_wildcard p = false →
  like ("%" ++ p ++ "%") x = true →
  contains_ignoring_case p x = true.
Proof.
  intros Hw. unfold contains_ignoring_case.
  change ("%" ++ p ++ "%") with (String "%" (p ++ "%")).
  induction x as [|d x IH]; rewrite like_percent; intros Hlike.
  - rewrite orb_false_r in Hlike.
    change (lower_string "") with "". rewrite contains_nil.
    exact (like_prefix p "" Hw Hlike).
  - change (lower_string (String d x)) with (String (lower d) (lower_string x)).
    rewrite contains_cons.
    apply orb_true_iff in Hlike as [Hlike|Hlike].
    + apply (like_prefix _ _ Hw) in Hlike.
      change (lower_string (String d x)) with (String (lower d) (lower_string x)) in Hlike.
      by rewrite Hlike.
    + apply IH in Hlike. rewrite Hlike. apply orb_true_r.
Qed.

Lemma cafes_query_no_category city_arg best_arg also_arg s c :
  truthy best_arg || truthy_list also_arg = true →
  c ∉ cafes_query city_arg best_arg also_arg s.
Proof.
  intros Hcat Hin. unfold cafes_query in Hin. rewrite Hcat in Hin.
  rewrite elem_of_remove_dups in Hin.
  apply list_elem_of_fmap in Hin as (r & _ & Hr).
  destruct (truthy best_arg); destruct (truthy_list also_arg); try done;
    apply list_elem_of_filter in Hr as [HP _];
    unfold is_ in HP; by rewrite andb_false_r in HP.
Qed.

(** The join keeps cafés of the list it is given. *)
Lemma join_categories_cafe s q r : r ∈ join_categories s q → r.1.1 ∈ q.
Proof.
  unfold join_categories.
  intros (c & Hr & Hc)%list_elem_of_bind.
  apply list_elem_of_bind in Hr as (a & Hr & _).
  apply list_elem_of_bind in Hr as (k & Hr & _).
  apply list_elem_of_singleton in Hr as ->. done.
Qed.

(** The city criterion is applied first, and the category criteria only
    remove rows: whatever the category filters do, a café of the result
    passed the city criterion. *)
Lemma cafes_query_city city_arg best_arg also_arg s c :
  c ∈ cafes_query city_arg best_arg also_arg s →
  c ∈ cafes s
  ∧ (truthy city_arg = true →
     ilike (city c) ("%" ++ default "" city_arg ++ "%") = true).
Proof.
  intros Hin. unfold cafes_query in Hin.
  rewrite elem_of_remove_dups in Hin.
  set (q := if truthy city_arg
            then filter (λ c, ilike (city c) ("%" ++ default "" city_arg ++ "%") = true)
                        (cafes s)
            else cafes s) in Hin.
  assert (c ∈ q) as Hq.
  { destruct (truthy best_arg || truthy_list also_arg); [|done].
    apply list_elem_of_fmap in Hin as (r & -> & Hr).
    apply (join_categories_cafe s q r).
    destruct (truthy best_arg); destruct (truthy_list also_arg);
      repeat (apply list_elem_of_filter in Hr as [_ Hr]); done. }
  unfold q in Hq. destruct (truthy city_arg).
  - apply list_elem_of_filter in Hq as [Hlike Hq]. done.
  - done.
Qed.

Lemma get_cafes_inr city_arg best_arg also_arg s l s' :
  run (get_cafes city_arg best_arg also_arg) s = (inr l, s') →
  l = from_orm s <$> cafes_query city_arg best_arg also_arg s.
Proof.
  unfold run, get_cafes, query. unfold bind at 1.
  case_bool_decide as Hnames.
  - unfold bind at 1. case_bool_decide as Hmissing; [done|].
    simpl. by intros [= <- _].
  - simpl. by intros [= <- _].
Qed.




(** ** The recommender's documents *)

(** C3: the document of a café is not built from category names.  For
    café A of the spec's example, which has an additional category, joining
    the [Category] objects raises [TypeError]; for a café with a best
    category only, the document holds the repr of the [Category] object
    where the claim has its name.  (In [recommend_similar_cafes] the
    f-string is not even reached with its associations at hand: see
    C4.) *)
Theorem C3_document_not_built_from_names :
  document paris_store cafe_A = inl TypeError
  ∧ document wifi_only_store cafe_A
    = inr "calm place <Category(id=1, name='wifi')> "
  ∧ document_by_names wifi_only_store cafe_A = "calm place wifi "
  ∧ document_by_names paris_store cafe_A = "calm place wifi quiet".
Proof. repeat split; by vm_compute. Qed.

(** ** Recommendations *)

Lemma comprehension_document_unloaded c cs db :
  comprehension document_unloaded (c :: cs) db = (inl MissingGreenlet, db).
Proof. done. Qed.

(** What a recommendation request comes to: not-found for an id no café
    has; the empty list when the store holds that café alone; and
    otherwise [MissingGreenlet], raised when the document of the first
    café is built. *)
Lemma recommend_run cosine argsort cid s :
  run (recommend_similar_cafes cosine argsort cid) s
  = (match head (filter (λ c, cafe_id c = cid) (cafes s)) with
     | None => inl not_found
     | Some _ =>
         if bool_decide (length (cafes s) ≤ 1)%nat then inr []
         else inl MissingGreenlet
     end, s).
Proof.
  unfold run, recommend_similar_cafes, select_cafe_by_id, query.
  unfold bind at 1. simpl.
  destruct (head (filter (λ c, cafe_id c = cid) (cafes s))) as [target|]; [|done].
  unfold bind at 1. simpl.
  case_bool_decide as Hlen; [done|].
  destruct (cafes s) as [|c cs] eqn:Hcafes; [simpl in Hlen; lia|].
  unfold bind at 1. by rewrite comprehension_document_unloaded.
Qed.

(** C4: a recommendation request for a café of the store returns the
    empty list when that café is the only one, and otherwise returns
    nothing: with two or more cafés it raises [MissingGreenlet] and the
    store is unchanged, whatever the similarity and the sort are.  No
    result of at most three cafés ordered by similarity is ever
    produced. *)
Theorem C4_recommendation_raises_MissingGreenlet
    (cosine : list string → nat → nat → Q) (argsort : list Q → list nat)
    (s : Store) (cid : Z) :
  cid ∈ cafe_id <$> cafes s →
  run (recommend_similar_cafes cosine argsort cid) s
  = (if bool_decide (length (cafes s) ≤ 1)%nat then inr []
     else inl MissingGreenlet, s).
Proof.
  intros Hin. rewrite recommend_run.
  destruct (head (filter (λ c, cafe_id c = cid) (cafes s))) as [target|] eqn:Hhead;
    [done|].
  exfalso. apply head_None in Hhead.
  apply list_elem_of_fmap in Hin as (c & Hc & Hin).
  eapply (filter_nil_not_elem_of _ _ c); [apply Hhead|done|done].
Qed.

(** ** Equal scores *)


(** ** Instances on the sample stores *)

Lemma paris_store_invariant : store_invariant paris_store.
Proof.
  split; simpl.
  - apply (bool_decide_unpack _). by vm_compute.
  - intros a Ha. repeat (apply elem_of_cons in Ha as [->|Ha]); try by left.
    by apply elem_of_nil in Ha.
  - intros cid ->%list_elem_of_singleton. by vm_compute.
Qed.

Lemma C4_witness :
  1 ∈ cafe_id <$> cafes twins_store
  ∧ run (recommend_similar_cafes sample_cosine stable_argsort 1) twins_store
    = (inl MissingGreenlet, twins_store).
Proof.
  split; [by left|].
  apply (C4_recommendation_raises_MissingGreenlet sample_cosine stable_argsort
           twins_store 1).
  by left.
Defined.

Lemma C5_witness :
  store_invariant paris_store
  ∧ ∃ s',
      run (handler sample_cosine stable_argsort (CreateCafe quiet_then_wifi))
          paris_store = (inl MissingGreenlet, s')
      ∧ store_invariant s'
      ∧ 2 ∈ cafe_id <$> cafes s'
      ∧ one_best s' 2
      ∧ best_not_repeated s' 2.
Proof.
  split; [apply paris_store_invariant|].
  eexists. split; [by vm_compute|].
  destruct (C5_association_invariant sample_cosine stable_argsort paris_store
              (CreateCafe quiet_then_wifi) _ _ paris_store_invariant eq_refl)
    as (Hinv & _ & Hwritten).
  split; [exact Hinv|]. exact (Hwritten 2 eq_refl eq_refl).
Defined.

Lemma C7_witness :
  ∃ s',
    run (update_cafe 1 quiet_then_wifi) paris_store = (inl MissingGreenlet, s')
    ∧ assoc_data <$> category_associations s' (updated_cafe_row 1 quiet_then_wifi)
      = [(1, 2, true); (1, 1, false)]
    ∧ filter (λ a, assoc_cafe_id a ≠ 1) (cafe_categories s')
      = filter (λ a, assoc_cafe_id a ≠ 1) (cafe_categories paris_store).
Proof.
  eexists. split; [by vm_compute|].
  destruct (C7_update_replaces_association_set paris_store 1 quiet_then_wifi
              _ eq_refl) as (kb & ks & _ & _ & _ & Hframe).
  split; [by vm_compute|]. exact Hframe.
Defined.

Lemma C8_witness :
  (∃ l,
     run (get_cafes None (Some "zz") (Some ["wifi"; "qq"])) paris_store
     = (inl (HTTPException 400 ("Categories do not exist: " ++ join ", " l)),
        paris_store)
     ∧ NoDup l
     ∧ ∀ m, m ∈ l ↔ (m ∈ filter_category_names (Some "zz") (Some ["wifi"; "qq"])
                     ∧ m ∉ category_name <$> categories paris_store))
  ∧ run (create_cafe two_unknown) paris_store
    = (inl (HTTPException 400 "Category zz does not exist"), paris_store)
  ∧ run (update_cafe 1 two_unknown) paris_store
    = (inl (HTTPException 400 "Category zz does not exist"), paris_store)
  ∧ run (update_cafe 7 two_unknown) paris_store
    = (inl (HTTPException 404 "Cafe not found"), paris_store).
Proof.
  destruct (C8_unknown_category_names paris_store) as (Hlist & Hcreate & Hupdate).
  split; [|split; [|split]].
  - apply (Hlist None (Some "zz") (Some ["wifi"; "qq"]) "zz").
    + apply (bool_decide_unpack _). by vm_compute.
    + apply (bool_decide_unpack _). by vm_compute.
  - apply (Hcreate two_unknown "zz"). by vm_compute.
  - apply (Hupdate 1 two_unknown "zz"). by vm_compute.
  - apply (Hupdate 7 two_unknown "zz"). by vm_compute.
Defined.

(** * Further properties of the endpoints *)

(** ** Deleting cafés *)

Lemma filter_same_cafe (cid : Z) (l : list CafeCategory) :
  filter (λ a, assoc_cafe_id a = cid) (filter (λ a, assoc_cafe_id a ≠ cid) l) = [].
Proof.
  apply filter_none, Forall_forall. intros a Ha.
  by apply list_elem_of_filter in Ha as [Ha _].
Qed.

Lemma head_filter_id_None (cid : Z) (cs : list Cafe) :
  head (filter (λ c, cafe_id c = cid) cs) = None ↔ cid ∉ cafe_id <$> cs.
Proof.
  rewrite head_None. split.
  - intros Hnil (c & -> & Hc)%list_elem_of_fmap.
    eapply (filter_nil_not_elem_of _ _ c); [apply Hnil|done|done].
  - intros Hnot. apply filter_none, Forall_forall. intros c Hc Hid.
    apply Hnot. rewrite <- Hid. by apply list_elem_of_fmap_2.
Qed.

Lemma recommend_absent cosine argsort cid s :
  head (filter (λ c, cafe_id c = cid) (cafes s)) = None →
  run (recommend_similar_cafes cosine argsort cid) s = (inl not_found, s).
Proof.
  intros Hnone. unfold run, recommend_similar_cafes, select_cafe_by_id, query.
  unfold bind at 1. simpl. by rewrite Hnone.
Qed.

(** X1: a successful delete removes the café row with that id and every
    association row of that café, and nothing else: the category table is
    untouched, and the other café rows and association rows stay, in
    their order. *)
Theorem X1_delete_removes_cafe_and_associations s cid msg s' :
  run (delete_cafe cid) s = (inr msg, s') →
  cid ∈ cafe_id <$> cafes s
  ∧ (cid ∉ cafe_id <$> cafes s')
  ∧ (cid ∉ assoc_cafe_id <$> cafe_categories s')
  ∧ categories s' = categories s
  ∧ cafes s' = filter (λ c, cafe_id c ≠ cid) (cafes s)
  ∧ cafe_categories s' = filter (λ a, assoc_cafe_id a ≠ cid) (cafe_categories s).
Proof.
  rewrite delete_cafe_run.
  destruct (head (filter (λ c, cafe_id c = cid) (cafes s))) as [c|] eqn:Hc;
    [|done].
  intros [= <- <-]. simpl.
  apply head_filter_Some in Hc as [Hid Hin].
  split; [rewrite <- Hid; by apply list_elem_of_fmap_2|].
  split.
  { intros (c' & -> & [Hne _]%list_elem_of_filter)%list_elem_of_fmap. done. }
  split; [|done].
  intros (a & -> & [Hne _]%list_elem_of_filter)%list_elem_of_fmap. done.
Qed.

Lemma X1_witness :
  ∃ s', run (delete_cafe 1) paris_store = (inr "Cafe deleted", s')
        ∧ cafes s' = [] ∧ cafe_categories s' = []
        ∧ categories s' = categories paris_store.
Proof.
  eexists. split; [by vm_compute|].
  destruct (X1_delete_removes_cafe_and_associations paris_store 1 _ _ eq_refl)
    as (_ & _ & _ & Hcat & Hcafes & Hassoc).
  split; [by vm_compute|]. split; [by vm_compute|]. exact Hcat.
Defined.

Lemma get_cafes_from_store c b a s l s' r :
  run (get_cafes c b a) s = (inr l, s') → r ∈ l →
  ∃ c0, c0 ∈ cafes s ∧ r = from_orm s c0.
Proof.
  intros ->%get_cafes_inr (c0 & -> & Hc0)%list_elem_of_fmap.
  exists c0. split; [|done]. by apply cafes_query_city in Hc0 as [? _].
Qed.

(** X2: once a café is deleted, its id is unknown to the service: deleting
    it again, updating it and asking for its recommendations all fail with
    404 "Cafe not found" and leave the store as it is, and no listing
    returns a café with that id. *)
Theorem X2_deleted_cafe_is_not_found
    (cosine : list string → nat → nat → Q) (argsort : list Q → list nat)
    s cid msg s' :
  run (delete_cafe cid) s = (inr msg, s') →
  run (delete_cafe cid) s' = (inl (HTTPException 404 "Cafe not found"), s')
  ∧ (∀ cafe, run (update_cafe cid cafe) s'
             = (inl (HTTPException 404 "Cafe not found"), s'))
  ∧ run (recommend_similar_cafes cosine argsort cid) s'
    = (inl (HTTPException 404 "Cafe not found"), s')
  ∧ (∀ c b a l s'', run (get_cafes c b a) s' = (inr l, s'') →
       cid ∉ resp_id <$> l).
Proof.
  rewrite delete_cafe_run.
  destruct (head (filter (λ c, cafe_id c = cid) (cafes s))) as [c0|] eqn:Hc;
    [|done].
  intros [= <- <-].
  set (s' := mkStore (categories s) (filter (λ c, cafe_id c ≠ cid) (cafes s))
                     (filter (λ a, assoc_cafe_id a ≠ cid) (cafe_categories s))).
  assert (cid ∉ cafe_id <$> cafes s') as Hgone.
  { intros (c' & -> & [Hne _]%list_elem_of_filter)%list_elem_of_fmap. done. }
  assert (head (filter (λ c, cafe_id c = cid) (cafes s')) = None) as Hnone
    by (by apply head_filter_id_None).
  split; [by rewrite delete_cafe_run, Hnone|].
  split; [intros cafe; by apply update_cafe_absent|].
  split; [by apply recommend_absent|].
  intros c b a l s'' Hrun (r & Hid & Hr)%list_elem_of_fmap.
  destruct (get_cafes_from_store c b a s' l s'' r Hrun Hr) as (c' & Hc' & ->).
  apply Hgone. rewrite Hid. simpl. by apply list_elem_of_fmap_2.
Qed.

Lemma X2_witness :
  ∃ s', run (delete_cafe 1) paris_store = (inr "Cafe deleted", s')
        ∧ run (delete_cafe 1) s' = (inl (HTTPException 404 "Cafe not found"), s')
        ∧ run (update_cafe 1 quiet_then_wifi) s'
          = (inl (HTTPException 404 "Cafe not found"), s').
Proof.
  eexists. split; [by vm_compute|].
  destruct (X2_deleted_cafe_is_not_found sample_cosine stable_argsort
              paris_store 1 _ _ eq_refl) as (Hdel & Hupd & _).
  split; [exact Hdel|]. exact (Hupd quiet_then_wifi).
Defined.

(** X3: an id that no café row carries is unknown to the service: delete,
    update (whatever the request body, even one with unknown category
    names) and recommendations fail with 404 "Cafe not found", and the
    store is unchanged. *)
Theorem X3_unknown_id_not_found
    (cosine : list string → nat → nat → Q) (argsort : list Q → list nat) s cid :
  cid ∉ cafe_id <$> cafes s →
  run (delete_cafe cid) s = (inl (HTTPException 404 "Cafe not found"), s)
  ∧ (∀ cafe, run (update_cafe cid cafe) s
             = (inl (HTTPException 404 "Cafe not found"), s))
  ∧ run (recommend_similar_cafes cosine argsort cid) s
    = (inl (HTTPException 404 "Cafe not found"), s).
Proof.
  intros Hnone%head_filter_id_None.
  split; [by rewrite delete_cafe_run, Hnone|].
  split; [intros cafe; by apply update_cafe_absent|].
  by apply recommend_absent.
Qed.

Lemma X3_witness :
  (7 ∉ cafe_id <$> cafes paris_store)
  ∧ run (delete_cafe 7) paris_store
    = (inl (HTTPException 404 "Cafe not found"), paris_store)
  ∧ run (update_cafe 7 two_unknown) paris_store
    = (inl (HTTPException 404 "Cafe not found"), paris_store).
Proof.
  assert (7 ∉ cafe_id <$> cafes paris_store) as Hnot.
  { apply (bool_decide_unpack _). by vm_compute. }
  split; [exact Hnot|].
  destruct (X3_unknown_id_not_found sample_cosine stable_argsort paris_store 7 Hnot)
    as (Hdel & Hupd & _).
  split; [exact Hdel|]. exact (Hupd two_unknown).
Defined.

(** ** Listing cafés *)

Lemma remove_dups_NoDup {A} `{!EqDecision A} (l : list A) :
  NoDup l → remove_dups l = l.
Proof.
  induction 1 as [|x l Hx Hl IH]; [done|].
  simpl. rewrite IH. by case_decide.
Qed.

Lemma get_cafes_eval c b a s :
  (∀ n, n ∈ filter_category_names b a → n ∈ category_name <$> categories s) →
  run (get_cafes c b a) s = (inr (from_orm s <$> cafes_query c b a s), s).
Proof.
  intros Hknown. unfold run, get_cafes, query. unfold bind at 1.
  case_bool_decide as Hnames; [|done].
  unfold bind at 1. cbn [pending].
  rewrite bool_decide_eq_false_2; [done|].
  intros Hmissing. apply Hmissing. apply elem_of_equiv_empty_L.
  intros n [Hn Hnot]%elem_of_difference. apply Hnot.
  rewrite elem_of_list_to_set. apply found_names. auto.
Qed.

Lemma cafes_query_category_filter c b a s :
  truthy b || truthy_list a = true → cafes_query c b a s = [].
Proof.
  intros Hcat. apply elem_of_nil_inv. intros c0.
  by apply cafes_query_no_category.
Qed.

Lemma cafes_query_plain c b a s :
  truthy b = false → truthy_list a = false →
  cafes_query c b a s
  = remove_dups
      (if truthy c
       then filter (λ c0, ilike (city c0) ("%" ++ default "" c ++ "%") = true) (cafes s)
       else cafes s).
Proof. intros Hb Ha. unfold cafes_query. by rewrite Hb, Ha. Qed.

Lemma filter_category_names_plain b a :
  truthy b = false → truthy_list a = false → filter_category_names b a = ∅.
Proof.
  intros Hb Ha. unfold filter_category_names. rewrite Hb, Ha.
  apply (left_id_L ∅ (∪)).
Qed.

(** X4: whenever a best_for name or also_good_for names are supplied and
    all of them exist in the Category Store, the listing is empty, whatever
    the store holds: the [is_best] criteria are the constant false. *)
Theorem X4_category_filter_returns_nothing c b a s :
  truthy b || truthy_list a = true →
  (∀ n, n ∈ filter_category_names b a → n ∈ category_name <$> categories s) →
  run (get_cafes c b a) s = (inr [], s).
Proof.
  intros Hcat Hknown.
  by rewrite get_cafes_eval, cafes_query_category_filter.
Qed.

Lemma X4_witness :
  run (get_cafes None (Some "wifi") None) paris_store = (inr [], paris_store)
  ∧ has_association paris_store cafe_A "wifi" true.
Proof.
  split.
  - apply X4_category_filter_returns_nothing; [done|].
    intros n Hn. apply (bool_decide_unpack _).
    assert (n = "wifi") as ->; [|by vm_compute].
    unfold filter_category_names in Hn. simpl in Hn.
    apply elem_of_union in Hn as [Hn|Hn]; [by apply elem_of_singleton in Hn|].
    by apply not_elem_of_empty in Hn.
  - exists (mkCafeCategory 1 1 1 true), wifi.
    split; [apply list_elem_of_here|]. split; [done|].
    split; [apply list_elem_of_here|]. done.
Defined.

(** X5: with no filter at all (arguments absent, or the empty string or
    list), the listing holds one response per café row, in table order,
    provided no two café rows carry the same id. *)
Theorem X5_unfiltered_listing_is_complete c b a s :
  truthy c = false → truthy b = false → truthy_list a = false →
  NoDup (cafe_id <$> cafes s) →
  run (get_cafes c b a) s = (inr (from_orm s <$> cafes s), s).
Proof.
  intros Hc Hb Ha Hnd.
  rewrite get_cafes_eval.
  - rewrite cafes_query_plain, Hc by done.
    by rewrite remove_dups_NoDup by (by eapply NoDup_fmap_1).
  - intros n. rewrite filter_category_names_plain by done.
    intros Hn. by apply not_elem_of_empty in Hn.
Qed.

Lemma X5_witness :
  run (get_cafes (Some "") None (Some [])) twins_store
  = (inr [from_orm twins_store cafe_A; from_orm twins_store cafe_B], twins_store).
Proof.
  apply (X5_unfiltered_listing_is_complete (Some "") None (Some []) twins_store);
    try done.
  apply (bool_decide_unpack _). by vm_compute.
Defined.

Lemma like_percent_cons q d x :
  like (String "%" q) (String d x)
  = like q (String d x) || like (String "%" q) x.
Proof. reflexivity. Qed.

Lemma like_percent_any q x y :
  like q y = true → like (String "%" q) (x ++ y) = true.
Proof.
  intros Hy. induction x as [|d x IH].
  - change ("" ++ y) with y. rewrite like_percent. by rewrite Hy.
  - change (String d x ++ y) with (String d (x ++ y)).
    rewrite like_percent_cons, IH. apply orb_true_r.
Qed.

Lemma like_trailing_percent y : like "%" y = true.
Proof.
  induction y as [|d y IH]; [done|].
  rewrite like_percent_cons, IH. apply orb_true_r.
Qed.

(** A pattern followed by [%] matches every text that starts with the
    pattern, letter case ignored, wildcards in the pattern or not. *)
Lemma prefix_like p y :
  String.prefix (lower_string p) (lower_string y) = true →
  like (p ++ "%") y = true.
Proof.
  revert y. induction p as [|c p IH]; intros y Hpre.
  - apply like_trailing_percent.
  - destruct y as [|d y]; [done|].
    change (lower_string (String c p)) with (String (lower c) (lower_string p)) in Hpre.
    change (lower_string (String d y)) with (String (lower d) (lower_string y)) in Hpre.
    simpl in Hpre. destruct (ascii_dec (lower c) (lower d)) as [Hcd|]; [|done].
    apply IH in Hpre.
    change (String c p ++ "%") with (String c (p ++ "%")).
    destruct (Ascii.eqb c "%") eqn:Hc1.
    + apply Ascii.eqb_eq in Hc1 as ->.
      apply (like_percent_any _ (String d "") y Hpre).
    + simpl. rewrite Hc1. destruct (Ascii.eqb c "_") eqn:Hc2; [done|].
      rewrite Hpre, Hcd, Ascii.eqb_refl. done.
Qed.

Lemma contains_like p x :
  contains_ignoring_case p x = true → like ("%" ++ p ++ "%") x = true.
Proof.
  unfold contains_ignoring_case.
  change ("%" ++ p ++ "%") with (String "%" (p ++ "%")).
  induction x as [|d x IH].
  - change (lower_string "") with "". rewrite contains_nil, like_percent.
    intros Hpre. by rewrite (prefix_like p "" Hpre).
  - change (lower_string (String d x)) with (String (lower d) (lower_string x)).
    rewrite contains_cons, like_percent_cons. intros [Hpre|Hin]%orb_true_iff.
    + by rewrite (prefix_like p (String d x) Hpre).
    + rewrite (IH Hin). apply orb_true_r.
Qed.

(** X6: with a city text and no category filter, the listing returns every
    café whose city contains the text, letter case ignored; and if the
    text has no [%] and no [_], it returns those cafés only. *)
Theorem X6_city_filter_exact text b a s :
  text ≠ "" → truthy b = false → truthy_list a = false →
  ∃ l, run (get_cafes (Some text) b a) s = (inr l, s)
    ∧ (∀ c0, c0 ∈ cafes s → contains_ignoring_case text (city c0) = true →
         from_orm s c0 ∈ l)
    ∧ (has_wildcard text = false →
       ∀ r, r ∈ l →
         ∃ c0, c0 ∈ cafes s ∧ r = from_orm s c0
               ∧ contains_ignoring_case text (city c0) = true).
Proof.
  intros Htext Hb Ha.
  assert (truthy (Some text) = true) as Hc.
  { simpl. by rewrite bool_decide_eq_false_2. }
  eexists. split.
  { apply get_cafes_eval. intros n.
    rewrite filter_category_names_plain by done.
    intros Hn. by apply not_elem_of_empty in Hn. }
  rewrite cafes_query_plain, Hc by done. split.
  - intros c0 Hin Hcontains. apply list_elem_of_fmap_2.
    rewrite elem_of_remove_dups. apply list_elem_of_filter.
    split; [|done]. by apply contains_like.
  - intros Hw r (c0 & -> & Hc0)%list_elem_of_fmap.
    rewrite elem_of_remove_dups in Hc0.
    apply list_elem_of_filter in Hc0 as [Hlike Hin].
    exists c0. split; [done|]. split; [done|]. by apply like_contains.
Qed.

Lemma X6_witness :
  ∃ l, run (get_cafes (Some "LY") None None) twins_store = (inr l, twins_store)
    ∧ from_orm twins_store cafe_B ∈ l
    ∧ (∀ r, r ∈ l → ∃ c0, c0 ∈ cafes twins_store ∧ r = from_orm twins_store c0
                          ∧ contains_ignoring_case "LY" (city c0) = true).
Proof.
  destruct (X6_city_filter_exact "LY" None None twins_store) as (l & Hrun & Hall & Honly);
    [done|done|done|].
  exists l. split; [exact Hrun|]. split.
  - apply Hall; [by right; left|by vm_compute].
  - by apply Honly.
Defined.

(** ** What a write returns *)

Lemma filter_key_unique {A B} `{!EqDecision B} (f : A → B) (l : list A) x :
  NoDup (f <$> l) → x ∈ l → filter (λ y, f y = f x) l = [x].
Proof.
  induction l as [|y l IH]; intros Hnd Hx; [by apply elem_of_nil in Hx|].
  rewrite fmap_cons in Hnd. apply NoDup_cons in Hnd as [Hy Hnd].
  apply elem_of_cons in Hx as [->|Hx].
  - rewrite filter_cons_True by done. f_equal.
    apply filter_none, Forall_forall. intros z Hz Heq.
    apply Hy. rewrite <- Heq. by apply list_elem_of_fmap_2.
  - rewrite filter_cons_False; [by apply IH|].
    intros Heq. apply Hy. rewrite Heq. by apply list_elem_of_fmap_2.
Qed.

Lemma category_of s a kb :
  NoDup (category_id <$> categories s) →
  kb ∈ categories s →
  assoc_category_id a = category_id kb →
  category s a = Some kb.
Proof.
  intros Hnd Hkb Hid. unfold category. rewrite Hid.
  by rewrite (filter_key_unique category_id _ kb Hnd Hkb).
Qed.

Lemma omap_cons_Some {A B} (f : A → option B) x l y :
  f x = Some y → omap f (x :: l) = y :: omap f l.
Proof. intros Hx. simpl. by rewrite Hx. Qed.

Lemma also_rows_names s cid names ks rest :
  NoDup (category_id <$> categories s) →
  Forall2 (λ n k, k ∈ categories s ∧ category_name k = n) names ks →
  assoc_data <$> rest = (λ k, (cid, category_id k, false)) <$> ks →
  omap (λ a, category_name <$> category s a) rest = names.
Proof.
  intros Hnd Hks. revert rest.
  induction Hks as [|n k names ks [Hk Hn] Hks IH]; intros rest Hdata.
  - apply fmap_nil_inv in Hdata as ->. done.
  - destruct rest as [|a rest]; [done|].
    rewrite !fmap_cons in Hdata. unfold assoc_data at 1 in Hdata.
    injection Hdata as _ Hid _ Hrest.
    rewrite (omap_cons_Some _ a rest n), (IH rest Hrest); [done|].
    by rewrite (category_of s a k Hnd Hk Hid), <- Hn.
Qed.

Lemma from_orm_written s s' c cid cafe kb ks rows :
  categories s' = categories s →
  NoDup (category_id <$> categories s) →
  resolved s cafe kb ks →
  category_associations s' c = rows →
  written_rows cid kb ks rows →
  from_orm s' c
  = mkCafeResponse (cafe_id c) (title c) (city c) (description c) (image_url c)
      (Some (new_best_for cafe)) (new_also_good_for cafe).
Proof.
  intros Hcat Hnd (Hkb & Hbest & Hks)%resolved_in_store Hassoc Hrows.
  apply written_rows_inv in Hrows as (r & rest & -> & Hr & Hrest).
  pose proof (also_rows_data _ _ _ Hrest) as Hfalse.
  unfold assoc_data in Hr. injection Hr as _ Hrid Hrbest.
  assert (category s' = category s) as Hcategory.
  { unfold category. by rewrite Hcat. }
  assert (filter (λ a, is_best a = true) (r :: rest) = [r]) as Hbests.
  { rewrite filter_cons_True by done. f_equal. apply filter_none.
    eapply Forall_impl; [apply Hfalse|]. intros a [_ Ha]. by rewrite Ha. }
  assert (filter (λ a, is_best a = false) (r :: rest) = rest) as Hothers.
  { rewrite filter_cons_False by (by rewrite Hrbest). apply filter_all.
    eapply Forall_impl; [apply Hfalse|]. by intros a [_ ?]. }
  assert (omap (λ a, category_name <$> category s a) [r] = [new_best_for cafe])
    as Hbestname.
  { rewrite (omap_cons_Some _ r [] (new_best_for cafe)); [done|].
    by rewrite (category_of s r kb Hnd Hkb Hrid), <- Hbest. }
  unfold from_orm. rewrite Hassoc, Hcategory, Hbests, Hothers, Hbestname.
  by rewrite (also_rows_names s cid _ ks rest Hnd Hks Hrest).
Qed.

Lemma created_associations s cafe rows :
  (∀ a, a ∈ cafe_categories s → assoc_cafe_id a ∈ cafe_id <$> cafes s) →
  Forall (λ r, assoc_cafe_id r = next_id (cafe_id <$> cafes s)) rows →
  category_associations
    (with_associations
       (mkStore (categories s) (cafes s ++ [new_cafe_row s cafe]) (cafe_categories s))
       rows)
    (new_cafe_row s cafe) = rows.
Proof.
  intros Hfk Hrows. unfold category_associations. simpl.
  rewrite filter_app, (filter_all _ rows Hrows), filter_none; [done|].
  apply Forall_forall. intros a Ha Heq.
  apply (next_id_fresh (cafe_id <$> cafes s)). rewrite <- Heq. by apply Hfk.
Qed.

(** X7: no create request returns a response.  Every run of
    [create_cafe] ends in an exception: [MissingGreenlet] when the café
    was written, and then the café row is in the store (the exception
    comes after the commit); any other exception leaves the store as it
    was. *)
Theorem X7_create_returns_no_response s cafe r s' :
  run (create_cafe cafe) s = (r, s') →
  ∃ e, r = inl e
    ∧ (e = MissingGreenlet →
         cafes s' = (cafes s ++ [new_cafe_row s cafe])%list)
    ∧ (e ≠ MissingGreenlet → s' = s).
Proof.
  intros Hrun. destruct r as [e|resp].
  - exists e. split; [done|]. split.
    + intros ->. by apply create_cafe_committed in Hrun
        as (kb & ks & rows & _ & _ & _ & -> & _).
    + intros Hne. by eapply create_cafe_refused.
  - by apply create_cafe_raises in Hrun as [e [=]].
Qed.

Lemma X7_witness :
  ∃ e s',
    run (create_cafe quiet_then_wifi) paris_store = (inl e, s')
    ∧ e = MissingGreenlet
    ∧ cafes s' = [mkCafe 1 "A" "Paris" "calm place" None; mkCafe 2 "B" "Paris" "d" None].
Proof.
  eexists _, _. split; [by vm_compute|].
  destruct (X7_create_returns_no_response paris_store quiet_then_wifi _ _ eq_refl)
    as (e & He & Hwritten & _).
  injection He as <-. split; [done|]. exact (Hwritten eq_refl).
Defined.

(** X8: no update request returns a response.  Every run of
    [update_cafe] ends in an exception: [MissingGreenlet] when the update
    was written, and then the café of that id exists and its row holds
    the request's data; any other exception leaves the store as it
    was. *)
Theorem X8_update_returns_no_response s cid cafe r s' :
  run (update_cafe cid cafe) s = (r, s') →
  ∃ e, r = inl e
    ∧ (e = MissingGreenlet →
         cid ∈ cafe_id <$> cafes s
         ∧ cafes s' = set_cafe cid cafe (cafes s))
    ∧ (e ≠ MissingGreenlet → s' = s).
Proof.
  intros Hrun. destruct r as [e|resp].
  - exists e. split; [done|]. split.
    + intros ->. apply update_cafe_committed in Hrun
        as (db_cafe & kb & ks & rows & Hsome & _ & _ & -> & _).
      apply head_filter_Some in Hsome as [Hid Hin].
      split; [|done]. rewrite <- Hid. by apply list_elem_of_fmap_2.
    + intros Hne. by eapply update_cafe_refused.
  - by apply update_cafe_raises in Hrun as [e [=]].
Qed.

Lemma X8_witness :
  ∃ e s',
    run (update_cafe 1 quiet_then_wifi) paris_store = (inl e, s')
    ∧ e = MissingGreenlet
    ∧ cafes s' = [mkCafe 1 "B" "Paris" "d" None].
Proof.
  eexists _, _. split; [by vm_compute|].
  destruct (X8_update_returns_no_response paris_store 1 quiet_then_wifi _ _ eq_refl)
    as (e & He & Hwritten & _).
  injection He as <-. split; [done|]. exact (proj2 (Hwritten eq_refl)).
Defined.

(** ** Writes and the listing *)

Lemma get_cafes_lists c b a s c0 :
  truthy b = false → truthy_list a = false →
  c0 ∈ cafes s →
  (truthy c = true → contains_ignoring_case (default "" c) (city c0) = true) →
  ∃ l, run (get_cafes c b a) s = (inr l, s) ∧ from_orm s c0 ∈ l.
Proof.
  intros Hb Ha Hin Hcity. eexists. split.
  { apply get_cafes_eval. intros n.
    rewrite filter_category_names_plain by done.
    intros Hn. by apply not_elem_of_empty in Hn. }
  apply list_elem_of_fmap_2. rewrite cafes_query_plain by done.
  rewrite elem_of_remove_dups. destruct (truthy c); [|done].
  apply list_elem_of_filter. split; [|done]. by apply contains_like, Hcity.
Qed.

(** X9: a café whose create or update went through is found by the
    listing, with the data of the request: a query without category
    filter, with no city text or with any city text the café's new city
    contains, letter case ignored, returns the response that repeats the
    request's title, city, description, image, best_for name and
    also_good_for names in order, under the id that was written.  This
    holds when category ids are unique and every association row of the
    store belongs to a café of the store. *)
Theorem X9_written_cafe_is_listed s cafe cid s' c :
  NoDup (category_id <$> categories s) →
  (∀ a, a ∈ cafe_categories s → assoc_cafe_id a ∈ cafe_id <$> cafes s) →
  (truthy c = true →
   contains_ignoring_case (default "" c) (new_city cafe) = true) →
  (run (create_cafe cafe) s = (inl MissingGreenlet, s')
   ∧ cid = next_id (cafe_id <$> cafes s)
   ∨ run (update_cafe cid cafe) s = (inl MissingGreenlet, s')) →
  ∃ l, run (get_cafes c None None) s' = (inr l, s')
       ∧ mkCafeResponse cid (new_title cafe) (new_city cafe) (new_description cafe)
           (new_image_url cafe) (Some (new_best_for cafe)) (new_also_good_for cafe)
         ∈ l.
Proof.
  intros Hnd Hfk Hcity [[Hrun ->]|Hrun].
  - apply create_cafe_committed in Hrun
      as (kb & ks & rows & _ & _ & Hres & -> & Hrows & _ & _).
    simpl in Hrows.
    set (s1 := with_associations _ rows).
    assert (from_orm s1 (new_cafe_row s cafe)
            = mkCafeResponse (next_id (cafe_id <$> cafes s))
                (new_title cafe) (new_city cafe) (new_description cafe)
                (new_image_url cafe) (Some (new_best_for cafe))
                (new_also_good_for cafe)) as <-.
    { rewrite (from_orm_written s s1 (new_cafe_row s cafe)
                 (next_id (cafe_id <$> cafes s)) cafe kb ks rows); try done.
      apply created_associations; [done|]. by eapply written_rows_cafe_id. }
    apply get_cafes_lists; try done.
    simpl. apply elem_of_app. right. apply list_elem_of_here.
  - apply update_cafe_committed in Hrun
      as (db_cafe & kb & ks & rows & Hsome & _ & Hres & -> & Hrows & _).
    set (s1 := with_associations _ rows).
    assert (from_orm s1 (updated_cafe_row cid cafe)
            = mkCafeResponse cid
                (new_title cafe) (new_city cafe) (new_description cafe)
                (new_image_url cafe) (Some (new_best_for cafe))
                (new_also_good_for cafe)) as <-.
    { rewrite (from_orm_written s s1 (updated_cafe_row cid cafe) cid cafe kb ks rows);
        try done.
      unfold category_associations. simpl cafe_id.
      apply associations_cleared. by eapply written_rows_cafe_id. }
    apply get_cafes_lists; try done.
    apply head_filter_Some in Hsome as [Hid Hin].
    simpl. unfold set_cafe.
    apply (list_elem_of_fmap_2' _ _ db_cafe); [done|].
    by rewrite bool_decide_eq_true_2.
Qed.

Lemma X9_witness :
  ∃ s',
    run (create_cafe quiet_then_wifi) paris_store = (inl MissingGreenlet, s')
    ∧ ∃ l, run (get_cafes (Some "ari") None None) s' = (inr l, s')
           ∧ mkCafeResponse 2 "B" "Paris" "d" None (Some "quiet") ["wifi"] ∈ l.
Proof.
  eexists. split; [by vm_compute|].
  apply (X9_written_cafe_is_listed paris_store quiet_then_wifi 2 _ (Some "ari")).
  - apply (bool_decide_unpack _). by vm_compute.
  - apply paris_store_invariant.
  - by vm_compute.
  - left. split; by vm_compute.
Defined.

(** ** What a write leaves alone *)



Lemma set_cafe_other cid cafe cs :
  filter (λ c, cafe_id c ≠ cid) (set_cafe cid cafe cs)
  = filter (λ c, cafe_id c ≠ cid) cs.
Proof.
  induction cs as [|c cs IH]; [done|].
  unfold set_cafe in *. rewrite fmap_cons, !filter_cons, IH.
  case_bool_decide as Hc.
  - simpl. rewrite !decide_False by (intros Hne; by apply Hne). done.
  - rewrite !decide_True by done. done.
Qed.

(** X11: an update that went through rewrites the café row with the given
    id and no other: the category table is unchanged, the café ids are
    the same in the same order, the rows of other ids are unchanged, and
    the row of the given id now holds the request's title, city,
    description and image. *)
Theorem X11_update_rewrites_one_cafe_row s cid cafe s' :
  run (update_cafe cid cafe) s = (inl MissingGreenlet, s') →
  categories s' = categories s
  ∧ cafe_id <$> cafes s' = cafe_id <$> cafes s
  ∧ filter (λ c, cafe_id c ≠ cid) (cafes s') = filter (λ c, cafe_id c ≠ cid) (cafes s)
  ∧ (∀ c, c ∈ cafes s' → cafe_id c = cid → c = updated_cafe_row cid cafe)
  ∧ updated_cafe_row cid cafe ∈ cafes s'.
Proof.
  intros (db_cafe & kb & ks & rows & Hsome & _ & _ & -> & _ & _)%update_cafe_committed.
  apply head_filter_Some in Hsome as [Hid Hin]. simpl.
  split; [done|]. split; [apply set_cafe_ids|]. split; [apply set_cafe_other|].
  split.
  - intros c (c0 & -> & Hc0)%list_elem_of_fmap Hc.
    case_bool_decide as Hc0id; [done|]. done.
  - apply (list_elem_of_fmap_2' _ _ db_cafe); [done|].
    by rewrite bool_decide_eq_true_2.
Qed.

Lemma X11_witness :
  ∃ s',
    run (update_cafe 2 quiet_then_wifi) twins_store = (inl MissingGreenlet, s')
    ∧ cafes s' = [cafe_A; updated_cafe_row 2 quiet_then_wifi].
Proof.
  eexists. split; [by vm_compute|].
  destruct (X11_update_rewrites_one_cafe_row twins_store 2 quiet_then_wifi _ eq_refl)
    as (_ & _ & _ & _ & _).
  by vm_compute.
Defined.

(** ** Key constraints of the café table *)

Lemma update_cafe_key_free s cid cafe s' :
  run (update_cafe cid cafe) s = (inl MissingGreenlet, s') →
  (new_title cafe, new_city cafe)
    ∉ cafe_key <$> filter (λ r, cafe_id r ≠ cid) (cafes s).
Proof.
  unfold run, update_cafe, select_cafe_by_id, query.
  unfold bind at 1. simpl.
  destruct (head (filter (λ c, cafe_id c = cid) (cafes s))) as [db_cafe|] eqn:Hsome;
    [|done].
  pose proof (head_filter_Some _ _ _ Hsome) as [Hid _].
  unfold select_categories_in, query. unfold bind at 1. simpl.
  unfold bind at 1. rewrite check_names_store.
  destruct (head (missing_names s (names_of cafe))) as [n|]; [done|].
  unfold try_except_IntegrityError, bind at 1, update_cafe_row. simpl.
  rewrite Hid. case_bool_decide as Hkey; [|done].
  unfold bind, rollback, raise. simpl. done.
Qed.

Lemma set_cafe_absent cid cafe cs :
  cid ∉ cafe_id <$> cs → set_cafe cid cafe cs = cs.
Proof.
  intros Hnot. unfold set_cafe. rewrite <- (list_fmap_id cs) at 2.
  apply list_fmap_ext. intros i c Hc. simpl.
  rewrite bool_decide_eq_false_2; [done|].
  intros Hid. apply Hnot. rewrite <- Hid.
  apply list_elem_of_fmap_2. by eapply list_elem_of_lookup_2.
Qed.

Lemma set_cafe_keys cid cafe cs :
  NoDup (cafe_id <$> cs) →
  NoDup (cafe_key <$> cs) →
  (new_title cafe, new_city cafe) ∉ cafe_key <$> filter (λ r, cafe_id r ≠ cid) cs →
  NoDup (cafe_key <$> set_cafe cid cafe cs).
Proof.
  induction cs as [|c cs IH]; intros Hids Hkeys Hfree; [constructor|].
  rewrite fmap_cons in Hids. rewrite fmap_cons in Hkeys.
  apply NoDup_cons in Hids as [Hid Hids]. apply NoDup_cons in Hkeys as [Hkey Hkeys].
  change (set_cafe cid cafe (c :: cs))
    with ((if bool_decide (cafe_id c = cid) then updated_cafe_row cid cafe else c)
          :: set_cafe cid cafe cs).
  rewrite filter_cons in Hfree. rewrite fmap_cons.
  case_bool_decide as Hc.
  - rewrite decide_False in Hfree by (intros Hne; by apply Hne).
    rewrite set_cafe_absent by (by rewrite <- Hc).
    constructor; [|done].
    intros Hin. apply Hfree.
    rewrite filter_all; [done|]. apply Forall_forall. intros r Hr Hrid.
    apply Hid. rewrite Hc, <- Hrid. by apply list_elem_of_fmap_2.
  - rewrite decide_True in Hfree by done.
    rewrite fmap_cons in Hfree. apply not_elem_of_cons in Hfree as [Hne Hfree].
    constructor; [|by apply IH].
    intros (r & Hr & Hin)%list_elem_of_fmap.
    apply list_elem_of_fmap in Hin as (r0 & -> & Hr0).
    case_bool_decide as Hr0id.
    + apply Hne. by rewrite Hr.
    + apply Hkey. rewrite Hr. by apply list_elem_of_fmap_2.
Qed.

(** X12: no operation of the service touches the category table, and
    every operation keeps the key constraints of the café table: if no two
    café rows share an id and no two share a (title, city) pair before
    the request, the same holds after it, whatever the request and its
    outcome. *)
Theorem X12_cafe_keys_stay_unique
    (cosine : list string → nat → nat → Q) (argsort : list Q → list nat)
    (s : Store) (op : operation) r s' :
  cafe_keys_unique s →
  run (handler cosine argsort op) s = (r, s') →
  cafe_keys_unique s' ∧ categories s' = categories s.
Proof.
  intros [Hids Hkeys] Hrun.
  destruct op as [c b a|cafe|cid cafe|cid|cid|]; simpl in Hrun.
  - assert (s' = s) as -> by (eapply run_read_only, Hrun; apply read_only_get_cafes).
    done.
  - rewrite run_fmap_session in Hrun.
    destruct (run (create_cafe cafe) s) as [[e|resp0] s1] eqn:Hcreate;
      simpl in Hrun; injection Hrun as <- <-.
    + destruct (decide (e = MissingGreenlet)) as [->|Hne];
        [|by apply create_cafe_refused in Hcreate as ->].
      apply create_cafe_committed in Hcreate
        as (kb & ks & rows & _ & Hfree & _ & -> & _ & _ & _).
      split; [|done]. split; simpl; rewrite fmap_app; apply NoDup_app.
      * split; [done|]. split; [|apply NoDup_singleton].
        intros x Hx ->%list_elem_of_singleton.
        by apply (next_id_fresh (cafe_id <$> cafes s)).
      * split; [done|]. split; [|apply NoDup_singleton].
        intros x Hx ->%list_elem_of_singleton. by apply Hfree.
    + by apply create_cafe_raises in Hcreate as [e [=]].
  - rewrite run_fmap_session in Hrun.
    destruct (run (update_cafe cid cafe) s) as [[e|resp0] s1] eqn:Hupdate;
      simpl in Hrun; injection Hrun as <- <-.
    + destruct (decide (e = MissingGreenlet)) as [->|Hne];
        [|by apply update_cafe_refused in Hupdate as ->].
      pose proof (update_cafe_key_free _ _ _ _ Hupdate) as Hfree.
      apply update_cafe_committed in Hupdate
        as (db_cafe & kb & ks & rows & _ & _ & _ & -> & _ & _).
      split; [|done]. split; simpl.
      * by rewrite set_cafe_ids.
      * by apply set_cafe_keys.
    + by apply update_cafe_raises in Hupdate as [e [=]].
  - rewrite run_fmap_session, delete_cafe_run in Hrun.
    destruct (head (filter (λ c, cafe_id c = cid) (cafes s)));
      simpl in Hrun; injection Hrun as <- <-; [|done].
    split; [|done]. split; simpl; by apply NoDup_fmap_filter.
  - assert (s' = s) as -> by (eapply run_read_only, Hrun; apply read_only_recommend).
    done.
  - assert (s' = s) as -> by (eapply run_read_only, Hrun; apply read_only_query).
    done.
Qed.

Lemma paris_store_keys : cafe_keys_unique paris_store.
Proof. split; apply (bool_decide_unpack _); by vm_compute. Qed.

Lemma X12_witness :
  cafe_keys_unique paris_store
  ∧ ∃ r s',
      run (handler sample_cosine stable_argsort (CreateCafe quiet_then_wifi))
          paris_store = (r, s')
      ∧ cafe_keys_unique s' ∧ categories s' = categories paris_store.
Proof.
  split; [apply paris_store_keys|].
  eexists _, _. split; [by vm_compute|].
  exact (X12_cafe_keys_stay_unique sample_cosine stable_argsort paris_store
           (CreateCafe quiet_then_wifi) _ _ paris_store_keys eq_refl).
Defined.

(** ** The derived views of a café and its response *)

Lemma omap_all_Some {A B} (g : A → option B) (l : list A) :
  Forall (λ a, is_Some (g a)) l → Some <$> omap g l = g <$> l.
Proof.
  induction 1 as [|a l [b Hb] Hl IH]; [done|].
  rewrite (omap_cons_Some g a l b Hb), !fmap_cons, IH. by rewrite Hb.
Qed.

(** X13: for a café all of whose association rows point to a category of
    the store, the response built by [CafeResponse.from_orm] names what
    the model's own derived views return: its best_for is the name of
    [Cafe.best_for] (absent when no row is flagged best), and its
    also_good_for lists the names of [Cafe.also_good_for] in order. *)
Theorem X13_response_names_derived_views s c :
  (∀ a, a ∈ category_associations s c → is_Some (category s a)) →
  resp_best_for (from_orm s c) = category_name <$> best_for s c
  ∧ Some <$> resp_also_good_for (from_orm s c)
    = fmap category_name <$> also_good_for s c.
Proof.
  intros Hfk. unfold from_orm, best_for, also_good_for. simpl. split.
  - destruct (filter (λ a, is_best a = true) (category_associations s c))
      as [|a l] eqn:Hbest; [done|].
    assert (a ∈ category_associations s c) as Ha.
    { assert (a ∈ a :: l) as Hin by left. rewrite <- Hbest in Hin.
      by apply list_elem_of_filter in Hin as [_ ?]. }
    destruct (Hfk a Ha) as [k Hk].
    rewrite (omap_cons_Some _ a l (category_name k)); [by rewrite Hk|].
    by rewrite Hk.
  - rewrite omap_all_Some.
    + by rewrite <- list_fmap_compose.
    + apply Forall_forall. intros a [_ Ha]%list_elem_of_filter.
      destruct (Hfk a Ha) as [k Hk]. rewrite Hk. by eexists.
Qed.

Lemma X13_witness :
  resp_best_for (from_orm paris_store cafe_A)
  = category_name <$> best_for paris_store cafe_A
  ∧ Some <$> resp_also_good_for (from_orm paris_store cafe_A)
    = fmap category_name <$> also_good_for paris_store cafe_A.
Proof.
  apply X13_response_names_derived_views.
  intros a Ha. unfold category_associations in Ha.
  apply list_elem_of_filter in Ha as [_ Ha]. simpl in Ha.
  repeat (apply elem_of_cons in Ha as [->|Ha]); try by eexists.
  by apply elem_of_nil in Ha.
Defined.

(** ** A category named twice in one request *)

(** X17: a create or update request whose best_for name is also among its
    also_good_for names never succeeds and never changes the store,
    whatever the store holds. *)
Theorem X17_duplicate_category_never_written s cafe :
  new_best_for cafe ∈ new_also_good_for cafe →
  (∃ e, run (create_cafe cafe) s = (inl e, s))
  ∧ (∀ cid, ∃ e, run (update_cafe cid cafe) s = (inl e, s)).
Proof.
  intros Hdup. split.
  - by apply create_cafe_duplicate_category.
  - intros cid. by apply update_cafe_duplicate_category.
Qed.

Lemma X17_witness :
  (∃ e, run (create_cafe wifi_twice) paris_store = (inl e, paris_store))
  ∧ (∀ cid, ∃ e, run (update_cafe cid wifi_twice) paris_store = (inl e, paris_store)).
Proof. apply X17_duplicate_category_never_written. left. Defined.

(** ** The response validator *)

Lemma omap_cons_None {A B} (f : A → option B) x l :
  f x = None → omap f (x :: l) = omap f l.
Proof. intros Hx. simpl. by rewrite Hx. Qed.

Lemma found_best_for_name_orm s (l : list CafeCategory) :
  found_best_for_name
    ((λ a, mkAssocView (Some (is_best a)) (category_name <$> category s a)) <$> l)
  = head (omap (λ a, category_name <$> category s a)
               (filter (λ a, is_best a = true) l)).
Proof.
  induction l as [|a l IH]; [done|].
  rewrite fmap_cons.
  cbn [found_best_for_name view_category_name view_is_best]. rewrite IH.
  destruct (is_best a) eqn:Hb.
  - rewrite filter_cons_True by done.
    destruct (category s a) as [k|] eqn:Hk.
    + by rewrite (omap_cons_Some _ a _ (category_name k)) by (by rewrite Hk).
    + by rewrite omap_cons_None by (by rewrite Hk).
  - rewrite filter_cons_False by (by rewrite Hb).
    by destruct (category s a).
Qed.

Lemma also_good_for_names_orm s (l : list CafeCategory) :
  also_good_for_names
    ((λ a, mkAssocView (Some (is_best a)) (category_name <$> category s a)) <$> l)
  = omap (λ a, category_name <$> category s a)
         (filter (λ a, is_best a = false) l).
Proof.
  induction l as [|a l IH]; [done|].
  rewrite fmap_cons.
  cbn [also_good_for_names view_category_name view_is_best]. rewrite IH.
  destruct (is_best a) eqn:Hb.
  - rewrite filter_cons_False by (by rewrite Hb).
    by destruct (category s a).
  - rewrite filter_cons_True by done.
    destruct (category s a) as [k|] eqn:Hk.
    + by rewrite (omap_cons_Some _ a _ (category_name k)) by (by rewrite Hk).
    + by rewrite omap_cons_None by (by rewrite Hk).
Qed.

(** X18: on a café loaded from the store, the two loops of
    [transform_category_objects_to_names] compute the best_for and
    also_good_for of the response: the name of the first association
    flagged best whose category exists, and the names of the associations
    not flagged best whose category exists, in order. *)
Theorem X18_validator_on_orm_cafe s c :
  transform_category_objects_to_names (orm_view s c)
  = (resp_best_for (from_orm s c), resp_also_good_for (from_orm s c)).
Proof.
  unfold transform_category_objects_to_names, orm_view, from_orm. simpl.
  by rewrite found_best_for_name_orm, also_good_for_names_orm.
Qed.

(** * Seeding *)

(** ** Dictionaries built from rows *)

Lemma foldl_insert_None {A K V} `{Countable K} (key : A → K) (val : A → V)
    (rows : list A) (m : gmap K V) k :
  foldl (λ m x, <[key x := val x]> m) m rows !! k = None
  ↔ m !! k = None ∧ k ∉ key <$> rows.
Proof.
  revert m. induction rows as [|x rows IH]; intros m; simpl.
  - split; [intros Hm; split; [done|apply not_elem_of_nil] | by intros [Hm _]].
  - rewrite IH, lookup_insert_None, not_elem_of_cons.
    split; [intros [[? ?] ?] | intros [? [? ?]]]; repeat split; auto.
Qed.

Lemma foldl_insert_Some {A K V} `{Countable K} (key : A → K) (val : A → V)
    (rows : list A) (m : gmap K V) k v :
  foldl (λ m x, <[key x := val x]> m) m rows !! k = Some v →
  m !! k = Some v ∨ ∃ x, x ∈ rows ∧ key x = k ∧ val x = v.
Proof.
  revert m. induction rows as [|x rows IH]; intros m; simpl; [by left|].
  intros Hv. apply IH in Hv as [Hv|(y & Hy & Hk & Hval)].
  - apply lookup_insert_Some in Hv as [[<- <-]|[_ Hv]]; [|by left].
    right. exists x. split; [apply list_elem_of_here|done].
  - right. exists y. split; [by apply list_elem_of_further|done].
Qed.

Lemma name_ids_None rows n :
  name_ids rows !! n = None ↔ n ∉ category_name <$> rows.
Proof.
  unfold name_ids. rewrite (foldl_insert_None category_name category_id).
  rewrite lookup_empty. tauto.
Qed.

Lemma name_ids_Some rows n i :
  name_ids rows !! n = Some i →
  ∃ k, k ∈ rows ∧ category_name k = n ∧ category_id k = i.
Proof.
  unfold name_ids. intros Hi.
  apply (foldl_insert_Some category_name category_id) in Hi as [Hi|Hi]; [|done].
  by rewrite lookup_empty in Hi.
Qed.

Lemma by_category_id_None rows cat :
  by_category_id rows !! cat = None ↔ cat ∉ assoc_category_id <$> rows.
Proof.
  unfold by_category_id. rewrite (foldl_insert_None assoc_category_id id).
  rewrite lookup_empty. tauto.
Qed.

Lemma by_category_id_Some rows cat a :
  by_category_id rows !! cat = Some a → a ∈ rows ∧ assoc_category_id a = cat.
Proof.
  unfold by_category_id. intros Ha.
  apply (foldl_insert_Some assoc_category_id id) in Ha as [Ha|(x & Hx & Hk & <-)];
    [by rewrite lookup_empty in Ha|done].
Qed.

(** ** What the seeding steps can raise and what they leave alone *)

Lemma roi_ret {A} (a : A) : raises_only_IntegrityError (ret a).
Proof. by intros db e db'. Qed.

Lemma roi_query {A} (f : Store → A) : raises_only_IntegrityError (query f).
Proof. by intros db e db'. Qed.

Lemma roi_bind {A B} (m : Session A) (k : A → Session B) :
  raises_only_IntegrityError m →
  (∀ a, raises_only_IntegrityError (k a)) →
  raises_only_IntegrityError (bind m k).
Proof.
  intros Hm Hk db e db'. unfold bind.
  destruct (m db) as [[e1|a] db1] eqn:Hrun.
  - intros [= <- <-]. by eapply Hm.
  - apply Hk.
Qed.

Lemma roi_for_each {A} (xs : list A) (body : A → Session unit) :
  (∀ x, x ∈ xs → raises_only_IntegrityError (body x)) →
  raises_only_IntegrityError (for_each xs body).
Proof.
  induction xs as [|x xs IH]; intros Hbody; simpl; [apply roi_ret|].
  apply roi_bind; [apply Hbody; left|].
  intros _. apply IH. intros y Hy. apply Hbody. by right.
Qed.

Lemma roi_subscript {K V} `{Countable K} (d : gmap K V) key :
  is_Some (d !! key) → raises_only_IntegrityError (subscript d key).
Proof. intros [v Hv]. unfold subscript. rewrite Hv. apply roi_ret. Qed.

Lemma roi_subscripts {K V} `{Countable K} (d : gmap K V) keys :
  (∀ key, key ∈ keys → is_Some (d !! key)) →
  raises_only_IntegrityError (subscripts d keys).
Proof.
  induction keys as [|key keys IH]; intros Hkeys; simpl; [apply roi_ret|].
  apply roi_bind; [apply roi_subscript, Hkeys; left|]. intros v.
  apply roi_bind; [apply IH; intros k Hk; apply Hkeys; by right|].
  intros vs. apply roi_ret.
Qed.

Lemma roi_insert_cafe_category cid kid b :
  raises_only_IntegrityError (insert_cafe_category cid kid b).
Proof.
  intros db e db' Hrun. by apply insert_cafe_category_inl in Hrun as [-> _].
Qed.

Lemma roi_insert_cafe t c d img : raises_only_IntegrityError (insert_cafe t c d img).
Proof.
  intros db e db'. unfold insert_cafe. case_bool_decide; [|done].
  by intros [= <- _].
Qed.

Lemma roi_insert_category name : raises_only_IntegrityError (insert_category name).
Proof.
  intros db e db'. unfold insert_category. case_bool_decide; [|done].
  by intros [= <- _].
Qed.

Lemma kc_ret {A} (a : A) : keeps_categories (ret a).
Proof. intros db r db' [= <- <-]. done. Qed.

Lemma kc_raise {A} e : keeps_categories (@raise A e).
Proof. intros db r db' [= <- <-]. done. Qed.

Lemma kc_query {A} (f : Store → A) : keeps_categories (query f).
Proof. intros db r db' [= <- <-]. done. Qed.

Lemma kc_bind {A B} (m : Session A) (k : A → Session B) :
  keeps_categories m → (∀ a, keeps_categories (k a)) → keeps_categories (bind m k).
Proof.
  intros Hm Hk db r db'. unfold bind.
  destruct (m db) as [[e|a] db1] eqn:Hrun.
  - intros [= <- <-]. by eapply Hm.
  - intros Hk'. apply Hk in Hk' as [-> ->]. by eapply Hm.
Qed.

Lemma kc_for_each {A} (xs : list A) (body : A → Session unit) :
  (∀ x, keeps_categories (body x)) → keeps_categories (for_each xs body).
Proof.
  intros Hbody. induction xs as [|x xs IH]; simpl; [apply kc_ret|].
  apply kc_bind; [apply Hbody|]. intros _. apply IH.
Qed.

Lemma kc_subscript {K V} `{Countable K} (d : gmap K V) key :
  keeps_categories (subscript d key).
Proof. unfold subscript. destruct (d !! key); [apply kc_ret|apply kc_raise]. Qed.

Lemma kc_subscripts {K V} `{Countable K} (d : gmap K V) keys :
  keeps_categories (subscripts d keys).
Proof.
  induction keys as [|key keys IH]; simpl; [apply kc_ret|].
  apply kc_bind; [apply kc_subscript|]. intros v.
  apply kc_bind; [apply IH|]. intros vs. apply kc_ret.
Qed.

Lemma kc_insert_cafe_category cid kid b :
  keeps_categories (insert_cafe_category cid kid b).
Proof.
  intros db r db'. unfold insert_cafe_category.
  case_bool_decide; by intros [= <- <-].
Qed.

Lemma kc_insert_cafe t c d img : keeps_categories (insert_cafe t c d img).
Proof.
  intros db r db'. unfold insert_cafe. case_bool_decide; by intros [= <- <-].
Qed.

Lemma kc_set_cafe_details cid d img : keeps_categories (set_cafe_details cid d img).
Proof. intros db r db' [= <- <-]. done. Qed.

Lemma kc_set_is_best aid b : keeps_categories (set_is_best aid b).
Proof. intros db r db' [= <- <-]. done. Qed.

Lemma kc_unawaited {A} (m : Session A) : keeps_categories (unawaited m).
Proof. apply kc_ret. Qed.

Lemma roi_unawaited {A} (m : Session A) : raises_only_IntegrityError (unawaited m).
Proof. apply roi_ret. Qed.

Section SeedingFacts.

Variable iter_names : gset string → list string.
Variable iter_ids : gset Z → list Z.
Hypothesis iter_names_sound : ∀ X x, x ∈ iter_names X → x ∈ X.
Hypothesis iter_ids_sound : ∀ X x, x ∈ iter_ids X → x ∈ X.

Lemma kc_seed_cafe categories cafe_data :
  keeps_categories (seed_cafe iter_names iter_ids categories cafe_data).
Proof.
  unfold seed_cafe.
  repeat (case_bool_decide; [apply kc_ret|]).
  destruct (_ && _); [apply kc_ret|].
  repeat (case_bool_decide; [apply kc_ret|]).
  apply kc_bind; [apply kc_subscripts|]. intros ids.
  apply kc_bind; [apply kc_subscript|]. intros best_for_id.
  apply kc_bind; [apply kc_query|]. intros [row|].
  - apply kc_bind; [apply kc_set_cafe_details|]. intros _.
    apply kc_bind; [apply kc_query|]. intros result.
    apply kc_bind.
    + apply kc_for_each. intros cat_id.
      destruct (by_category_id result !! cat_id);
        [case_bool_decide; [apply kc_set_is_best|apply kc_ret]
        |apply kc_insert_cafe_category].
    + intros _. apply kc_for_each. intros cat_id.
      apply kc_bind; [apply kc_subscript|]. intros assoc.
      apply kc_unawaited.
  - apply kc_bind; [apply kc_insert_cafe|]. intros cafe.
    apply kc_for_each. intros cat_name.
    apply kc_bind; [apply kc_subscript|]. intros kid.
    apply kc_insert_cafe_category.
Qed.

Lemma roi_seed_cafe categories cafe_data :
  raises_only_IntegrityError (seed_cafe iter_names iter_ids categories cafe_data).
Proof.
  unfold seed_cafe.
  repeat (case_bool_decide; [apply roi_ret|]).
  destruct (_ && _); [apply roi_ret|].
  case_bool_decide as Hbest; [apply roi_ret|].
  case_bool_decide as Halso; [apply roi_ret|].
  case_bool_decide as Hdup; [apply roi_ret|].
  assert (∀ n, n ∈ ({[new_best_for cafe_data]}
                     ∪ list_to_set (new_also_good_for cafe_data) : gset string) →
               is_Some (categories !! n)) as Hknown.
  { intros n [->%elem_of_singleton|Hn%elem_of_list_to_set]%elem_of_union.
    - by apply not_eq_None_Some.
    - apply not_eq_None_Some. intros Hnone.
      eapply (filter_nil_not_elem_of _ _ n); [apply Halso|done|done]. }
  apply roi_bind.
  { apply roi_subscripts. intros n Hn. by apply Hknown, iter_names_sound. }
  intros ids. apply roi_bind.
  { apply roi_subscript, Hknown, elem_of_union_l. by apply elem_of_singleton. }
  intros best_for_id. apply roi_bind; [apply roi_query|]. intros [row|].
  - apply roi_bind; [by intros db e db'|]. intros _.
    apply roi_bind; [apply roi_query|]. intros result.
    apply roi_bind.
    + apply roi_for_each. intros cat_id _.
      destruct (by_category_id result !! cat_id);
        [case_bool_decide; [by intros db e db'|apply roi_ret]
        |apply roi_insert_cafe_category].
    + intros _. apply roi_for_each. intros cat_id Hcat.
      apply iter_ids_sound, elem_of_difference in Hcat as [Hcat _].
      apply elem_of_dom in Hcat.
      apply roi_bind; [by apply roi_subscript|]. intros assoc.
      apply roi_unawaited.
  - apply roi_bind; [apply roi_insert_cafe|]. intros cafe.
    apply roi_for_each. intros cat_name Hn.
    apply roi_bind; [by apply roi_subscript, Hknown, iter_names_sound|].
    intros kid. apply roi_insert_cafe_category.
Qed.

End SeedingFacts.

(** ** Entries that are skipped *)

Lemma bind_ext {A B} (m : Session A) (k1 k2 : A → Session B) db :
  (∀ a db', k1 a db' = k2 a db') → bind m k1 db = bind m k2 db.
Proof. intros Hk. unfold bind. destruct (m db) as [[e|a] db']; [done|apply Hk]. Qed.

Lemma try_except_ext {A} (body1 body2 handler : Session A) db :
  body1 db = body2 db →
  try_except_IntegrityError body1 handler db
  = try_except_IntegrityError body2 handler db.
Proof. intros Hb. unfold try_except_IntegrityError. by rewrite Hb. Qed.

Lemma for_each_filter_skip {A} (P : A → Prop) `{!∀ x, Decision (P x)}
    (xs : list A) (body : A → Session unit) db :
  (∀ x db', ¬ P x → body x db' = (inr tt, db')) →
  for_each (filter P xs) body db = for_each xs body db.
Proof.
  intros Hskip. revert db. induction xs as [|x xs IH]; intros db; [done|].
  rewrite filter_cons. destruct (decide (P x)) as [Hx|Hx]; simpl.
  - apply bind_ext. intros _ db'. apply IH.
  - unfold bind. rewrite (Hskip x db Hx). apply IH.
Qed.

Lemma seed_cafe_rejected iter_names iter_ids categories e db :
  rejected e → seed_cafe iter_names iter_ids categories e db = (inr tt, db).
Proof.
  intros Hrej. unfold seed_cafe.
  case_bool_decide as Ht; [done|].
  case_bool_decide as Hc; [done|].
  destruct (truthy (new_image_url e)
            && bool_decide (500 < String.length (default "" (new_image_url e)))%nat)
    eqn:Himg; [done|].
  destruct (bool_decide (categories !! new_best_for e = None)); [done|].
  destruct (bool_decide (filter (λ cat, categories !! cat = None)
                                (new_also_good_for e) ≠ [])); [done|].
  destruct (bool_decide (new_best_for e ∈ new_also_good_for e)) eqn:Hd; [done|].
  apply bool_decide_eq_false in Hd.
  exfalso. destruct Hrej as [?|[?|[[Hi Hl]|?]]]; try done.
  rewrite Hi, bool_decide_eq_true_2 in Himg by done. done.
Qed.

(** X19: an entry of [cafes_data] whose title, city or image is too long
    for its column, or whose best category is repeated among its
    additional categories, is ignored: seeding gives the same result and
    the same store as seeding with those entries left out. *)
Theorem X19_seed_skips_rejected_entries
    (iter_names : gset string → list string) (iter_ids : gset Z → list Z)
    (categories_data : list string) (cafes_data : list CafeCreate) (s : Store) :
  run (seed_database iter_names iter_ids categories_data cafes_data) s
  = run (seed_database iter_names iter_ids categories_data
           (filter (λ e, ¬ rejected e) cafes_data)) s.
Proof.
  assert (seed_database iter_names iter_ids categories_data cafes_data (mkDb s s)
          = seed_database iter_names iter_ids categories_data
              (filter (λ e, ¬ rejected e) cafes_data) (mkDb s s)) as Heq;
    [|unfold run; by rewrite Heq].
  unfold seed_database.
  apply try_except_ext, bind_ext. intros existing db1.
  apply bind_ext. intros _ db2. apply bind_ext. intros _ db3.
  apply bind_ext. intros categories db4.
  unfold bind. rewrite for_each_filter_skip; [done|].
  intros e db' He. apply seed_cafe_rejected.
  by destruct (decide (rejected e)).
Qed.

(** ** The category phase of the seeding *)

Lemma seed_categories_ok (existing : list string) (l : list string) db :
  NoDup (filter (λ n, n ∉ existing) l) →
  (∀ n, n ∈ filter (λ n, n ∉ existing) l →
        n ∉ category_name <$> categories (pending db)) →
  ∃ rows,
    for_each l (λ name,
      if bool_decide (name ∈ existing) then ret tt else insert_category name) db
    = (inr tt, mkDb (committed db)
                    (mkStore (categories (pending db) ++ rows)
                             (cafes (pending db)) (cafe_categories (pending db))))
    ∧ category_name <$> rows = filter (λ n, n ∉ existing) l.
Proof.
  revert db. induction l as [|n l IH]; intros db Hnd Hfresh.
  - exists []. simpl. rewrite app_nil_r. by destruct db as [c []].
  - rewrite filter_cons in Hnd, Hfresh. rewrite filter_cons. simpl.
    unfold bind at 1. case_bool_decide as Hn.
    + rewrite decide_False in Hnd, Hfresh by (intros Hnot; by apply Hnot).
      rewrite decide_False by (intros Hnot; by apply Hnot).
      simpl. by apply IH.
    + rewrite decide_True in Hnd, Hfresh by done. rewrite decide_True by done.
      apply NoDup_cons in Hnd as [Hnl Hnd].
      unfold insert_category at 1.
      rewrite bool_decide_eq_false_2 by (apply Hfresh; left).
      set (row := mkCategory (next_id (category_id <$> categories (pending db))) n).
      destruct (IH (mkDb (committed db)
                         (mkStore (categories (pending db) ++ [row])
                                  (cafes (pending db)) (cafe_categories (pending db))))
                   Hnd) as (rows & Hrun & Hnames).
      { intros m Hm. simpl. rewrite fmap_app, elem_of_app.
        intros [Hin|Hin%list_elem_of_singleton].
        - apply (Hfresh m); [by right|done].
        - simpl in Hin. by subst. }
      exists (row :: rows). split.
      * rewrite Hrun. simpl. by rewrite <- app_assoc.
      * rewrite fmap_cons, Hnames. done.
Qed.

Lemma seed_categories_fail (existing : list string) (l : list string) db :
  ¬ (NoDup (filter (λ n, n ∉ existing) l)
     ∧ ∀ n, n ∈ filter (λ n, n ∉ existing) l →
            n ∉ category_name <$> categories (pending db)) →
  ∃ db',
    for_each l (λ name,
      if bool_decide (name ∈ existing) then ret tt else insert_category name) db
    = (inl IntegrityError, db')
    ∧ committed db' = committed db.
Proof.
  revert db. induction l as [|n l IH]; intros db Hbad.
  - exfalso. apply Hbad. split; [constructor|]. intros n Hn.
    by apply elem_of_nil in Hn.
  - rewrite filter_cons in Hbad. simpl. unfold bind at 1.
    case_bool_decide as Hn.
    + rewrite decide_False in Hbad by (intros Hnot; by apply Hnot).
      simpl. by apply IH.
    + rewrite decide_True in Hbad by done. unfold insert_category at 1.
      case_bool_decide as Hin; [by eexists|].
      set (db1 := mkDb _ _).
      destruct (IH db1) as (db' & Hrun & Hc).
      { intros [Hnd Hfresh]. apply Hbad. split.
        - constructor; [|done]. intros Hnl. apply (Hfresh n Hnl).
          simpl. rewrite fmap_app, elem_of_app. right. by left.
        - intros m [->|Hm]%elem_of_cons; [done|].
          intros Hmin. apply (Hfresh m Hm).
          simpl. rewrite fmap_app, elem_of_app. by left. }
      exists db'. by rewrite Hrun.
Qed.

(** X20: seeding always returns normally, and what it does to the
    category table is decided by the names of [categories_data] that the
    store lacks: if one of them occurs twice, the whole seeding is rolled
    back and the store is unchanged; otherwise the category table keeps
    its rows and gains one row per lacking name, in the order of
    [categories_data], whatever happens to the cafés. *)
Theorem X20_seed_adds_the_lacking_categories
    (iter_names : gset string → list string) (iter_ids : gset Z → list Z)
    (categories_data : list string) (cafes_data : list CafeCreate) (s : Store) :
  (∀ X x, x ∈ iter_names X → x ∈ X) →
  (∀ X x, x ∈ iter_ids X → x ∈ X) →
  (¬ NoDup (new_names s categories_data) →
   run (seed_database iter_names iter_ids categories_data cafes_data) s
   = (inr tt, s))
  ∧ (NoDup (new_names s categories_data) →
     ∃ s' rows,
       run (seed_database iter_names iter_ids categories_data cafes_data) s
       = (inr tt, s')
       ∧ categories s' = (categories s ++ rows)%list
       ∧ category_name <$> rows = new_names s categories_data).
Proof.
  intros Hnames Hids. unfold new_names. split.
  - intros Hdup.
    destruct (seed_categories_fail (category_name <$> categories s)
                categories_data (mkDb s s)) as (db' & Hrun & Hc).
    { by intros [Hnd _]. }
    unfold run, seed_database, try_except_IntegrityError.
    unfold bind at 1, query. cbn [pending]. unfold bind at 1.
    rewrite Hrun. simpl in Hc. unfold rollback. by rewrite Hc.
  - intros Hnd.
    destruct (seed_categories_ok (category_name <$> categories s)
                categories_data (mkDb s s) Hnd) as (rows & Hrun & Hrows).
    { intros n [Hn _]%list_elem_of_filter. done. }
    set (p1 := mkStore (categories s ++ rows) (cafes s) (cafe_categories s)).
    set (cafe_phase := for_each cafes_data
                         (seed_cafe iter_names iter_ids (name_ids (categories p1)))).
    destruct (cafe_phase (mkDb p1 p1)) as [r db2] eqn:Hphase.
    pose proof (kc_for_each cafes_data _
                  (kc_seed_cafe iter_names iter_ids (name_ids (categories p1)))
                  _ _ _ Hphase) as [Hc Hcat].
    assert (run (seed_database iter_names iter_ids categories_data cafes_data) s
            = match r with
              | inl _ => (inr tt, p1)
              | inr _ => (inr tt, pending db2)
              end) as Hseed.
    { unfold run, seed_database, try_except_IntegrityError.
      unfold bind at 1, query. cbn [pending]. unfold bind at 1.
      rewrite Hrun. cbn [committed pending]. unfold bind at 1, commit.
      cbn [pending]. fold p1. unfold bind at 1. cbn [pending].
      unfold bind at 1. fold cafe_phase. rewrite Hphase.
      destruct r as [e|[]].
      - assert (e = IntegrityError) as ->.
        { eapply (roi_for_each cafes_data); [|apply Hphase].
          intros x _. by apply roi_seed_cafe. }
        unfold rollback. simpl in Hc. by rewrite Hc.
      - done. }
    destruct r as [e|[]].
    + exists p1, rows. by rewrite Hseed.
    + exists (pending db2), rows. rewrite Hseed. split; [done|].
      split; [|done]. by rewrite Hcat.
Qed.

Lemma X20_witness :
  ∃ s' rows,
    run (seed_database elements elements ["wifi"; "books"] sample_cafes_data)
        paris_store = (inr tt, s')
    ∧ categories s' = (categories paris_store ++ rows)%list
    ∧ category_name <$> rows = ["books"].
Proof.
  destruct (X20_seed_adds_the_lacking_categories elements elements
              ["wifi"; "books"] sample_cafes_data paris_store)
    as [_ Hok].
  - intros X x. apply elem_of_elements.
  - intros X x. apply elem_of_elements.
  - apply Hok. apply (bool_decide_unpack _). by vm_compute.
Defined.

(** ** Reconciling the associations of an existing café *)

Lemma with_flag_same a : with_flag a (is_best a) = a.
Proof. by destruct a. Qed.

Lemma reflag_id cid b X a : assoc_id (reflag cid b X a) = assoc_id a.
Proof. unfold reflag. by case_bool_decide. Qed.

Lemma reflag_key cid b X a : assoc_key (reflag cid b X a) = assoc_key a.
Proof. unfold reflag. by case_bool_decide. Qed.

Lemma reflag_cafe cid b X a : assoc_cafe_id (reflag cid b X a) = assoc_cafe_id a.
Proof. unfold reflag. by case_bool_decide. Qed.

Lemma reflag_category cid b X a :
  assoc_category_id (reflag cid b X a) = assoc_category_id a.
Proof. unfold reflag. by case_bool_decide. Qed.

Lemma reflag_ids cid b X (T : list CafeCategory) :
  assoc_id <$> (reflag cid b X <$> T) = assoc_id <$> T.
Proof.
  rewrite <- list_fmap_compose. apply list_fmap_ext. intros i a _.
  apply reflag_id.
Qed.

Lemma reflag_keys cid b X (T : list CafeCategory) :
  assoc_key <$> (reflag cid b X <$> T) = assoc_key <$> T.
Proof.
  rewrite <- list_fmap_compose. apply list_fmap_ext. intros i a _.
  apply reflag_key.
Qed.

Section ExistingCafe.

Variables (cid best_id : Z) (T0 : list CafeCategory).
Hypothesis Hpk : NoDup (assoc_id <$> T0).
Hypothesis Hkeys : NoDup (assoc_key <$> T0).

Let E := by_category_id (filter (λ a, assoc_cafe_id a = cid) T0).

Lemma existing_Some cat a :
  E !! cat = Some a →
  a ∈ T0 ∧ assoc_cafe_id a = cid ∧ assoc_category_id a = cat.
Proof.
  intros [[Hcid Hin]%list_elem_of_filter Hcat]%by_category_id_Some. done.
Qed.

Lemma existing_None cat :
  E !! cat = None ↔
  ∀ x, x ∈ T0 → assoc_cafe_id x = cid → assoc_category_id x ≠ cat.
Proof.
  unfold E. rewrite by_category_id_None. split.
  - intros Hnot x Hx Hcid Hcat. apply Hnot. rewrite <- Hcat.
    apply list_elem_of_fmap_2. by apply list_elem_of_filter.
  - intros Hall (x & -> & [Hcid Hx]%list_elem_of_filter)%list_elem_of_fmap.
    by apply (Hall x).
Qed.

Lemma same_id_same_row x a :
  x ∈ T0 → a ∈ T0 → assoc_id x = assoc_id a → x = a.
Proof. intros. by eapply (NoDup_fmap_eq assoc_id T0). Qed.

(** Flagging one more category, whose row [a] the café has. *)
Lemma reflag_step_set X cat a :
  E !! cat = Some a →
  (λ x, if bool_decide (assoc_id x = assoc_id a)
        then mkCafeCategory (assoc_id x) (assoc_cafe_id x) (assoc_category_id x)
               (bool_decide (cat = best_id))
        else x) <$> (reflag cid best_id X <$> T0)
  = reflag cid best_id (X ∪ {[cat]}) <$> T0.
Proof.
  intros (Ha & Hcid & Hcat)%existing_Some.
  rewrite <- list_fmap_compose. apply list_fmap_ext. intros i x Hx. simpl.
  apply list_elem_of_lookup_2 in Hx. rewrite reflag_id.
  destruct (decide (assoc_id x = assoc_id a)) as [Hid|Hid];
    [rewrite (bool_decide_eq_true_2 _ Hid)|rewrite (bool_decide_eq_false_2 _ Hid)].
  - apply (same_id_same_row x a Hx Ha) in Hid as ->.
    rewrite reflag_cafe, reflag_category.
    assert (assoc_cafe_id a = cid ∧ assoc_category_id a ∈ X ∪ {[cat]}) as Hin.
    { split; [done|]. rewrite Hcat. apply elem_of_union_r. by apply elem_of_singleton. }
    unfold reflag. rewrite (bool_decide_eq_true_2 _ Hin).
    unfold with_flag. by rewrite Hcat.
  - unfold reflag.
    rewrite (bool_decide_ext _ (assoc_cafe_id x = cid
                                ∧ assoc_category_id x ∈ X ∪ {[cat]})); [done|].
    split.
    + intros [? ?]. split; [done|]. by apply elem_of_union_l.
    + intros [Hx1 [Hx2|Hx2%elem_of_singleton]%elem_of_union]; [done|].
      exfalso. apply Hid. f_equal.
      eapply (NoDup_fmap_eq assoc_key T0); [done|done|done|].
      unfold assoc_key. by rewrite Hx1, Hx2, Hcid, Hcat.
Qed.

(** Flagging one more category, for which the café has no row. *)
Lemma reflag_step_none X cat :
  E !! cat = None →
  reflag cid best_id (X ∪ {[cat]}) <$> T0 = reflag cid best_id X <$> T0.
Proof.
  intros Hnone. apply list_fmap_ext. intros i x Hx.
  apply list_elem_of_lookup_2 in Hx. unfold reflag.
  rewrite (bool_decide_ext _ (assoc_cafe_id x = cid ∧ assoc_category_id x ∈ X));
    [done|].
  split.
  - intros [Hx1 [Hx2|Hx2%elem_of_singleton]%elem_of_union]; [done|].
    exfalso. by eapply existing_None.
  - intros [? ?]. split; [done|]. by apply elem_of_union_l.
Qed.

(** Flagging one more category whose row already has the wanted flag. *)
Lemma reflag_step_same X cat a :
  E !! cat = Some a →
  is_best a = bool_decide (cat = best_id) →
  reflag cid best_id (X ∪ {[cat]}) <$> T0 = reflag cid best_id X <$> T0.
Proof.
  intros Ha Hflag. pose proof Ha as (Hin & Hcid & Hcat)%existing_Some.
  apply list_fmap_ext. intros i x Hx.
  apply list_elem_of_lookup_2 in Hx. unfold reflag.
  destruct (decide (assoc_cafe_id x = cid ∧ assoc_category_id x = cat))
    as [[Hx1 Hx2]|Hne].
  - assert (x = a) as ->.
    { eapply (NoDup_fmap_eq assoc_key T0); [done|done|done|].
      unfold assoc_key. by rewrite Hx1, Hx2, Hcid, Hcat. }
    rewrite bool_decide_eq_true_2.
    + rewrite Hcat, <- Hflag, with_flag_same.
      by destruct (bool_decide (assoc_cafe_id a = cid ∧ cat ∈ X)).
    + split; [done|]. rewrite Hcat. apply elem_of_union_r. by apply elem_of_singleton.
  - rewrite (bool_decide_ext _ (assoc_cafe_id x = cid ∧ assoc_category_id x ∈ X));
      [done|].
    split.
    + intros [Hx1 [Hx2|Hx2%elem_of_singleton]%elem_of_union]; [done|].
      exfalso. by apply Hne.
    + intros [? ?]. split; [done|]. by apply elem_of_union_l.
Qed.

Lemma added_rows_mono X cat N :
  is_Some (E !! cat) →
  added_rows cid best_id T0 X N → added_rows cid best_id T0 (X ∪ {[cat]}) N.
Proof.
  intros [a Ha] (Hrows & Hcats & Hids & Hcover).
  split; [|split; [done|split; [done|]]].
  - intros r Hr. destruct (Hrows r Hr) as (? & ? & ? & ? & ?).
    repeat split; try done. by apply elem_of_union_l.
  - intros c [Hc|Hc%elem_of_singleton]%elem_of_union Hnone; [by apply Hcover|].
    subst c. apply existing_None in Hnone. by rewrite Ha in Hnone.
Qed.

Lemma with_table_same s : with_table s (cafe_categories s) = s.
Proof. by destruct s. Qed.

Lemma added_rows_insert X cat N b :
  E !! cat = None →
  cat ∉ X →
  b = bool_decide (cat = best_id) →
  added_rows cid best_id T0 X N →
  added_rows cid best_id T0 (X ∪ {[cat]})
    ((N ++ [mkCafeCategory
             (next_id (assoc_id <$> ((reflag cid best_id X <$> T0) ++ N)%list)) cid cat b])%list).
Proof.
  intros Hnone Hcat -> (Hrows & Hcats & Hids & Hcover).
  pose proof (proj1 (existing_None cat) Hnone) as Hnone'.
  set (r := mkCafeCategory _ cid cat _).
  assert (assoc_id r ∉ assoc_id <$> (T0 ++ N)%list) as Hfresh.
  { rewrite fmap_app, <- (reflag_ids cid best_id X T0), <- fmap_app.
    apply next_id_fresh. }
  rewrite fmap_app, not_elem_of_app in Hfresh. destruct Hfresh as [Hf1 Hf2].
  split; [|split; [|split]].
  - intros r' [Hr'|Hr'%list_elem_of_singleton]%elem_of_app.
    + destruct (Hrows r' Hr') as (? & ? & ? & ? & ?).
      repeat split; try done. by apply elem_of_union_l.
    + subst r'. repeat split; try done.
      apply elem_of_union_r. by apply elem_of_singleton.
  - rewrite fmap_app. apply NoDup_app. split; [done|]. split.
    + intros c (r' & Hc & Hr')%list_elem_of_fmap Hin.
      apply list_elem_of_singleton in Hin. rewrite Hc in Hin. simpl in Hin.
      destruct (Hrows r' Hr') as (_ & HX & _). apply Hcat. by rewrite <- Hin.
    + apply NoDup_singleton.
  - rewrite fmap_app. apply NoDup_app. split; [done|]. split.
    + intros i Hi Hin. apply list_elem_of_singleton in Hin. by subst i.
    + apply NoDup_singleton.
  - intros c [Hc|Hc%elem_of_singleton]%elem_of_union Hc'.
    + rewrite fmap_app. apply elem_of_app. left. by apply Hcover.
    + subst c. rewrite fmap_app. apply elem_of_app. right. by left.
Qed.

(** The first loop over the desired categories: existing rows get their
    flag, lacking rows are added, and no constraint fails. *)
Lemma reconcile_flags l : ∀ X N db,
  NoDup l →
  (∀ c, c ∈ l → c ∉ X) →
  cafe_categories (pending db) = ((reflag cid best_id X <$> T0) ++ N)%list →
  added_rows cid best_id T0 X N →
  ∃ N',
    for_each l (λ cat_id,
      match E !! cat_id with
      | Some assoc =>
          if bool_decide (is_best assoc ≠ bool_decide (cat_id = best_id))
          then set_is_best (assoc_id assoc) (bool_decide (cat_id = best_id))
          else ret tt
      | None => insert_cafe_category cid cat_id (bool_decide (cat_id = best_id))
      end) db
    = (inr tt,
       mkDb (committed db)
            (with_table (pending db)
               ((reflag cid best_id (X ∪ list_to_set l) <$> T0) ++ N')%list))
    ∧ added_rows cid best_id T0 (X ∪ list_to_set l) N'.
Proof.
  induction l as [|cat l IH]; intros X N db Hnd Hfresh Htable Hadded.
  - exists N. simpl. rewrite (right_id_L ∅ (∪)), <- Htable, with_table_same.
    split; [by destruct db|done].
  - apply NoDup_cons in Hnd as [Hcat Hnd].
    assert (cat ∉ X) as HcatX by (apply Hfresh; left).
    assert (∀ c, c ∈ l → c ∉ X ∪ {[cat]}) as Hfresh'.
    { intros c Hc [Hin|Hin%elem_of_singleton]%elem_of_union.
      - apply (Hfresh c); [by right|done].
      - by subst c. }
    assert (X ∪ list_to_set (cat :: l) = (X ∪ {[cat]}) ∪ list_to_set l :> gset Z)
      as Hset by (by rewrite list_to_set_cons, (assoc_L (∪))).
    rewrite Hset. simpl. unfold bind at 1.
    destruct (E !! cat) as [a|] eqn:Ha.
    + pose proof Ha as (Hin & _ & _)%existing_Some.
      assert (added_rows cid best_id T0 (X ∪ {[cat]}) N) as Hadded'
        by (apply added_rows_mono; [by eexists|done]).
      destruct (decide (is_best a = bool_decide (cat = best_id))) as [Hflag|Hflag].
      * rewrite bool_decide_eq_false_2 by (by intros Hne). simpl.
        destruct (IH (X ∪ {[cat]}) N db Hnd Hfresh') as (N' & Hrun & HN'); [|done|].
        { by rewrite Htable, (reflag_step_same X cat a Ha Hflag). }
        by exists N'.
      * rewrite bool_decide_eq_true_2 by done.
        unfold set_is_best at 1.
        set (db1 := mkDb _ _).
        destruct (IH (X ∪ {[cat]}) N db1 Hnd Hfresh') as (N' & Hrun & HN'); [|done|].
        { unfold db1. simpl.
          rewrite Htable, fmap_app, (reflag_step_set X cat a Ha). f_equal.
          rewrite <- (list_fmap_id N) at 2. apply list_fmap_ext.
          intros i r Hr. apply list_elem_of_lookup_2 in Hr. simpl.
          rewrite bool_decide_eq_false_2; [done|]. intros Hid.
          destruct Hadded as (Hrows & _).
          destruct (Hrows r Hr) as (_ & _ & _ & _ & Hnew).
          apply Hnew. rewrite Hid. by apply list_elem_of_fmap_2. }
        exists N'. by rewrite Hrun.
    + pose proof (proj1 (existing_None cat) Ha) as Hnone.
      unfold insert_cafe_category at 1.
      rewrite bool_decide_eq_false_2.
      2:{ rewrite Htable, fmap_app, reflag_keys.
          intros [Hin|Hin]%elem_of_app.
          - apply list_elem_of_fmap in Hin as (x & Hk & Hx).
            unfold assoc_key in Hk. injection Hk as Hk1 Hk2.
            by apply (Hnone x).
          - apply list_elem_of_fmap in Hin as (r & Hk & Hr).
            unfold assoc_key in Hk. injection Hk as Hk1 Hk2.
            destruct Hadded as (Hrows & _). destruct (Hrows r Hr) as (_ & HrX & _).
            apply HcatX. by rewrite Hk2. }
      set (db1 := mkDb _ _).
      destruct (IH (X ∪ {[cat]})
                   ((N ++ [mkCafeCategory
                            (next_id (assoc_id <$> ((reflag cid best_id X <$> T0) ++ N)%list))
                            cid cat (bool_decide (cat = best_id))])%list)
                   db1 Hnd Hfresh') as (N' & Hrun & HN').
      { unfold db1. simpl.
        by rewrite Htable, (reflag_step_none X cat Ha), <- app_assoc. }
      { by apply added_rows_insert. }
      exists N'. by rewrite Hrun.
Qed.

Lemma filter_kept_reflag D (T : list CafeCategory) :
  filter (kept cid D) (reflag cid best_id D <$> T) = filter (kept cid D) T.
Proof.
  induction T as [|x T IH]; [done|].
  rewrite fmap_cons, !filter_cons, IH.
  destruct (decide (kept cid D x)) as [Hx|Hx].
  - rewrite decide_True by (unfold kept; by rewrite reflag_cafe, reflag_category).
    f_equal. unfold reflag. by rewrite bool_decide_eq_false_2 by exact Hx.
  - by rewrite decide_False by (unfold kept; by rewrite reflag_cafe, reflag_category).
Qed.

(** The second loop: [session.delete] is not awaited, so the loop looks
    the rows up and leaves the table as it is. *)
Lemma unawaited_deletions l db :
  (∀ c, c ∈ l → is_Some (E !! c)) →
  for_each l (λ cat_id,
    do assoc <- subscript E cat_id;
    unawaited (delete_cafe_category (assoc_id assoc))) db
  = (inr tt, db).
Proof.
  induction l as [|cat l IH]; intros Hl; [done|].
  destruct (Hl cat) as [a Ha]; [by left|].
  cbn [for_each]. unfold bind at 1.
  assert ((do assoc <- subscript E cat;
           unawaited (delete_cafe_category (assoc_id assoc))) db
          = (inr tt, db)) as ->.
  { unfold bind, subscript. by rewrite Ha. }
  apply IH. intros c Hc. apply Hl. by right.
Qed.

(** The table the two loops leave. *)
Lemma existing_reconciled D N :
  added_rows cid best_id T0 D N →
  reconciled cid best_id D T0 ((reflag cid best_id D <$> T0) ++ N)%list.
Proof.
  intros (Hrows & Hcats & Hids & Hcover).
  assert (∀ r, r ∈ N → assoc_cafe_id r = cid) as HNcid.
  { intros r Hr. by destruct (Hrows r Hr) as (? & _). }
  split; [|split; [|split; [|split]]].
  - rewrite filter_app, filter_kept_reflag, (filter_none _ N); [by rewrite app_nil_r|].
    apply Forall_forall. intros r Hr Hkept.
    destruct (Hrows r Hr) as (? & ? & _). by apply Hkept.
  - intros a [Ha|Ha]%elem_of_app Hcid HD.
    + apply list_elem_of_fmap in Ha as (x & -> & Hx).
      rewrite reflag_cafe in Hcid. rewrite reflag_category in *.
      unfold reflag. by rewrite bool_decide_eq_true_2.
    + destruct (Hrows a Ha) as (_ & _ & _ & ? & _). done.
  - intros cat Hcat. rewrite filter_app, fmap_app, elem_of_app.
    destruct (E !! cat) as [x|] eqn:Hx.
    + left. pose proof Hx as (Hin & Hcid & Hc)%existing_Some.
      apply list_elem_of_fmap. exists (reflag cid best_id D x).
      rewrite reflag_category. split; [done|].
      apply list_elem_of_filter. rewrite reflag_cafe. split; [done|].
      by apply list_elem_of_fmap_2.
    + right. rewrite (filter_all _ N) by (by apply Forall_forall).
      apply Hcover; [done|]. by apply existing_None.
  - rewrite fmap_app. apply NoDup_app. split; [|split].
    + by rewrite reflag_keys.
    + intros k (a & -> & Ha)%list_elem_of_fmap (r & Hk & Hr)%list_elem_of_fmap.
      apply list_elem_of_fmap in Ha as (x & -> & Hx).
      rewrite reflag_key in Hk. unfold assoc_key in Hk. injection Hk as Hk1 Hk2.
      destruct (Hrows r Hr) as (Hrc & _ & Hnew & _).
      apply (Hnew x Hx); [by rewrite Hk1|done].
    + apply (NoDup_fmap_1 snd). by rewrite <- list_fmap_compose.
  - rewrite fmap_app. apply NoDup_app. split; [|split; [|done]].
    + by rewrite reflag_ids.
    + intros i (a & -> & Ha)%list_elem_of_fmap (r & Hi & Hr)%list_elem_of_fmap.
      apply list_elem_of_fmap in Ha as (x & -> & Hx).
      rewrite reflag_id in Hi.
      destruct (Hrows r Hr) as (_ & _ & _ & _ & Hfresh).
      apply Hfresh. rewrite <- Hi. by apply list_elem_of_fmap_2.
Qed.

Lemma reflag_empty (T : list CafeCategory) : reflag cid best_id ∅ <$> T = T.
Proof.
  rewrite <- (list_fmap_id T) at 2. apply list_fmap_ext. intros i x _.
  unfold reflag. rewrite bool_decide_eq_false_2; [done|].
  intros [_ Hin]. by apply elem_of_empty in Hin.
Qed.

Lemma added_rows_empty : added_rows cid best_id T0 ∅ [].
Proof.
  split; [|split; [|split]].
  - intros r Hr. by apply elem_of_nil in Hr.
  - constructor.
  - constructor.
  - intros cat Hcat. by apply elem_of_empty in Hcat.
Qed.

(** Both loops, from the table [T0]: the café ends with a row for every
    wanted category, flagged as wanted, and keeps its other rows. *)
Lemma reconcile_existing D l1 l2 db :
  NoDup l1 →
  list_to_set l1 = D →
  list_to_set l2 = dom E ∖ D →
  cafe_categories (pending db) = T0 →
  ∃ F,
    (for_each l1 (λ cat_id,
       match E !! cat_id with
       | Some assoc =>
           if bool_decide (is_best assoc ≠ bool_decide (cat_id = best_id))
           then set_is_best (assoc_id assoc) (bool_decide (cat_id = best_id))
           else ret tt
       | None => insert_cafe_category cid cat_id (bool_decide (cat_id = best_id))
       end) ;;
     for_each l2 (λ cat_id,
       do assoc <- subscript E cat_id;
       unawaited (delete_cafe_category (assoc_id assoc)))) db
    = (inr tt, mkDb (committed db) (with_table (pending db) F))
    ∧ reconciled cid best_id D T0 F.
Proof.
  intros Hnd HD Hl2 Htable.
  destruct (reconcile_flags l1 ∅ [] db Hnd) as (N & Hrun & HN).
  { intros c _ Hc. by apply elem_of_empty in Hc. }
  { by rewrite reflag_empty, app_nil_r. }
  { apply added_rows_empty. }
  rewrite (left_id_L ∅ (∪)), HD in Hrun, HN.
  exists ((reflag cid best_id D <$> T0) ++ N)%list.
  split; [|by apply existing_reconciled].
  unfold bind at 1. rewrite Hrun. apply unawaited_deletions.
  intros c Hc. apply elem_of_dom.
  assert (c ∈ dom E ∖ D) as Hin by (rewrite <- Hl2; by apply elem_of_list_to_set).
  by apply elem_of_difference in Hin as [? _].
Qed.

(** The first loop alone, for a café that has no row yet. *)
Lemma reconcile_new D l1 db :
  NoDup l1 →
  list_to_set l1 = D →
  (∀ x, x ∈ T0 → assoc_cafe_id x ≠ cid) →
  cafe_categories (pending db) = T0 →
  ∃ F,
    for_each l1 (λ cat_id,
      insert_cafe_category cid cat_id (bool_decide (cat_id = best_id))) db
    = (inr tt, mkDb (committed db) (with_table (pending db) F))
    ∧ reconciled cid best_id D T0 F.
Proof.
  intros Hnd HD Hnone Htable.
  assert (∀ cat, E !! cat = None) as HE.
  { intros cat. apply existing_None. intros x Hx Hcid. by destruct (Hnone x Hx). }
  destruct (reconcile_flags l1 ∅ [] db Hnd) as (N & Hrun & HN).
  { intros c _ Hc. by apply elem_of_empty in Hc. }
  { by rewrite reflag_empty, app_nil_r. }
  { apply added_rows_empty. }
  rewrite (left_id_L ∅ (∪)), HD in Hrun, HN.
  exists ((reflag cid best_id D <$> T0) ++ N)%list.
  split; [|by apply existing_reconciled].
  rewrite <- Hrun. clear Hrun Hnd HD HN Htable. generalize db.
  induction l1 as [|cat l IH]; intros db'; [done|].
  simpl. unfold bind. rewrite HE.
  destruct (insert_cafe_category cid cat (bool_decide (cat = best_id)) db')
    as [[e|[]] db1]; [done|].
  apply IH.
Qed.

End ExistingCafe.

(** ** What the reconciled table gives *)

Lemma cafe_written_ids e cid old new c :
  cafe_written e cid old new →
  c ∈ cafe_id <$> new ↔ c = cid ∨ c ∈ cafe_id <$> old.
Proof.
  intros [Hframe Hrow]. split.
  - intros (r & -> & Hr)%list_elem_of_fmap.
    destruct (decide (cafe_id r = cid)) as [|Hne]; [by left|]. right.
    assert (r ∈ filter (λ r, cafe_id r ≠ cid) new) as Hin
      by (by apply list_elem_of_filter).
    rewrite Hframe in Hin. apply list_elem_of_filter in Hin as [_ Hin].
    by apply list_elem_of_fmap_2.
  - intros [->|(r & -> & Hr)%list_elem_of_fmap].
    + apply list_elem_of_fmap. eexists. split; [|apply Hrow]. done.
    + destruct (decide (cafe_id r = cid)) as [Heq|Hne].
      * apply list_elem_of_fmap. eexists. split; [|apply Hrow]. done.
      * assert (r ∈ filter (λ r, cafe_id r ≠ cid) old) as Hin
          by (by apply list_elem_of_filter).
        rewrite <- Hframe in Hin. apply list_elem_of_filter in Hin as [_ Hin].
        by apply list_elem_of_fmap_2.
Qed.

Lemma reconciled_kept cid best_id D old F a :
  reconciled cid best_id D old F → kept cid D a → a ∈ F ↔ a ∈ old.
Proof.
  intros (Hframe & _) Hkept.
  assert (a ∈ filter (kept cid D) F ↔ a ∈ filter (kept cid D) old) as Hiff
    by (by rewrite Hframe).
  rewrite !list_elem_of_filter in Hiff. tauto.
Qed.

Lemma reconciled_best_row cid best_id D old F :
  reconciled cid best_id D old F →
  best_id ∈ D →
  ∃ a, a ∈ F ∧ assoc_cafe_id a = cid ∧ assoc_category_id a = best_id
       ∧ is_best a = true.
Proof.
  intros (_ & Hrows & Hcover & _) Hbest.
  pose proof (Hcover best_id Hbest) as Hin.
  apply list_elem_of_fmap in Hin as (a & Hcat & Ha).
  apply list_elem_of_filter in Ha as [Hcid Ha].
  exists a. split; [done|]. split; [done|]. split; [done|].
  rewrite (Hrows a Ha Hcid) by (by rewrite <- Hcat).
  by apply bool_decide_eq_true.
Qed.

(** What the seeding keeps, after a café was reconciled. *)
Lemma reconciled_seed_invariant s e cs F cid best_id D :
  seed_invariant s →
  cafe_written e cid (cafes s) cs →
  reconciled cid best_id D (cafe_categories s) F →
  best_id ∈ D →
  seed_invariant (mkStore (categories s) cs F).
Proof.
  intros (Huniq & Hfk & Hbest & Hpk & Hcat) Hcs Hrec HD.
  pose proof Hrec as (Hframe & Hrows & Hcover & Hkeys & Hids).
  split; [done|]. split; [|split; [|by split]];
    cbn [cafe_categories cafes categories].
  - intros a Ha. apply (cafe_written_ids e cid (cafes s) cs); [done|].
    destruct (decide (assoc_cafe_id a = cid)) as [|Hne]; [by left|]. right.
    apply Hfk. apply (reconciled_kept cid best_id D _ F a Hrec); [|done].
    by intros [? _].
  - intros c Hc. apply (cafe_written_ids e cid (cafes s) cs) in Hc; [|done].
    destruct (decide (c = cid)) as [->|Hne].
    + destruct (reconciled_best_row cid best_id D _ F Hrec HD)
        as (a & Ha & Hcid & _ & Hflag).
      by exists a.
    + destruct Hc as [|Hc]; [done|].
      destruct (Hbest c Hc) as (a & Ha & Hac & Hflag).
      exists a. split; [|done]. cbn [cafe_categories].
      apply (reconciled_kept cid best_id D (cafe_categories s) F a Hrec); [|done].
      intros [Hcid _]. apply Hne. by rewrite <- Hac.
Qed.

(** ** One entry of [cafes_data] *)

Lemma subscripts_known (categories : gmap string Z) (l : list string) db :
  (∀ n, n ∈ l → is_Some (categories !! n)) →
  subscripts categories l db = (inr (omap (λ n, categories !! n) l), db).
Proof.
  induction l as [|n l IH]; intros Hl; [done|].
  destruct (Hl n) as [i Hi]; [by left|].
  cbn [subscripts]. unfold bind at 1. unfold subscript at 1. rewrite Hi.
  unfold ret at 1. unfold bind at 1.
  rewrite IH by (intros m Hm; apply Hl; by right).
  unfold ret. cbn [omap list_omap]. by rewrite Hi.
Qed.

Lemma omap_NoDup (categories : gmap string Z) (l : list string) :
  one_name_per_id categories → NoDup l →
  NoDup (omap (λ n, categories !! n) l).
Proof.
  intros Hinj. induction 1 as [|n l Hn Hl IH]; [constructor|].
  cbn [omap list_omap]. destruct (categories !! n) as [i|] eqn:Hi; [|done].
  constructor; [|done].
  intros (m & Hm & Hmi)%list_elem_of_omap.
  by rewrite (Hinj n m i Hi Hmi) in Hn.
Qed.

Lemma flag_by_name (categories : gmap string Z) best best_id n i :
  one_name_per_id categories →
  categories !! best = Some best_id →
  categories !! n = Some i →
  bool_decide (n = best) = bool_decide (i = best_id).
Proof.
  intros Hinj Hbest Hn. apply bool_decide_ext. split.
  - intros ->. congruence.
  - intros ->. by eapply Hinj.
Qed.

(** The loop of a new café runs through the names; it does what the loop
    through their ids does. *)
Lemma new_cafe_loop (categories : gmap string Z) best best_id cid l db :
  one_name_per_id categories →
  categories !! best = Some best_id →
  (∀ n, n ∈ l → is_Some (categories !! n)) →
  for_each l (λ cat_name,
    do kid <- subscript categories cat_name;
    insert_cafe_category cid kid (bool_decide (cat_name = best))) db
  = for_each (omap (λ n, categories !! n) l) (λ cat_id,
      insert_cafe_category cid cat_id (bool_decide (cat_id = best_id))) db.
Proof.
  intros Hinj Hbest. revert db. induction l as [|n l IH]; intros db Hl; [done|].
  destruct (Hl n) as [i Hi]; [by left|].
  cbn [for_each omap list_omap]. rewrite Hi. cbn [for_each].
  assert ((do kid <- subscript categories n;
           insert_cafe_category cid kid (bool_decide (n = best))) db
          = insert_cafe_category cid i (bool_decide (i = best_id)) db) as Hstep.
  { unfold bind, subscript. rewrite Hi.
    by rewrite (flag_by_name categories best best_id n i). }
  unfold bind at 1. rewrite Hstep. unfold bind at 2.
  destruct (insert_cafe_category cid i (bool_decide (i = best_id)) db)
    as [[ex|[]] db1]; [done|].
  apply IH. intros m Hm. apply Hl. by right.
Qed.

Lemma head_filter_None {A} (P : A → Prop) `{!∀ x, Decision (P x)} (l : list A) x :
  head (filter P l) = None → x ∈ l → ¬ P x.
Proof.
  intros Hhead Hx HP.
  assert (x ∈ filter P l) as Hin by (by apply list_elem_of_filter).
  destruct (filter P l); [by apply elem_of_nil in Hin|done].
Qed.

Lemma assign_if_differs {A} `{!EqDecision A} (x y : A) :
  (if bool_decide (x ≠ y) then y else x) = y.
Proof. case_bool_decide as H; [done|]. by destruct (decide (x = y)). Qed.

Lemma set_cafe_details_other cid d img (cs : list Cafe) :
  filter (λ r, cafe_id r ≠ cid)
    ((λ r, if bool_decide (cafe_id r = cid)
           then mkCafe (cafe_id r) (title r) (city r)
                  (if bool_decide (description r ≠ d) then d else description r)
                  (if bool_decide (image_url r ≠ img) then img else image_url r)
           else r) <$> cs)
  = filter (λ r, cafe_id r ≠ cid) cs.
Proof.
  induction cs as [|r cs IH]; [done|].
  rewrite fmap_cons, !filter_cons, IH.
  destruct (decide (cafe_id r = cid)) as [Heq|Hne].
  - rewrite (bool_decide_eq_true_2 _ Heq). cbn [cafe_id].
    rewrite decide_False by (by intros Hne). by rewrite decide_False by (by intros Hne).
  - rewrite (bool_decide_eq_false_2 _ Hne). by rewrite decide_True by done.
Qed.

Lemma wanted_ids_best dict e best_id :
  dict !! new_best_for e = Some best_id → best_id ∈ wanted_ids dict e.
Proof.
  intros Hbest. unfold wanted_ids. apply elem_of_list_to_set, list_elem_of_omap.
  exists (new_best_for e). split; [by left|done].
Qed.

Section SeedCafe.

Variable iter_names : gset string → list string.
Variable iter_ids : gset Z → list Z.
Hypothesis iter_names_elements : ∀ X, iter_names X ≡ₚ elements X.
Hypothesis iter_ids_elements : ∀ X, iter_ids X ≡ₚ elements X.

Lemma iter_names_NoDup X : NoDup (iter_names X).
Proof. rewrite iter_names_elements. apply NoDup_elements. Qed.

Lemma iter_ids_NoDup X : NoDup (iter_ids X).
Proof. rewrite iter_ids_elements. apply NoDup_elements. Qed.

Lemma iter_ids_set X : list_to_set (iter_ids X) = X.
Proof. rewrite iter_ids_elements. apply list_to_set_elements_L. Qed.

Lemma elem_of_iter_names X n : n ∈ iter_names X ↔ n ∈ X.
Proof. rewrite iter_names_elements. apply elem_of_elements. Qed.

Lemma desired_ids (dict : gmap string Z) e :
  list_to_set
    (omap (λ n, dict !! n)
       (iter_names ({[new_best_for e]} ∪ list_to_set (new_also_good_for e))))
  = wanted_ids dict e.
Proof.
  unfold wanted_ids. apply set_eq. intros i.
  rewrite !elem_of_list_to_set, !list_elem_of_omap.
  split; intros (n & Hn & Hi); exists n; (split; [|done]).
  - apply elem_of_iter_names in Hn.
    apply elem_of_union in Hn as [Hn%elem_of_singleton|Hn%elem_of_list_to_set].
    + subst n. by left.
    + by right.
  - apply elem_of_iter_names. apply elem_of_cons in Hn as [->|Hn].
    + apply elem_of_union_l. by apply elem_of_singleton.
    + apply elem_of_union_r. by apply elem_of_list_to_set.
Qed.

(** An entry that passes the checks is written: its café row, and a row
    for each of its categories. *)
Lemma seed_cafe_accepted (dict : gmap string Z) e db best_id :
  one_name_per_id dict →
  NoDup (assoc_key <$> cafe_categories (pending db)) →
  (∀ a, a ∈ cafe_categories (pending db) →
        assoc_cafe_id a ∈ cafe_id <$> cafes (pending db)) →
  NoDup (assoc_id <$> cafe_categories (pending db)) →
  ¬ rejected e →
  dict !! new_best_for e = Some best_id →
  (∀ n, n ∈ new_also_good_for e → is_Some (dict !! n)) →
  ∃ cs F,
    seed_cafe iter_names iter_ids dict e db
    = (inr tt, mkDb (committed db) (mkStore (categories (pending db)) cs F))
    ∧ cafe_written e (seeded_id (pending db) e) (cafes (pending db)) cs
    ∧ reconciled (seeded_id (pending db) e) best_id (wanted_ids dict e)
        (cafe_categories (pending db)) F.
Proof.
  intros Hinj Huniq Hfk Hpk Hrej Hbest Halso.
  unfold seed_cafe, seeded_id.
  case_bool_decide as H1; [exfalso; apply Hrej; by left|].
  case_bool_decide as H2; [exfalso; apply Hrej; right; by left|].
  destruct (truthy (new_image_url e)
            && bool_decide (500 < String.length (default "" (new_image_url e)))%nat)
    eqn:Himg.
  { exfalso. apply andb_true_iff in Himg as [Hi Hl].
    apply bool_decide_eq_true in Hl. apply Hrej. right. right. by left. }
  rewrite (bool_decide_eq_false_2 (dict !! new_best_for e = None)) by congruence.
  rewrite (bool_decide_eq_false_2
             (filter (λ cat, dict !! cat = None) (new_also_good_for e) ≠ [])).
  2:{ intros Hne. apply Hne. apply filter_none, Forall_forall.
      intros n Hn Hnone. destruct (Halso n Hn) as [i Hi]. congruence. }
  rewrite (bool_decide_eq_false_2 (new_best_for e ∈ new_also_good_for e)).
  2:{ intros Hin. apply Hrej. by do 3 right. }
  set (names := iter_names ({[new_best_for e]} ∪ list_to_set (new_also_good_for e))).
  assert (∀ n, n ∈ names → is_Some (dict !! n)) as Hknown.
  { intros n Hn. apply elem_of_iter_names in Hn.
    apply elem_of_union in Hn as [Hn%elem_of_singleton|Hn%elem_of_list_to_set].
    - subst n. by eexists.
    - by apply Halso. }
  pose proof (desired_ids dict e) as HD. fold names in HD.
  unfold bind at 1. rewrite (subscripts_known dict names db Hknown).
  rewrite HD.
  unfold bind at 1, subscript at 1. rewrite Hbest. unfold ret at 1.
  unfold bind at 1, select_cafe_by_title_city, query.
  destruct (head (filter (λ r, cafe_key r = (new_title e, new_city e))
                         (cafes (pending db)))) as [row|] eqn:Hsel.
  - apply head_filter_Some in Hsel as [Hkey Hrow].
    unfold bind at 1, set_cafe_details at 1.
    set (cs := _ <$> cafes (pending db)).
    unfold bind at 1, select_cafe_categories, query. cbn [pending cafe_categories].
    set (db1 := mkDb _ _).
    destruct (reconcile_existing (cafe_id row) best_id (cafe_categories (pending db))
                Hpk Huniq (wanted_ids dict e)
                (iter_ids (wanted_ids dict e))
                (iter_ids (dom (by_category_id
                                  (filter (λ a, assoc_cafe_id a = cafe_id row)
                                          (cafe_categories (pending db))))
                           ∖ wanted_ids dict e))
                db1) as (F & Hrun & Hrec).
    { apply iter_ids_NoDup. }
    { apply iter_ids_set. }
    { apply iter_ids_set. }
    { done. }
    exists cs, F. rewrite Hrun. split; [done|]. split; [|done].
    split.
    + apply set_cafe_details_other.
    + apply list_elem_of_fmap. exists row. split; [|done].
      rewrite bool_decide_eq_true_2 by done. rewrite !assign_if_differs.
      unfold cafe_key in Hkey. by injection Hkey as -> ->.
  - assert ((new_title e, new_city e) ∉ cafe_key <$> cafes (pending db)) as Hfree.
    { intros (r & Hr & Hin)%list_elem_of_fmap.
      by apply (head_filter_None _ _ r Hsel Hin). }
    unfold bind at 1, insert_cafe at 1.
    rewrite (bool_decide_eq_false_2 _ Hfree). cbn [cafe_id].
    set (cid := next_id (cafe_id <$> cafes (pending db))).
    set (db1 := mkDb _ _).
    rewrite (new_cafe_loop dict (new_best_for e) best_id cid names db1 Hinj Hbest Hknown).
    destruct (reconcile_new cid best_id (cafe_categories (pending db))
                Hpk Huniq (wanted_ids dict e)
                (omap (λ n, dict !! n) names) db1) as (F & Hrun & Hrec).
    { apply omap_NoDup; [done|apply iter_names_NoDup]. }
    { done. }
    { intros x Hx Hcid. apply (next_id_fresh (cafe_id <$> cafes (pending db))).
      fold cid. rewrite <- Hcid. by apply Hfk. }
    { done. }
    exists (cafes (pending db)
            ++ [mkCafe cid (new_title e) (new_city e) (new_description e)
                       (new_image_url e)])%list, F.
    rewrite Hrun. split; [done|]. split; [|done].
    split.
    + rewrite filter_app, filter_cons_False, filter_nil, app_nil_r; [done|].
      cbn [cafe_id]. by intros Hne.
    + apply elem_of_app. right. by left.
Qed.

Lemma seed_cafe_unknown (dict : gmap string Z) e db :
  dict !! new_best_for e = None
  ∨ filter (λ cat, dict !! cat = None) (new_also_good_for e) ≠ [] →
  seed_cafe iter_names iter_ids dict e db = (inr tt, db).
Proof.
  intros Hunknown. unfold seed_cafe.
  case_bool_decide as Ht; [done|].
  case_bool_decide as Hc; [done|].
  destruct (truthy (new_image_url e)
            && bool_decide (500 < String.length (default "" (new_image_url e)))%nat);
    [done|].
  destruct (bool_decide (dict !! new_best_for e = None)) eqn:Hb; [done|].
  destruct (bool_decide (filter (λ cat, dict !! cat = None)
                                (new_also_good_for e) ≠ [])) eqn:Ha; [done|].
  apply bool_decide_eq_false in Hb, Ha. exfalso. tauto.
Qed.

(** Every entry leaves in place what the seeding keeps, and raises
    nothing. *)
Lemma seed_cafe_total (dict : gmap string Z) e db :
  one_name_per_id dict →
  seed_invariant (pending db) →
  ∃ db',
    seed_cafe iter_names iter_ids dict e db = (inr tt, db')
    ∧ committed db' = committed db
    ∧ categories (pending db') = categories (pending db)
    ∧ seed_invariant (pending db').
Proof.
  intros Hinj Hinv. pose proof Hinv as (Huniq & Hfk & _ & Hpk & _).
  destruct (decide (rejected e)) as [Hrej|Hrej].
  { exists db. by rewrite seed_cafe_rejected. }
  destruct (dict !! new_best_for e) as [best_id|] eqn:Hbest.
  2:{ exists db. rewrite seed_cafe_unknown; [done|by left]. }
  destruct (decide (filter (λ cat, dict !! cat = None) (new_also_good_for e) = []))
    as [Halso|Halso].
  2:{ exists db. rewrite seed_cafe_unknown; [done|by right]. }
  destruct (seed_cafe_accepted dict e db best_id Hinj Huniq Hfk Hpk Hrej Hbest)
    as (cs & F & Hrun & Hcs & Hrec).
  { intros n Hn. apply not_eq_None_Some. intros Hnone.
    eapply (filter_nil_not_elem_of _ _ n); [apply Halso|done|done]. }
  eexists. split; [apply Hrun|]. cbn [committed pending categories].
  split; [done|]. split; [done|].
  eapply reconciled_seed_invariant; [done|done|done|].
  by apply wanted_ids_best.
Qed.

Lemma seed_cafes_total (dict : gmap string Z) (l : list CafeCreate) : ∀ db,
  one_name_per_id dict →
  seed_invariant (pending db) →
  ∃ db',
    for_each l (seed_cafe iter_names iter_ids dict) db = (inr tt, db')
    ∧ committed db' = committed db
    ∧ categories (pending db') = categories (pending db)
    ∧ seed_invariant (pending db').
Proof.
  induction l as [|e l IH]; intros db Hinj Hinv.
  - by exists db.
  - destruct (seed_cafe_total dict e db Hinj Hinv)
      as (db1 & Hrun1 & Hc1 & Hk1 & Hinv1).
    destruct (IH db1 Hinj Hinv1) as (db2 & Hrun2 & Hc2 & Hk2 & Hinv2).
    exists db2. cbn [for_each]. unfold bind. rewrite Hrun1, Hrun2.
    split; [done|]. split; [congruence|]. split; [congruence|]. done.
Qed.

End SeedCafe.

(** ** The whole seeding *)

Lemma name_ids_one_name_per_id (rows : list Category) :
  NoDup (category_id <$> rows) → one_name_per_id (name_ids rows).
Proof.
  intros Hnd n m i (k & Hk & <- & Hki)%name_ids_Some (k' & Hk' & <- & Hki')%name_ids_Some.
  f_equal. eapply (NoDup_fmap_eq category_id rows); [done|done|done|congruence].
Qed.

Lemma seed_categories_keys (existing : list string) (l : list string) :
  ∀ db r db',
  for_each l (λ name,
    if bool_decide (name ∈ existing) then ret tt else insert_category name) db
  = (r, db') →
  NoDup (category_id <$> categories (pending db)) →
  NoDup (category_id <$> categories (pending db')).
Proof.
  induction l as [|n l IH]; intros db r db' Hrun Hnd.
  - by injection Hrun as _ <-.
  - cbn [for_each] in Hrun. unfold bind at 1 in Hrun.
    destruct (bool_decide (n ∈ existing)).
    + by apply (IH db r db').
    + unfold insert_category at 1 in Hrun.
      destruct (bool_decide (n ∈ category_name <$> categories (pending db))).
      * by injection Hrun as _ <-.
      * apply (IH _ r db' Hrun). cbn [pending categories].
        rewrite fmap_app. apply NoDup_app. split; [done|]. split.
        -- intros i Hi Hin. apply list_elem_of_singleton in Hin. simpl in Hin.
           subst i. by apply next_id_fresh in Hi.
        -- apply NoDup_singleton.
Qed.

Lemma seed_invariant_categories s ks :
  seed_invariant s →
  NoDup (category_id <$> ks) →
  seed_invariant (mkStore ks (cafes s) (cafe_categories s)).
Proof. intros (? & ? & ? & ? & _) Hks. by repeat split. Qed.

Lemma paris_store_seed_invariant : seed_invariant paris_store.
Proof.
  split; [apply paris_store_invariant|].
  split; [apply paris_store_invariant|].
  split; [|split; apply (bool_decide_unpack _); by vm_compute].
  intros cid ->%list_elem_of_singleton.
  exists (mkCafeCategory 1 1 1 true). split; [by left|done].
Qed.

(** X21: what seeding keeps.  From a store in which no café has two
    association rows for one category, every association row belongs to
    a café, every café has a row flagged best, and association rows and
    categories have unique primary keys, [seed_database] returns
    normally, whatever [categories_data] and [cafes_data] hold and in
    whatever order sets are run through, and the store it leaves has the
    same properties: no entry makes the café loop raise.  (That a café
    has one row flagged best only is not kept: see X23.) *)
Theorem X21_seed_keeps_the_invariant
    (iter_names : gset string → list string) (iter_ids : gset Z → list Z)
    (categories_data : list string) (cafes_data : list CafeCreate) (s : Store) :
  (∀ X, iter_names X ≡ₚ elements X) →
  (∀ X, iter_ids X ≡ₚ elements X) →
  seed_invariant s →
  ∃ s',
    run (seed_database iter_names iter_ids categories_data cafes_data) s
    = (inr tt, s')
    ∧ seed_invariant s'.
Proof.
  intros Hnames Hids Hinv. pose proof Hinv as (_ & _ & _ & _ & Hcat).
  destruct (decide (NoDup (new_names s categories_data))) as [Hnd|Hdup].
  - unfold new_names in Hnd.
    destruct (seed_categories_ok (category_name <$> categories s)
                categories_data (mkDb s s) Hnd) as (rows & Hrun & Hrows).
    { intros n [Hn _]%list_elem_of_filter. done. }
    pose proof (seed_categories_keys _ _ _ _ _ Hrun Hcat) as Hcat1.
    cbn [pending committed categories] in Hrun, Hcat1.
    set (p1 := mkStore (categories s ++ rows) (cafes s) (cafe_categories s)) in *.
    destruct (seed_cafes_total iter_names iter_ids Hnames Hids
                (name_ids (categories p1)) cafes_data (mkDb p1 p1))
      as (db2 & Hphase & Hc2 & Hk2 & Hinv2).
    { by apply name_ids_one_name_per_id. }
    { by apply seed_invariant_categories. }
    exists (pending db2). split; [|done].
    unfold run, seed_database, try_except_IntegrityError.
    unfold bind at 1, query. cbn [pending]. unfold bind at 1.
    rewrite Hrun. cbn [committed pending]. unfold bind at 1, commit.
    cbn [pending]. fold p1. unfold bind at 1. cbn [pending].
    unfold bind at 1. rewrite Hphase. done.
  - exists s. split; [|done].
    destruct (seed_categories_fail (category_name <$> categories s)
                categories_data (mkDb s s)) as (db' & Hrun & Hc).
    { by intros [Hnd _]. }
    unfold run, seed_database, try_except_IntegrityError.
    unfold bind at 1, query. cbn [pending]. unfold bind at 1.
    rewrite Hrun. simpl in Hc. unfold rollback. by rewrite Hc.
Qed.

Lemma X21_witness :
  ∃ s',
    run (seed_database elements elements ["wifi"; "books"] sample_cafes_data)
        paris_store = (inr tt, s')
    ∧ seed_invariant s'.
Proof.
  apply (X21_seed_keeps_the_invariant elements elements
           ["wifi"; "books"] sample_cafes_data paris_store).
  - intros X. reflexivity.
  - intros X. reflexivity.
  - apply paris_store_seed_invariant.
Defined.

Lemma name_ids_known (rows : list Category) n :
  n ∈ category_name <$> rows → is_Some (name_ids rows !! n).
Proof.
  intros Hn. apply not_eq_None_Some. intros Hnone.
  by apply name_ids_None in Hnone.
Qed.

(** What [seed_cafe] does with an entry that passes its checks, in the
    terms of [reconciled]. *)
Lemma seed_cafe_known
    (iter_names : gset string → list string) (iter_ids : gset Z → list Z)
    (e : CafeCreate) (db : Db) :
  (∀ X, iter_names X ≡ₚ elements X) →
  (∀ X, iter_ids X ≡ₚ elements X) →
  seed_invariant (pending db) →
  ¬ rejected e →
  (∀ n, n ∈ names_of e → n ∈ category_name <$> categories (pending db)) →
  let dict := name_ids (categories (pending db)) in
  ∃ best_id cs F,
    dict !! new_best_for e = Some best_id
    ∧ one_name_per_id dict
    ∧ (∀ n, n ∈ names_of e → is_Some (dict !! n))
    ∧ seed_cafe iter_names iter_ids dict e db
      = (inr tt, mkDb (committed db) (mkStore (categories (pending db)) cs F))
    ∧ cafe_written e (seeded_id (pending db) e) (cafes (pending db)) cs
    ∧ reconciled (seeded_id (pending db) e) best_id (wanted_ids dict e)
        (cafe_categories (pending db)) F.
Proof.
  intros Hnames Hids (Huniq & Hfk & _ & Hpk & Hcat) Hrej Hknown dict.
  assert (one_name_per_id dict) as Hinj by (by apply name_ids_one_name_per_id).
  assert (∀ n, n ∈ names_of e → is_Some (dict !! n)) as Hdict.
  { intros n Hn. by apply name_ids_known, Hknown. }
  destruct (Hdict (new_best_for e)) as [best_id Hbest]; [by left|].
  destruct (seed_cafe_accepted iter_names iter_ids Hnames Hids dict e db best_id
              Hinj Huniq Hfk Hpk Hrej Hbest)
    as (cs & F & Hrun & Hcs & Hrec).
  { intros n Hn. apply Hdict. by right. }
  by exists best_id, cs, F.
Qed.

(** X22: what the seeding does with one entry of [cafes_data] that passes
    its checks (no field too long, the best category not repeated, every
    name in the category table), in a store that satisfies the key
    constraints: the entry raises nothing; afterwards the café table has
    a row with the entry's title, city, description and image, under the
    id of the café that had this title and city or under a fresh id; for
    each category of the entry that café has an association, flagged
    best for the entry's best category and not flagged for the others;
    every other association row, of another café or of this café for a
    category that is not in the entry, is exactly as it was (the
    deletion of the latter is called without [await]); and the other
    café rows, the category table and what is committed are untouched. *)
Theorem X22_seeded_entry_is_stored
    (iter_names : gset string → list string) (iter_ids : gset Z → list Z)
    (e : CafeCreate) (db : Db) :
  (∀ X, iter_names X ≡ₚ elements X) →
  (∀ X, iter_ids X ≡ₚ elements X) →
  seed_invariant (pending db) →
  NoDup (category_name <$> categories (pending db)) →
  ¬ rejected e →
  (∀ n, n ∈ names_of e → n ∈ category_name <$> categories (pending db)) →
  ∃ (s' : Store) (c : Cafe),
    seed_cafe iter_names iter_ids (name_ids (categories (pending db))) e db
    = (inr tt, mkDb (committed db) s')
    ∧ categories s' = categories (pending db)
    ∧ c ∈ cafes s'
    ∧ cafe_id c = seeded_id (pending db) e
    ∧ (title c, city c, description c, image_url c)
      = (new_title e, new_city e, new_description e, new_image_url e)
    ∧ (∀ name b, name ∈ names_of e →
         has_association s' c name b ↔ b = bool_decide (name = new_best_for e))
    ∧ filter (kept (cafe_id c) (wanted_ids (name_ids (categories (pending db))) e))
             (cafe_categories s')
      = filter (kept (cafe_id c) (wanted_ids (name_ids (categories (pending db))) e))
               (cafe_categories (pending db))
    ∧ filter (λ r, cafe_id r ≠ cafe_id c) (cafes s')
      = filter (λ r, cafe_id r ≠ cafe_id c) (cafes (pending db)).
Proof.
  intros Hnames Hids Hinv Hunique Hrej Hknown.
  pose proof Hinv as (_ & _ & _ & _ & Hcat).
  destruct (seed_cafe_known iter_names iter_ids e db Hnames Hids Hinv Hrej Hknown)
    as (best_id & cs & F & Hbest & Hinj & Hdict & Hrun & [Hframe Hrow] & Hrec).
  set (dict := name_ids (categories (pending db))) in *.
  set (cid := seeded_id (pending db) e) in *.
  pose proof Hrec as (Hother & Hrows & Hcover & _ & _).
  exists (mkStore (categories (pending db)) cs F),
         (mkCafe cid (new_title e) (new_city e) (new_description e) (new_image_url e)).
  cbn [categories cafes cafe_categories cafe_id title city description image_url].
  split; [done|]. split; [done|]. split; [done|]. split; [done|]. split; [done|].
  split; [|by split].
  intros name b Hname. destruct (Hdict name Hname) as [i Hi].
  pose proof Hi as (k0 & Hk0 & Hname0 & Hid0)%name_ids_Some.
  assert (i ∈ wanted_ids dict e) as HiD.
  { apply elem_of_list_to_set, list_elem_of_omap. by exists name. }
  unfold has_association.
  cbn [categories cafes cafe_categories cafe_id]. split.
  - intros (a & k & Ha & Hcid & Hk & Hid & Hkname & Hflag).
    assert (k = k0) as ->.
    { eapply (NoDup_fmap_eq category_name (categories (pending db)));
        [done|done|done|congruence]. }
    assert (assoc_category_id a = i) as Hcat_a by congruence.
    rewrite <- Hflag, (Hrows a Ha Hcid) by (by rewrite Hcat_a).
    rewrite Hcat_a. symmetry.
    by apply (flag_by_name dict (new_best_for e) best_id name i).
  - intros ->.
    pose proof (Hcover i HiD) as Hin.
    apply list_elem_of_fmap in Hin as (a & Hai & Ha).
    apply list_elem_of_filter in Ha as [Hcid Ha].
    exists a, k0. repeat split; try done; [congruence|].
    rewrite (Hrows a Ha Hcid) by (by rewrite <- Hai).
    rewrite <- Hai. symmetry.
    by apply (flag_by_name dict (new_best_for e) best_id name i).
Qed.

Lemma X22_witness :
  ∃ (s' : Store) (c : Cafe),
    seed_cafe elements elements (name_ids (categories paris_store))
      (mkCafeCreate "A" "Paris" "calmer place" None "quiet" ["wifi"])
      (mkDb paris_store paris_store)
    = (inr tt, mkDb paris_store s')
    ∧ categories s' = categories paris_store
    ∧ c ∈ cafes s'
    ∧ cafe_id c = 1
    ∧ (title c, city c, description c, image_url c)
      = ("A", "Paris", "calmer place", None)
    ∧ (∀ name b, name ∈ ["quiet"; "wifi"] →
         has_association s' c name b ↔ b = bool_decide (name = "quiet"))
    ∧ filter (kept (cafe_id c)
                (wanted_ids (name_ids (categories paris_store))
                   (mkCafeCreate "A" "Paris" "calmer place" None "quiet" ["wifi"])))
             (cafe_categories s')
      = filter (kept (cafe_id c)
                  (wanted_ids (name_ids (categories paris_store))
                     (mkCafeCreate "A" "Paris" "calmer place" None "quiet" ["wifi"])))
               (cafe_categories paris_store)
    ∧ filter (λ r, cafe_id r ≠ cafe_id c) (cafes s')
      = filter (λ r, cafe_id r ≠ cafe_id c) (cafes paris_store).
Proof.
  apply (X22_seeded_entry_is_stored elements elements
           (mkCafeCreate "A" "Paris" "calmer place" None "quiet" ["wifi"])
           (mkDb paris_store paris_store)).
  - intros X. reflexivity.
  - intros X. reflexivity.
  - apply paris_store_seed_invariant.
  - apply (bool_decide_unpack _). by vm_compute.
  - apply (bool_decide_unpack _). by vm_compute.
  - intros n Hn. cbn [names_of new_best_for new_also_good_for] in Hn.
    repeat (apply elem_of_cons in Hn as [->|Hn]);
      [apply (bool_decide_unpack _); by vm_compute..|].
    by apply elem_of_nil in Hn.
Defined.

Lemma two_elements {A} (l : list A) x y :
  x ∈ l → y ∈ l → x ≠ y → (2 ≤ length l)%nat.
Proof.
  intros Hx Hy Hne. destruct l as [|a [|b l]]; simpl; [|exfalso|lia].
  - by apply elem_of_nil in Hx.
  - apply list_elem_of_singleton in Hx, Hy. congruence.
Qed.

(** X23: re-seeding does not remove what the entry no longer names.  When
    the café of an accepted entry is in the store and has an association
    row for a category that is not among the entry's, that row is still
    there after the entry is processed (the script's [session.delete] is
    not awaited); if the row was flagged best, the café ends with two
    rows flagged best, the old one and the entry's. *)
Theorem X23_reseeding_keeps_unwanted_rows
    (iter_names : gset string → list string) (iter_ids : gset Z → list Z)
    (e : CafeCreate) (db : Db) (c : Cafe) (a : CafeCategory) :
  (∀ X, iter_names X ≡ₚ elements X) →
  (∀ X, iter_ids X ≡ₚ elements X) →
  seed_invariant (pending db) →
  NoDup (cafe_key <$> cafes (pending db)) →
  ¬ rejected e →
  (∀ n, n ∈ names_of e → n ∈ category_name <$> categories (pending db)) →
  c ∈ cafes (pending db) →
  cafe_key c = (new_title e, new_city e) →
  a ∈ cafe_categories (pending db) →
  assoc_cafe_id a = cafe_id c →
  assoc_category_id a ∉ wanted_ids (name_ids (categories (pending db))) e →
  ∃ s',
    seed_cafe iter_names iter_ids (name_ids (categories (pending db))) e db
    = (inr tt, mkDb (committed db) s')
    ∧ a ∈ cafe_categories s'
    ∧ (is_best a = true →
       (2 ≤ length (filter (λ x, is_best x = true)
                      (filter (λ x, assoc_cafe_id x = cafe_id c)
                              (cafe_categories s'))))%nat
       ∧ ¬ one_best s' (cafe_id c)).
Proof.
  intros Hnames Hids Hinv Hkeys Hrej Hknown Hc Hkey Ha Hcid Hout.
  destruct (seed_cafe_known iter_names iter_ids e db Hnames Hids Hinv Hrej Hknown)
    as (best_id & cs & F & Hbest & Hinj & Hdict & Hrun & Hcs & Hrec).
  set (dict := name_ids (categories (pending db))) in *.
  assert (seeded_id (pending db) e = cafe_id c) as Hid.
  { unfold seeded_id. rewrite <- Hkey.
    by rewrite (filter_key_unique cafe_key (cafes (pending db)) c Hkeys Hc). }
  rewrite Hid in Hrec.
  exists (mkStore (categories (pending db)) cs F). cbn [cafe_categories].
  split; [done|].
  assert (a ∈ F) as HaF.
  { apply (reconciled_kept (cafe_id c) best_id (wanted_ids dict e) _ F a Hrec);
      [|done].
    by intros [_ ?]. }
  split; [done|]. intros Hflag.
  destruct (reconciled_best_row (cafe_id c) best_id (wanted_ids dict e) _ F Hrec)
    as (a' & Ha' & Hcid' & Hcat' & Hflag'); [by apply wanted_ids_best|].
  assert ((2 ≤ length (filter (λ x, is_best x = true)
                         (filter (λ x, assoc_cafe_id x = cafe_id c) F)))%nat)
    as Hlen.
  { apply (two_elements _ a a').
    - apply list_elem_of_filter. split; [done|]. by apply list_elem_of_filter.
    - apply list_elem_of_filter. split; [done|]. by apply list_elem_of_filter.
    - intros ->. apply Hout. rewrite Hcat'. by apply wanted_ids_best. }
  split; [done|]. unfold one_best. cbn [cafe_categories]. lia.
Qed.

Lemma X23_witness :
  ∃ s',
    seed_cafe elements elements (name_ids (categories paris_store))
      (mkCafeCreate "A" "Paris" "calmer place" None "quiet" [])
      (mkDb paris_store paris_store)
    = (inr tt, mkDb paris_store s')
    ∧ mkCafeCategory 1 1 1 true ∈ cafe_categories s'
    ∧ (2 ≤ length (filter (λ x, is_best x = true)
                     (filter (λ x, assoc_cafe_id x = 1%Z) (cafe_categories s'))))%nat
    ∧ ¬ one_best s' 1.
Proof.
  destruct (X23_reseeding_keeps_unwanted_rows elements elements
              (mkCafeCreate "A" "Paris" "calmer place" None "quiet" [])
              (mkDb paris_store paris_store)
              (mkCafe 1 "A" "Paris" "calm place" None)
              (mkCafeCategory 1 1 1 true))
    as (s' & Hrun & Hrow & Htwo).
  - intros X. reflexivity.
  - intros X. reflexivity.
  - apply paris_store_seed_invariant.
  - apply (bool_decide_unpack _). by vm_compute.
  - apply (bool_decide_unpack _). by vm_compute.
  - intros n Hn. cbn [names_of new_best_for new_also_good_for] in Hn.
    repeat (apply elem_of_cons in Hn as [->|Hn]);
      [apply (bool_decide_unpack _); by vm_compute..|].
    by apply elem_of_nil in Hn.
  - by left.
  - done.
  - by left.
  - done.
  - apply (bool_decide_unpack _). by vm_compute.
  - exists s'. split; [exact Hrun|]. split; [exact Hrow|]. exact (Htwo eq_refl).
Defined.
